(** * BusTub buffer-pool core: LRU-K replacer and extendible hash table

    A shallow embedding of [src/lru_k_replacer.cpp] and
    [src/extendible_hash_table.cpp], with the properties of the
    specification stated over it.

    Conventions.
    - [size_t] values are integers in [0, 2^64); every arithmetic result
      stored in a [size_t] is reduced with [wrap64].
    - [frame_id_t] is a signed integer type (the code stores [-1] in it);
      BusTub declares it as a 32-bit [int], and
      [static_cast<frame_id_t>] is [to_frame_id].
    - [int] depths, masks and counters of the hash table are integers
      in [Z]; up to a global depth of 30 these are the values of the
      program.  Signed overflow has no defined behaviour in C++:
      [Insert_int] is [Insert] with every [int] computation checked, and
      [Insert_int_iff] relates the two.
    - The mutexes are not modelled: every operation holds the single
      latch of its component from entry to exit, so the operations are
      atomic state transformers. *)

From Stdlib Require Import ZArith Lia.
From stdpp Require Import base option list gmap fin_maps sorting.

Local Open Scope Z_scope.

(** ** Machine integers *)

Definition SIZE_MAX : Z := 2 ^ 64 - 1.

Definition wrap64 (z : Z) : Z := z mod 2 ^ 64.

(** Conversion of a [size_t] to the signed 32-bit [frame_id_t]. *)
Definition to_frame_id (z : Z) : Z := (z + 2 ^ 31) mod 2 ^ 32 - 2 ^ 31.

Module Replacer.

(** ** Data model of the LRU-K replacer *)

(** [Frame]: the per-frame record of the header; [history_] is oldest
    first, [push_back] appends and [pop_front] drops the head. *)
Record Frame := mkFrame {
  history_ : list Z;
  k_distance_ : Z;
  is_evictable_ : bool
}.

(** Modelled from the spec: the default member values of a freshly
    created [Frame] live in the absent header; the spec gives an empty
    history and [is_evictable = false], and the cached distance is
    overwritten by [UpdateKDistance] before it is ever read. *)
Definition default_frame : Frame := mkFrame [] 0 false.

Record LRUKReplacer := mkReplacer {
  frames_ : gmap Z Frame;
  current_timestamp_ : Z;
  curr_size_ : Z;
  replacer_size_ : Z;
  k_ : Z
}.

(** Outcome of an operation that may throw: the state carried by
    [Throw] is the state at the throw statement; [Undefined] is an
    out-of-range iterator dereference. *)
Inductive error := InvalidFrameId | NonEvictableRemoval.

Inductive result :=
| Ok (s : LRUKReplacer)
| Throw (e : error) (s : LRUKReplacer)
| Undefined.

(** [LRUKReplacer::LRUKReplacer(num_frames, k)].
    Modelled from the spec: the initial values of [current_timestamp_]
    and [curr_size_] are member initialisers of the absent header; the
    spec starts both counters at zero. *)
Definition new_replacer (num_frames k : Z) : LRUKReplacer :=
  mkReplacer ∅ 0 0 num_frames k.

(** [CalcKDistance]: [std::advance(begin, k_ - 1)] then dereference. *)
Definition CalcKDistance (s : LRUKReplacer) (frame : Frame) : option Z :=
  if Z.of_nat (length (history_ frame)) <? k_ s then Some SIZE_MAX
  else
    match history_ frame !! Z.to_nat (wrap64 (k_ s - 1)) with
    | Some t => Some (wrap64 (current_timestamp_ s - t))
    | None => None
    end.

Definition set_frames (s : LRUKReplacer) (m : gmap Z Frame) : LRUKReplacer :=
  mkReplacer m (current_timestamp_ s) (curr_size_ s) (replacer_size_ s) (k_ s).

Definition set_curr_size (s : LRUKReplacer) (n : Z) : LRUKReplacer :=
  mkReplacer (frames_ s) (current_timestamp_ s) n (replacer_size_ s) (k_ s).

Definition set_timestamp (s : LRUKReplacer) (t : Z) : LRUKReplacer :=
  mkReplacer (frames_ s) t (curr_size_ s) (replacer_size_ s) (k_ s).

(** [RecordAccess] *)
Definition RecordAccess (s : LRUKReplacer) (frame_id : Z) : result :=
  if to_frame_id (replacer_size_ s) <=? frame_id then Throw InvalidFrameId s
  else
    let frame := default (default_frame) (frames_ s !! frame_id) in
    let pushed := history_ frame ++ [current_timestamp_ s] in
    let hist := if k_ s <? Z.of_nat (length pushed) then tail pushed else pushed in
    let frame1 := mkFrame hist (k_distance_ frame) (is_evictable_ frame) in
    match CalcKDistance s frame1 with
    | None => Undefined
    | Some d =>
        let frame2 := mkFrame hist d (is_evictable_ frame) in
        let s1 := set_frames s (<[frame_id := frame2]> (frames_ s)) in
        Ok (set_timestamp s1 (wrap64 (current_timestamp_ s + 1)))
    end.

(** [SetEvictable] *)
Definition SetEvictable (s : LRUKReplacer) (frame_id : Z) (set_evictable : bool)
  : result :=
  if to_frame_id (replacer_size_ s) <=? frame_id then Throw InvalidFrameId s
  else
    match frames_ s !! frame_id with
    | None => Ok s
    | Some frame =>
        if negb (eqb (is_evictable_ frame) set_evictable) then
          let frame' := mkFrame (history_ frame) (k_distance_ frame) set_evictable in
          let s1 := set_frames s (<[frame_id := frame']> (frames_ s)) in
          Ok (set_curr_size s1
                (wrap64 (curr_size_ s + (if set_evictable then 1 else -1))))
        else Ok s
    end.

(** [Remove] *)
Definition Remove (s : LRUKReplacer) (frame_id : Z) : result :=
  match frames_ s !! frame_id with
  | None => Ok s
  | Some frame =>
      if negb (is_evictable_ frame) then Throw NonEvictableRemoval s
      else
        let s1 := set_frames s (delete frame_id (frames_ s)) in
        Ok (set_curr_size s1 (wrap64 (curr_size_ s - 1)))
  end.

(** [Size] *)
Definition Size (s : LRUKReplacer) : Z := curr_size_ s.

(** The three locals of the scan in [Evict]. *)
Record scan := mkScan {
  victim_id : Z;
  max_k_distance : Z;
  earliest_access : Z
}.

(** One iteration of the range-for over [frames_]. *)
Definition scan_step (acc : scan) (entry : Z * Frame) : scan :=
  let '(fid, frame) := entry in
  if negb (is_evictable_ frame) then acc
  else if (max_k_distance acc <? k_distance_ frame)
          || ((k_distance_ frame =? max_k_distance acc)
              && match history_ frame with
                 | [] => false
                 | front :: _ => front <? earliest_access acc
                 end)
  then mkScan fid (k_distance_ frame)
         (match history_ frame with
          | [] => earliest_access acc
          | front :: _ => front
          end)
  else acc.

Definition scan_frames (s : LRUKReplacer) (l : list (Z * Frame)) : scan :=
  fold_left scan_step l (mkScan (-1) 0 (current_timestamp_ s)).

(** [Evict]: [Some fid] stands for [true] with [*frame_id = fid],
    [None] for [false].  The range-for visits the entries of the frame
    table in the order of the enumeration [map_to_list]; what is proved
    of the scan below holds for every order of enumeration. *)
Definition Evict (s : LRUKReplacer) : option Z * LRUKReplacer :=
  if curr_size_ s =? 0 then (None, s)
  else
    let r := scan_frames s (map_to_list (frames_ s)) in
    if negb (victim_id r =? -1) then
      let s1 := set_frames s (delete (victim_id r) (frames_ s)) in
      (Some (victim_id r), set_curr_size s1 (wrap64 (curr_size_ s - 1)))
    else (None, s).

(** Histories of the operations of the public interface. *)
Inductive op :=
| OpRecordAccess (frame_id : Z)
| OpSetEvictable (frame_id : Z) (set_evictable : bool)
| OpRemove (frame_id : Z)
| OpEvict.

(** The state the replacer is left in when a call returns or throws. *)
Definition state_of (r : result) : option LRUKReplacer :=
  match r with
  | Ok s | Throw _ s => Some s
  | Undefined => None
  end.

Definition apply_op (s : LRUKReplacer) (o : op) : option LRUKReplacer :=
  match o with
  | OpRecordAccess f => state_of (RecordAccess s f)
  | OpSetEvictable f b => state_of (SetEvictable s f b)
  | OpRemove f => state_of (Remove s f)
  | OpEvict => Some (snd (Evict s))
  end.

Fixpoint run (s : LRUKReplacer) (ops : list op) : option LRUKReplacer :=
  match ops with
  | [] => Some s
  | o :: ops' =>
      match apply_op s o with
      | Some s' => run s' ops'
      | None => None
      end
  end.

(** ** Specification-level notions *)

Definition evictable_entry (p : Z * Frame) : Prop := is_evictable_ p.2 = true.

Global Instance evictable_entry_dec p : Decision (evictable_entry p) :=
  decide (is_evictable_ p.2 = true).

(** Number of stored frames whose flag is set. *)
Definition count_evictable (m : gmap Z Frame) : Z :=
  Z.of_nat (size (filter evictable_entry m)).

(** Backward k-distance, with [Infinite] for fewer than [k] accesses. *)
Inductive distance := Finite (d : Z) | Infinite.

Definition distance_le (a b : distance) : Prop :=
  match a, b with
  | _, Infinite => True
  | Infinite, Finite _ => False
  | Finite x, Finite y => x ≤ y
  end.

(** The k-th most recent of the timestamps [t_1 < ... < t_m] is
    [t_(m-k+1)], at position [m - k] of the oldest-first history. *)
Definition backward_k_distance (k now : Z) (history : list Z) : distance :=
  if Z.of_nat (length history) <? k then Infinite
  else
    match history !! (length history - Z.to_nat k)%nat with
    | Some t => Finite (now - t)
    | None => Infinite
    end.

Definition front (history : list Z) : Z := default 0 (head history).

(** The order the scan of [Evict] maximises: a larger cached distance
    wins, and at equal cached distance the older front wins. *)
Definition outranks (fr fr' : Frame) : Prop :=
  k_distance_ fr' < k_distance_ fr ∨
  (k_distance_ fr' = k_distance_ fr ∧ front (history_ fr) ≤ front (history_ fr')).

(** What the scan needs of an evictable entry to pick it up from its
    initial locals [(-1, 0, now)]. *)
Definition scannable (now : Z) (fr : Frame) : Prop :=
  history_ fr ≠ [] ∧ front (history_ fr) < now ∧ 0 ≤ k_distance_ fr.

(** Loop invariant of the scan: nothing evictable seen and the locals
    untouched, or the locals describe a seen evictable entry that
    outranks every seen evictable entry. *)
Definition scan_inv (now : Z) (l : list (Z * Frame)) (r : scan) : Prop :=
  (r = mkScan (-1) 0 now ∧ ∀ p, p ∈ l → is_evictable_ p.2 = false) ∨
  (∃ fr, (victim_id r, fr) ∈ l ∧ is_evictable_ fr = true ∧
         max_k_distance r = k_distance_ fr ∧
         earliest_access r = front (history_ fr) ∧
         ∀ p, p ∈ l → is_evictable_ p.2 = true → outranks fr p.2).

(** ** Representation invariant *)

(** A stored frame has a non-empty history of at most [k] past
    timestamps, and its cached distance is the value [CalcKDistance]
    left there: [SIZE_MAX] below [k] accesses, and otherwise the clock
    of the last access minus the entry [k - 1] places after the oldest
    one, which is that same access. *)
Definition frame_ok (k now : Z) (fr : Frame) : Prop :=
  history_ fr ≠ [] ∧
  Z.of_nat (length (history_ fr)) ≤ k ∧
  Forall (λ t, 0 ≤ t < now) (history_ fr) ∧
  k_distance_ fr = (if Z.of_nat (length (history_ fr)) <? k then SIZE_MAX else 0).

(** [state_ok n s]: [s] is consistent and its clock has not passed [n]. *)
Record state_ok (n : Z) (s : LRUKReplacer) : Prop := mkStateOk {
  ok_k : 1 ≤ k_ s < 2 ^ 64;
  ok_clock : 0 ≤ current_timestamp_ s ≤ n;
  ok_card : Z.of_nat (size (frames_ s)) ≤ current_timestamp_ s;
  ok_count : curr_size_ s = count_evictable (frames_ s);
  ok_frames :
    map_Forall (λ _ fr, frame_ok (k_ s) (current_timestamp_ s) fr) (frames_ s)
}.

(** ** Further invariants *)

(** Every stored frame id has passed the range check. *)
Definition ids_ok (s : LRUKReplacer) : Prop :=
  ∀ f, is_Some (frames_ s !! f) → f < to_frame_id (replacer_size_ s).

(** Histories are strictly increasing, and no timestamp is recorded for
    two frames. *)
Definition histories_ok (s : LRUKReplacer) : Prop :=
  (∀ f fr, frames_ s !! f = Some fr → StronglySorted Z.lt (history_ fr)) ∧
  (∀ f f' fr fr' t,
     frames_ s !! f = Some fr → frames_ s !! f' = Some fr' →
     t ∈ history_ fr → t ∈ history_ fr' → f = f').

(** Number of [RecordAccess] calls of a history that pass the range
    check against [bound]. *)
Fixpoint accepted_accesses (bound : Z) (ops : list op) : Z :=
  match ops with
  | [] => 0
  | OpRecordAccess f :: ops' =>
      (if f <? bound then 1 else 0) + accepted_accesses bound ops'
  | _ :: ops' => accepted_accesses bound ops'
  end.

End Replacer.

Module HashTable.

(** ** Data model of the extendible hash table *)

(** Result of running hash-table code: [Done] on return, [Undefined]
    for an access outside the directory or to a dead bucket,
    [OutOfFuel] when the split loop has not finished within the given
    number of iterations. *)
Inductive outcome (A : Type) :=
| Done (a : A)
| Undefined
| OutOfFuel.
Arguments Done {A} a.
Arguments Undefined {A}.
Arguments OutOfFuel {A}.

Global Instance outcome_ret : MRet outcome := λ A a, Done a.
Global Instance outcome_bind : MBind outcome := λ A B f m,
  match m with
  | Done a => f a
  | Undefined => Undefined
  | OutOfFuel => OutOfFuel
  end.

Section Table.
Context {K V : Type} `{EqDecision K} `{EqDecision V}.

(** [std::hash<K>]. *)
Variable hash : K → Z.

Record Bucket := mkBucket {
  size_ : Z;
  depth_ : Z;
  list_ : list (K * V)
}.

(** The directory holds [shared_ptr<Bucket>]: a pointer is the
    address of a bucket object in [heap_], so that slots sharing a
    bucket see each other's updates and [dir_[i] == bucket] is a
    comparison of addresses.  [make_shared] takes the next address. *)
Record ExtendibleHashTable := mkTable {
  global_depth_ : Z;
  bucket_size_ : Z;
  num_buckets_ : Z;
  dir_ : list nat;
  heap_ : list Bucket
}.

(** Modelled from the spec: [IsFull], [GetDepth], [IncrementDepth]
    and [GetItems] are inline members of the absent header; a bucket
    holds up to [bucket_size] pairs and is full when it holds that
    many. *)
Definition IsFull (b : Bucket) : bool :=
  Z.of_nat (length (list_ b)) =? size_ b.

Definition GetDepth (b : Bucket) : Z := depth_ b.

Definition IncrementDepth (b : Bucket) : Bucket :=
  mkBucket (size_ b) (depth_ b + 1) (list_ b).

Definition set_items (b : Bucket) (l : list (K * V)) : Bucket :=
  mkBucket (size_ b) (depth_ b) l.

(** [Bucket::Find]: the value of the first pair with the key. *)
Fixpoint find_pair (key : K) (l : list (K * V)) : option (K * V) :=
  match l with
  | [] => None
  | item :: l' => if decide (item.1 = key) then Some item else find_pair key l'
  end.

Definition Bucket_Find (b : Bucket) (key : K) : option V :=
  snd <$> find_pair key (list_ b).

(** [Bucket::Remove]: [list_.remove(pair)] erases every element equal
    to the first pair with the key. *)
Definition Bucket_Remove (b : Bucket) (key : K) : bool * Bucket :=
  match find_pair key (list_ b) with
  | Some item => (true, set_items b (filter (λ q, q ≠ item) (list_ b)))
  | None => (false, b)
  end.

(** [Bucket::Insert] *)
Definition Bucket_Insert (b : Bucket) (key : K) (value : V) : bool * Bucket :=
  if IsFull b then (false, b)
  else (true, set_items b (list_ b ++ [(key, value)])).

(** Modelled from the spec: the initial values of [global_depth_] and
    [num_buckets_] are member initialisers of the absent header; the
    spec starts with global depth 0 and one bucket. *)
Definition new_table (bucket_size : Z) : ExtendibleHashTable :=
  mkTable 0 bucket_size 1 [0%nat] [mkBucket bucket_size 0 []].

(** [IndexOf] *)
Definition IndexOf (t : ExtendibleHashTable) (key : K) : Z :=
  let mask := Z.shiftl 1 (global_depth_ t) - 1 in
  Z.land (hash key) mask.

(** [dir_[i]] and [*ptr]. *)
Definition dir_at (t : ExtendibleHashTable) (i : Z) : outcome nat :=
  match dir_ t !! Z.to_nat i with
  | Some p => Done p
  | None => Undefined
  end.

Definition deref (t : ExtendibleHashTable) (p : nat) : outcome Bucket :=
  match heap_ t !! p with
  | Some b => Done b
  | None => Undefined
  end.

Definition set_heap (t : ExtendibleHashTable) (h : list Bucket)
  : ExtendibleHashTable :=
  mkTable (global_depth_ t) (bucket_size_ t) (num_buckets_ t) (dir_ t) h.

Definition GetGlobalDepth (t : ExtendibleHashTable) : Z := global_depth_ t.

Definition GetLocalDepth (t : ExtendibleHashTable) (dir_index : Z) : outcome Z :=
  p ← dir_at t dir_index;
  b ← deref t p;
  mret (GetDepth b).

Definition GetNumBuckets (t : ExtendibleHashTable) : Z := num_buckets_ t.

(** [Find]: [Some v] stands for [true] with [value = v]. *)
Definition Find (t : ExtendibleHashTable) (key : K) : outcome (option V) :=
  p ← dir_at t (IndexOf t key);
  b ← deref t p;
  mret (Bucket_Find b key).

(** [Remove] *)
Definition Remove (t : ExtendibleHashTable) (key : K)
  : outcome (bool * ExtendibleHashTable) :=
  p ← dir_at t (IndexOf t key);
  b ← deref t p;
  let '(r, b') := Bucket_Remove b key in
  mret (r, set_heap t (<[p := b']> (heap_ t))).

(** The directory doubling of [Insert]: [resize] to twice the length,
    then [dir_[i + dir_num] = dir_[i]]. *)
Definition grow (t : ExtendibleHashTable) : ExtendibleHashTable :=
  mkTable (global_depth_ t + 1) (bucket_size_ t) (num_buckets_ t)
    (dir_ t ++ dir_ t) (heap_ t).

(** The redistribution loop over the items of the old bucket. *)
Definition redistribute_step (mask : Z) (acc : Bucket * Bucket) (item : K * V)
  : Bucket * Bucket :=
  if Z.land (hash item.1) mask =? 0
  then ((Bucket_Insert acc.1 item.1 item.2).2, acc.2)
  else (acc.1, (Bucket_Insert acc.2 item.1 item.2).2).

Definition redistribute (mask : Z) (items : list (K * V)) (nb : Bucket * Bucket)
  : Bucket * Bucket :=
  fold_left (redistribute_step mask) items nb.

(** The rewiring loop over the directory. *)
Definition rewire (mask : Z) (p p1 p2 : nat) (i : nat) (q : nat) : nat :=
  if decide (q = p) then
    if Z.land (Z.of_nat i) mask =? 0 then p1 else p2
  else q.

(** The body of the [while] loop of [Insert] after the directory has
    been doubled if it had to be: the depth of the old bucket is
    incremented, two buckets are allocated and filled, and the slots of
    the old bucket are redirected. *)
Definition split_bucket (t : ExtendibleHashTable) (p : nat) (bucket : Bucket)
  : ExtendibleHashTable :=
  let mask := Z.shiftl 1 (GetDepth bucket) in
  let bucket' := IncrementDepth bucket in
  let heap1 := <[p := bucket']> (heap_ t) in
  let p1 := length heap1 in
  let p2 := S (length heap1) in
  let new_bucket1 := mkBucket (bucket_size_ t) (GetDepth bucket') [] in
  let new_bucket2 := mkBucket (bucket_size_ t) (GetDepth bucket') [] in
  let nb := redistribute mask (list_ bucket') (new_bucket1, new_bucket2) in
  mkTable (global_depth_ t) (bucket_size_ t) (num_buckets_ t + 1)
    (imap (rewire mask p p1 p2) (dir_ t))
    (heap1 ++ [nb.1; nb.2]).

(** One iteration of the [while] loop of [Insert]. *)
Definition split (t : ExtendibleHashTable) (key : K)
  : outcome ExtendibleHashTable :=
  let index := IndexOf t key in
  p ← dir_at t index;
  bucket ← deref t p;
  let t1 := if GetDepth bucket =? global_depth_ t then grow t else t in
  mret (split_bucket t1 p bucket).

(** The [while] loop of [Insert], run for at most [fuel] iterations. *)
Fixpoint split_loop (fuel : nat) (t : ExtendibleHashTable) (key : K)
  : outcome ExtendibleHashTable :=
  p ← dir_at t (IndexOf t key);
  b ← deref t p;
  if IsFull b then
    match fuel with
    | O => OutOfFuel
    | S fuel' => t' ← split t key; split_loop fuel' t' key
    end
  else mret t.

(** The overwrite loop at the end of [Insert]: the first pair with
    the key gets the value; [None] when no pair has the key. *)
Fixpoint assign (key : K) (value : V) (l : list (K * V)) : option (list (K * V)) :=
  match l with
  | [] => None
  | item :: l' =>
      if decide (item.1 = key) then Some ((item.1, value) :: l')
      else cons item <$> assign key value l'
  end.

(** [Insert] *)
Definition Insert (fuel : nat) (t : ExtendibleHashTable) (key : K) (value : V)
  : outcome ExtendibleHashTable :=
  t' ← split_loop fuel t key;
  p ← dir_at t' (IndexOf t' key);
  bucket ← deref t' p;
  match assign key value (list_ bucket) with
  | Some l' => mret (set_heap t' (<[p := set_items bucket l']> (heap_ t')))
  | None =>
      mret (set_heap t' (<[p := (Bucket_Insert bucket key value).2]> (heap_ t')))
  end.

(** ** The [int] computations of [IndexOf] and [Insert]

    The program holds [global_depth_], the masks and the directory
    length [dir_num] in 32-bit [int]; the definitions above compute them
    in [Z].  The definitions below run the same statements with every
    [int] computation checked: a result that [int] cannot represent is
    a signed overflow, which is undefined behaviour. *)
Definition INT_MAX : Z := 2 ^ 31 - 1.

(** An [int] computation whose exact result is [z]. *)
Definition int_of (z : Z) : outcome Z :=
  if (- 2 ^ 31 <=? z) && (z <=? INT_MAX) then Done z else Undefined.

(** [1 << d] in [int]: the value [2^d] for [0 <= d < 31]; from 31 on no
    positive [int] is the result. *)
Definition shl1_int (d : Z) : outcome Z :=
  if (0 <=? d) && (d <? 31) then Done (Z.shiftl 1 d) else Undefined.

(** [IndexOf] with [int mask = (1 << global_depth_) - 1]. *)
Definition IndexOf_int (t : ExtendibleHashTable) (key : K) : outcome Z :=
  one ← shl1_int (global_depth_ t);
  mask ← int_of (one - 1);
  mret (Z.land (hash key) mask).

(** One iteration of the [while] loop with [global_depth_++],
    [int dir_num = dir_.size()], [dir_num * 2] and
    [int mask = 1 << bucket->GetDepth()]. *)
Definition split_int (t : ExtendibleHashTable) (key : K)
  : outcome ExtendibleHashTable :=
  index ← IndexOf_int t key;
  p ← dir_at t index;
  bucket ← deref t p;
  t1 ← (if GetDepth bucket =? global_depth_ t then
          int_of (global_depth_ t + 1);;
          dir_num ← int_of (Z.of_nat (length (dir_ t)));
          int_of (dir_num * 2);;
          mret (grow t)
        else mret t);
  shl1_int (GetDepth bucket);;
  mret (split_bucket t1 p bucket).

Fixpoint split_loop_int (fuel : nat) (t : ExtendibleHashTable) (key : K)
  : outcome ExtendibleHashTable :=
  index ← IndexOf_int t key;
  p ← dir_at t index;
  b ← deref t p;
  if IsFull b then
    match fuel with
    | O => OutOfFuel
    | S fuel' => t' ← split_int t key; split_loop_int fuel' t' key
    end
  else mret t.

Definition Insert_int (fuel : nat) (t : ExtendibleHashTable) (key : K) (value : V)
  : outcome ExtendibleHashTable :=
  t' ← split_loop_int fuel t key;
  index ← IndexOf_int t' key;
  p ← dir_at t' index;
  bucket ← deref t' p;
  match assign key value (list_ bucket) with
  | Some l' => mret (set_heap t' (<[p := set_items bucket l']> (heap_ t')))
  | None =>
      mret (set_heap t' (<[p := (Bucket_Insert bucket key value).2]> (heap_ t')))
  end.

(** States reachable from construction by calls that return. *)
Inductive reachable (bucket_size : Z) : ExtendibleHashTable → Prop :=
| reach_new : reachable bucket_size (new_table bucket_size)
| reach_Insert t fuel key value t' :
    reachable bucket_size t →
    Insert fuel t key value = Done t' →
    reachable bucket_size t'
| reach_Remove t key r t' :
    reachable bucket_size t →
    Remove t key = Done (r, t') →
    reachable bucket_size t'
| reach_Find t key r :
    reachable bucket_size t →
    Find t key = Done r →
    reachable bucket_size t.

(** A sequence of [Insert] calls, each with the same bound on its loop. *)
Fixpoint insert_all (fuel : nat) (t : ExtendibleHashTable) (items : list (K * V))
  : outcome ExtendibleHashTable :=
  match items with
  | [] => mret t
  | item :: items' =>
      t' ← Insert fuel t item.1 item.2;
      insert_all fuel t' items'
  end.

(** Two hash values or directory indices agree on their [d] low bits. *)
Definition agree_low (d : Z) (a b : Z) : Prop :=
  ∀ n, 0 ≤ n < d → Z.testbit a n = Z.testbit b n.

(** ** Representation invariant *)

(** Slot [i] of the directory holds the address [p] of a live bucket of
    the table's capacity, whose depth is within the global depth, whose
    sharers are the slots that agree with [i] on the low [depth] bits at
    most, and whose keys hash to those low bits. *)
Definition slot_ok (t : ExtendibleHashTable) (i p : nat) : Prop :=
  ∃ b, heap_ t !! p = Some b ∧
       size_ b = bucket_size_ t ∧
       0 ≤ depth_ b ≤ global_depth_ t ∧
       Z.of_nat (length (list_ b)) ≤ size_ b ∧
       (∀ j, dir_ t !! j = Some p → agree_low (depth_ b) (Z.of_nat i) (Z.of_nat j)) ∧
       (∀ item, item ∈ list_ b → agree_low (depth_ b) (hash item.1) (Z.of_nat i)).

Record table_ok (t : ExtendibleHashTable) : Prop := mkTableOk {
  ok_depth : 0 ≤ global_depth_ t;
  ok_dir_len : Z.of_nat (length (dir_ t)) = 2 ^ global_depth_ t;
  ok_slots : ∀ i p, dir_ t !! i = Some p → slot_ok t i p
}.

(** The items of the bucket the key is directed to. *)
Definition target_items (t : ExtendibleHashTable) (key : K) : list (K * V) :=
  match dir_ t !! Z.to_nat (IndexOf t key) with
  | Some p =>
      match heap_ t !! p with
      | Some b => list_ b
      | None => []
      end
  | None => []
  end.

(** The keys of the target bucket and the new key all have the same
    [n] low-order hash bits. *)
Definition all_agree (n : Z) (t : ExtendibleHashTable) (key : K) : Prop :=
  Forall (λ item, agree_low n (hash item.1) (hash key)) (target_items t key).

(** ** Further invariants *)

(** A directory bucket stores a key at most once. *)
Definition keys_unique (t : ExtendibleHashTable) : Prop :=
  ∀ i p b, dir_ t !! i = Some p → heap_ t !! p = Some b → NoDup (list_ b).*1.

(** Every slot that agrees with a slot of a bucket on the low [depth]
    bits holds that bucket too. *)
Definition sharing_complete (t : ExtendibleHashTable) : Prop :=
  ∀ i j p b, dir_ t !! i = Some p → heap_ t !! p = Some b →
             (j < length (dir_ t))%nat →
             agree_low (depth_ b) (Z.of_nat i) (Z.of_nat j) →
             dir_ t !! j = Some p.

(** The buckets the directory refers to. *)
Definition live_buckets (t : ExtendibleHashTable) : gset nat :=
  list_to_set (dir_ t).

Record table_wf (t : ExtendibleHashTable) : Prop := mkTableWf {
  wf_ok : table_ok t;
  wf_keys : keys_unique t;
  wf_sharing : sharing_complete t;
  wf_count : Z.of_nat (size (live_buckets t)) = num_buckets_ t
}.

End Table.

End HashTable.

(** * Properties of the LRU-K replacer *)

Import Replacer.

(** Runs the model on closed inputs, one equation at a time so that the
    states found by earlier equations are known to the later ones. *)
Ltac evaluate := vm_compute; reflexivity.

(** ** Counting evictable frames *)

Lemma count_evictable_delete (m : gmap Z Frame) (f : Z) :
  count_evictable (delete f m) =
  count_evictable m -
  match m !! f with
  | Some fr => if is_evictable_ fr then 1 else 0
  | None => 0
  end.
Proof.
  unfold count_evictable. rewrite map_filter_delete, map_size_delete.
  destruct (m !! f) as [fr|] eqn:Hf.
  - destruct (is_evictable_ fr) eqn:He.
    + assert (filter evictable_entry m !! f = Some fr) as ->
        by (apply map_lookup_filter_Some; split; [done | exact He]).
      assert (size (filter evictable_entry m) ≠ 0%nat)
        by (apply map_size_ne_0_lookup_2 with f; exists fr;
            apply map_lookup_filter_Some; split; [done | exact He]).
      lia.
    + assert (filter evictable_entry m !! f = None) as ->.
      { apply map_lookup_filter_None. right. intros x Hx.
        unfold evictable_entry. simpl. congruence. }
      simpl. lia.
  - assert (filter evictable_entry m !! f = None) as ->
      by (apply map_lookup_filter_None; by left).
    simpl. lia.
Qed.

Lemma count_evictable_insert (m : gmap Z Frame) (f : Z) (fr : Frame) :
  count_evictable (<[f := fr]> m) =
  count_evictable (delete f m) + (if is_evictable_ fr then 1 else 0).
Proof.
  rewrite <- (insert_delete_eq m f fr). unfold count_evictable.
  rewrite map_filter_insert. case_decide as He.
  - rewrite map_size_insert_None.
    + unfold evictable_entry in He. simpl in He. rewrite He. lia.
    + apply map_lookup_filter_None. left. apply lookup_delete_eq.
  - unfold evictable_entry in He. simpl in He.
    destruct (is_evictable_ fr); [done |].
    rewrite !delete_delete_eq. lia.
Qed.

Lemma count_evictable_bounds (m : gmap Z Frame) :
  0 ≤ count_evictable m ≤ Z.of_nat (size m).
Proof.
  unfold count_evictable. split; [lia |].
  apply inj_le, map_subseteq_size, map_filter_subseteq.
Qed.

Lemma count_evictable_pos (m : gmap Z Frame) (f : Z) (fr : Frame) :
  m !! f = Some fr → is_evictable_ fr = true → 1 ≤ count_evictable m.
Proof.
  intros Hf He. pose proof (count_evictable_delete m f) as Hd.
  rewrite Hf, He in Hd. pose proof (count_evictable_bounds (delete f m)). lia.
Qed.

(** ** Error behaviour *)

Lemma to_frame_id_small (z : Z) : 0 ≤ z < 2 ^ 31 → to_frame_id z = z.
Proof.
  intros Hz. unfold to_frame_id. rewrite Z.mod_small; lia.
Qed.

Lemma wrap64_small (z : Z) : 0 ≤ z < 2 ^ 64 → wrap64 z = z.
Proof. intros Hz. unfold wrap64. apply Z.mod_small. lia. Qed.

(** With [k >= 1] the iterator of [CalcKDistance] stays inside the
    history, whatever the history is. *)
Lemma CalcKDistance_defined (s : LRUKReplacer) (fr : Frame) :
  1 ≤ k_ s < 2 ^ 64 → is_Some (CalcKDistance s fr).
Proof.
  intros Hk. unfold CalcKDistance.
  destruct (Z.ltb_spec (Z.of_nat (length (history_ fr))) (k_ s)) as [Hlt|Hge];
    [by eexists |].
  rewrite wrap64_small by lia.
  destruct (lookup_lt_is_Some_2 (history_ fr) (Z.to_nat (k_ s - 1))) as [t Ht];
    [lia |].
  rewrite Ht. by eexists.
Qed.

Lemma RecordAccess_returns (s : LRUKReplacer) (f : Z) :
  1 ≤ k_ s < 2 ^ 64 → f < to_frame_id (replacer_size_ s) →
  ∃ s', RecordAccess s f = Ok s' ∧ is_Some (frames_ s' !! f).
Proof.
  intros Hk Hf. unfold RecordAccess.
  destruct (Z.leb_spec (to_frame_id (replacer_size_ s)) f) as [?|_]; [lia |].
  match goal with |- context [CalcKDistance s ?fr] =>
    destruct (CalcKDistance_defined s fr Hk) as [d ->] end.
  eexists. split; [reflexivity |]. simpl. rewrite lookup_insert_eq. by eexists.
Qed.


(** C10. On a replacer whose [replacer_size] fits [frame_id_t] (at
    most [2^31 - 1]), a negative [frame_id] passes the range check of
    [RecordAccess] and of [SetEvictable], which bounds the id from above
    only; [RecordAccess] then returns with a frame stored under the
    negative id, already on a freshly constructed replacer. *)
Theorem negative_frame_id_is_stored
    (s : LRUKReplacer) (f : Z) (b : bool) :
  0 ≤ replacer_size_ s < 2 ^ 31 → 1 ≤ k_ s < 2 ^ 64 → f < 0 →
  (∀ e s', RecordAccess s f ≠ Throw e s') ∧
  (∀ e s', SetEvictable s f b ≠ Throw e s') ∧
  (∃ s', RecordAccess s f = Ok s' ∧ is_Some (frames_ s' !! f)) ∧
  (∃ s', run (new_replacer (replacer_size_ s) (k_ s)) [OpRecordAccess f] = Some s'
         ∧ ∃ id, id < 0 ∧ is_Some (frames_ s' !! id)).
Proof.
  intros Hsize Hk Hneg. pose proof (to_frame_id_small _ Hsize) as Hcast.
  destruct (RecordAccess_returns s f Hk) as (s1 & Hs1 & Hin); [lia |].
  destruct (RecordAccess_returns (new_replacer (replacer_size_ s) (k_ s)) f)
    as (s2 & Hs2 & Hin2); [done | simpl; lia |].
  repeat split.
  - intros e s'. rewrite Hs1. discriminate.
  - intros e s'. unfold SetEvictable. rewrite Hcast.
    destruct (Z.leb_spec (replacer_size_ s) f); [lia |].
    destruct (frames_ s !! f) as [fr|]; [|discriminate].
    destruct (negb _); discriminate.
  - eauto.
  - exists s2. simpl. rewrite Hs2. simpl. eauto.
Qed.

(** ** The invariant is preserved *)

Lemma frame_ok_later (k now now' : Z) (fr : Frame) :
  now ≤ now' → frame_ok k now fr → frame_ok k now' fr.
Proof.
  intros Hle (Hne & Hlen & Hall & Hd). repeat split; try done.
  eapply Forall_impl; [exact Hall |]. simpl. intros t Ht. lia.
Qed.

(** [push_back] of the clock followed by the conditional [pop_front]. *)
Lemma push_history (k now : Z) (h : list Z) :
  1 ≤ k → Z.of_nat (length h) ≤ k → Forall (λ t, 0 ≤ t < now) h → 0 ≤ now →
  let pushed := h ++ [now] in
  let hist := if k <? Z.of_nat (length pushed) then tail pushed else pushed in
  hist ≠ [] ∧ Z.of_nat (length hist) ≤ k ∧
  Forall (λ t, 0 ≤ t < now + 1) hist ∧ last hist = Some now.
Proof.
  intros Hk Hlen Hall Hnow pushed hist.
  assert (Hpushed : Forall (λ t, 0 ≤ t < now + 1) pushed).
  { apply Forall_app. split.
    - eapply Forall_impl; [exact Hall |]. simpl. intros t Ht. lia.
    - apply Forall_singleton. lia. }
  subst hist.
  destruct (Z.ltb_spec k (Z.of_nat (length pushed))) as [Hpop|Hkeep].
  - subst pushed. rewrite length_app in Hpop. simpl in Hpop.
    destruct h as [|t0 h']; simpl in *; [lia |].
    repeat split.
    + by destruct h'.
    + rewrite length_app. simpl. lia.
    + by inversion Hpushed.
    + apply last_snoc.
  - subst pushed. repeat split; try done.
    + by destruct h.
    + apply last_snoc.
Qed.

Lemma CalcKDistance_after_push (s : LRUKReplacer) (hist : list Z) (d0 : Z) (e : bool) :
  1 ≤ k_ s < 2 ^ 64 → Z.of_nat (length hist) ≤ k_ s →
  last hist = Some (current_timestamp_ s) →
  CalcKDistance s (mkFrame hist d0 e) =
  Some (if Z.of_nat (length hist) <? k_ s then SIZE_MAX else 0).
Proof.
  intros Hk Hlen Hlast. unfold CalcKDistance. simpl.
  destruct (Z.ltb_spec (Z.of_nat (length hist)) (k_ s)) as [Hlt|Hge]; [done |].
  rewrite wrap64_small by lia.
  rewrite last_lookup in Hlast.
  replace (Z.to_nat (k_ s - 1)) with (pred (length hist)) by lia.
  rewrite Hlast. f_equal. rewrite Z.sub_diag. reflexivity.
Qed.

Lemma RecordAccess_state_ok (n : Z) (s s' : LRUKReplacer) (f : Z) :
  state_ok n s → n + 1 < 2 ^ 64 → RecordAccess s f = Ok s' →
  state_ok (n + 1) s'.
Proof.
  intros [Hk Hclock Hcard Hcount Hframes] Hn. unfold RecordAccess.
  destruct (to_frame_id (replacer_size_ s) <=? f); [discriminate |].
  set (fr0 := default default_frame (frames_ s !! f)).
  assert (Hfr0 : Z.of_nat (length (history_ fr0)) ≤ k_ s ∧
                 Forall (λ t, 0 ≤ t < current_timestamp_ s) (history_ fr0)).
  { subst fr0. destruct (frames_ s !! f) as [fr|] eqn:Hf; simpl.
    - apply Hframes in Hf as (_ & ? & ? & _). done.
    - split; [lia | constructor]. }
  destruct Hfr0 as [Hlen0 Hall0].
  destruct (push_history (k_ s) (current_timestamp_ s) (history_ fr0))
    as (Hne & Hlen & Hall & Hlast); [lia | done | done | lia |].
  set (hist := if k_ s <? Z.of_nat (length (history_ fr0 ++ [current_timestamp_ s]))
               then tail (history_ fr0 ++ [current_timestamp_ s])
               else history_ fr0 ++ [current_timestamp_ s]) in *.
  rewrite CalcKDistance_after_push by done.
  intros [= <-]. simpl. rewrite wrap64_small by lia.
  constructor; simpl.
  - done.
  - lia.
  - rewrite map_size_insert. destruct (frames_ s !! f); simpl; lia.
  - rewrite Hcount, count_evictable_insert, count_evictable_delete. simpl.
    subst fr0. destruct (frames_ s !! f) as [fr|]; simpl; lia.
  - apply map_Forall_insert_2.
    + repeat split; done.
    + intros i fr Hi. eapply frame_ok_later; [|by apply Hframes in Hi]. lia.
Qed.

Lemma SetEvictable_state_ok (n : Z) (s s' : LRUKReplacer) (f : Z) (b : bool) :
  state_ok n s → n < 2 ^ 64 → SetEvictable s f b = Ok s' → state_ok n s'.
Proof.
  intros Hok Hn. pose proof Hok as [Hk Hclock Hcard Hcount Hframes].
  unfold SetEvictable.
  destruct (to_frame_id (replacer_size_ s) <=? f); [discriminate |].
  destruct (frames_ s !! f) as [fr|] eqn:Hf; [|by intros [= <-]].
  destruct (eqb (is_evictable_ fr) b) eqn:Hflag; simpl; [by intros [= <-] |].
  intros [= <-].
  pose proof (count_evictable_bounds (delete f (frames_ s))) as Hb.
  pose proof (count_evictable_delete (frames_ s) f) as Hd.
  pose proof (map_size_delete f (frames_ s)) as Hsz.
  rewrite Hf in Hd, Hsz. simpl in Hsz.
  assert (size (frames_ s) ≠ 0%nat)
    by (apply map_size_ne_0_lookup_2 with f; by eexists).
  constructor; simpl.
  - done.
  - done.
  - rewrite map_size_insert, Hf. done.
  - rewrite count_evictable_insert. simpl. rewrite Hcount.
    destruct (is_evictable_ fr), b; try discriminate; rewrite wrap64_small; lia.
  - apply map_Forall_insert_2; [|done].
    apply Hframes in Hf as (? & ? & ? & ?). repeat split; done.
Qed.

Lemma Remove_state_ok (n : Z) (s s' : LRUKReplacer) (f : Z) :
  state_ok n s → n < 2 ^ 64 → Remove s f = Ok s' → state_ok n s'.
Proof.
  intros Hok Hn. pose proof Hok as [Hk Hclock Hcard Hcount Hframes].
  unfold Remove.
  destruct (frames_ s !! f) as [fr|] eqn:Hf; [|by intros [= <-]].
  destruct (is_evictable_ fr) eqn:He; simpl; [|discriminate].
  intros [= <-].
  pose proof (count_evictable_bounds (delete f (frames_ s))) as Hb.
  pose proof (count_evictable_delete (frames_ s) f) as Hd.
  pose proof (count_evictable_bounds (frames_ s)) as Hb'.
  rewrite Hf, He in Hd.
  constructor; simpl.
  - done.
  - done.
  - rewrite map_size_delete, Hf. lia.
  - rewrite Hcount, wrap64_small; lia.
  - by apply map_Forall_delete.
Qed.

(** ** The scan of [Evict] *)

Section Scan.
Variable now : Z.

Lemma scan_step_inv (l : list (Z * Frame)) (r : scan) (x : Z * Frame) :
  (is_evictable_ x.2 = true → scannable now x.2) →
  scan_inv now l r → scan_inv now (l ++ [x]) (scan_step r x).
Proof.
  destruct x as [f fr]. simpl. intros Hx Hinv. unfold scan_step.
  destruct (is_evictable_ fr) eqn:He; simpl.
  - destruct (Hx eq_refl) as (Hne & Hfront & Hkd).
    destruct (history_ fr) as [|t h] eqn:Hh; [done |].
    unfold front in Hfront. simpl in Hfront.
    assert (Hnew : (∀ p, p ∈ l → is_evictable_ p.2 = true → outranks fr p.2) →
              scan_inv now (l ++ [(f, fr)]) (mkScan f (k_distance_ fr) t)).
    { intros Hold. right. exists fr. simpl. rewrite Hh.
      repeat split; try done.
      - apply elem_of_app. right. by apply list_elem_of_singleton.
      - intros p [Hp| ->%list_elem_of_singleton]%elem_of_app Hpe.
        + by apply Hold.
        + right. simpl. lia. }
    destruct Hinv as [[-> Hnone] | (frv & Hin & Hev & Hmax & Hear & Hdom)].
    + simpl.
      replace ((0 <? k_distance_ fr) || ((k_distance_ fr =? 0) && (t <? now)))
        with true; [apply Hnew |].
      * intros p Hp Hpe. rewrite (Hnone p Hp) in Hpe. discriminate.
      * symmetry. apply orb_true_iff.
        rewrite andb_true_iff, Z.ltb_lt, Z.eqb_eq, Z.ltb_lt. lia.
    + destruct ((max_k_distance r <? k_distance_ fr)
                || ((k_distance_ fr =? max_k_distance r) && (t <? earliest_access r)))
        eqn:Htest.
      * apply Hnew. intros p Hp Hpe. specialize (Hdom p Hp Hpe).
        apply orb_true_iff in Htest.
        rewrite andb_true_iff, Z.ltb_lt, Z.eqb_eq, Z.ltb_lt in Htest.
        unfold outranks in *. rewrite Hh. unfold front at 1. simpl. lia.
      * right. exists frv. repeat split; try done.
        { apply elem_of_app. by left. }
        intros p [Hp| ->%list_elem_of_singleton]%elem_of_app Hpe; [by apply Hdom |].
        apply orb_false_iff in Htest.
        rewrite andb_false_iff, Z.ltb_ge, Z.eqb_neq, Z.ltb_ge in Htest.
        unfold outranks. simpl. rewrite Hh. unfold front at 2. simpl. lia.
  - destruct Hinv as [[-> Hnone] | (frv & Hin & Hev & Hmax & Hear & Hdom)].
    + left. split; [done |].
      intros p [Hp| ->%list_elem_of_singleton]%elem_of_app; [by apply Hnone | done].
    + right. exists frv. repeat split; try done.
      { apply elem_of_app. by left. }
      intros p [Hp| ->%list_elem_of_singleton]%elem_of_app Hpe; [by apply Hdom |].
      simpl in Hpe. congruence.
Qed.

Lemma scan_fold_inv (l : list (Z * Frame)) :
  (∀ p, p ∈ l → is_evictable_ p.2 = true → scannable now p.2) →
  scan_inv now l (fold_left scan_step l (mkScan (-1) 0 now)).
Proof.
  induction l as [|x l IH] using rev_ind; intros Hl.
  - left. split; [done |]. intros p Hp. by apply elem_of_nil in Hp.
  - rewrite fold_left_app. simpl. apply scan_step_inv.
    + apply Hl, elem_of_app. right. by apply list_elem_of_singleton.
    + apply IH. intros p Hp. apply Hl, elem_of_app. by left.
Qed.

(** The scan over the frames of a consistent state, in whatever order
    the frame table enumerates them: the locals are untouched and no
    frame is evictable, or the selected frame is stored, evictable and
    outranks every evictable frame. *)
Lemma scan_frames_spec (n : Z) (s : LRUKReplacer) (l : list (Z * Frame)) :
  state_ok n s → now = current_timestamp_ s →
  (∀ f fr, (f, fr) ∈ l ↔ frames_ s !! f = Some fr) →
  let r := scan_frames s l in
  (r = mkScan (-1) 0 now ∧ ∀ f fr, frames_ s !! f = Some fr → is_evictable_ fr = false) ∨
  (∃ fr, frames_ s !! victim_id r = Some fr ∧ is_evictable_ fr = true ∧
         ∀ f' fr', frames_ s !! f' = Some fr' → is_evictable_ fr' = true →
                   outranks fr fr').
Proof.
  intros [Hk Hclock Hcard Hcount Hframes] Hnow Hl r.
  destruct (scan_fold_inv l) as [[Hr Hnone] | (fr & Hin & Hev & _ & _ & Hdom)].
  - intros [f fr] Hin%Hl _. simpl.
    apply Hframes in Hin as (Hne & _ & Hall & Hd). repeat split.
    + done.
    + destruct (history_ fr) as [|t h]; [done |].
      apply Forall_cons in Hall as [Ht _]. unfold front. simpl. lia.
    + rewrite Hd. destruct (_ <? _); unfold SIZE_MAX; lia.
  - left. split.
    + subst r. unfold scan_frames. rewrite <- Hnow. exact Hr.
    + intros f fr Hf. by apply (Hnone (f, fr)), Hl.
  - right. subst r. unfold scan_frames. rewrite <- Hnow.
    exists fr. split; [by apply Hl | split; [done |]].
    intros f' fr' Hf' He'. by apply (Hdom (f', fr')); [apply Hl |].
Qed.
End Scan.

(** ** [Evict] on a consistent state *)

Lemma Evict_victim (n : Z) (s s' : LRUKReplacer) (v : Z) :
  state_ok n s → Evict s = (Some v, s') →
  ∃ fr, frames_ s !! v = Some fr ∧ is_evictable_ fr = true ∧
        frames_ s' = delete v (frames_ s) ∧
        curr_size_ s' = wrap64 (curr_size_ s - 1) ∧
        current_timestamp_ s' = current_timestamp_ s ∧
        k_ s' = k_ s ∧ replacer_size_ s' = replacer_size_ s ∧
        ∀ f' fr', frames_ s !! f' = Some fr' → is_evictable_ fr' = true →
                  outranks fr fr'.
Proof.
  intros Hok. unfold Evict.
  destruct (curr_size_ s =? 0); [discriminate |].
  destruct (scan_frames_spec (current_timestamp_ s) n s (map_to_list (frames_ s))
              Hok eq_refl (λ f fr, elem_of_map_to_list _ f fr))
    as [[Hr _] | (fr & Hfr & He & Hdom)].
  - rewrite Hr. simpl. discriminate.
  - destruct (victim_id _ =? -1); simpl; [discriminate |].
    intros [= <- <-]. exists fr. simpl. repeat split; done.
Qed.

Lemma Evict_state_ok (n : Z) (s : LRUKReplacer) :
  state_ok n s → n < 2 ^ 64 → state_ok n (Evict s).2.
Proof.
  intros Hok Hn. destruct (Evict s) as [[v|] s'] eqn:HE; simpl.
  - destruct (Evict_victim n s s' v Hok HE)
      as (fr & Hfr & He & Hfs & Hcs & Hts & Hk' & _ & _).
    pose proof Hok as [Hk Hclock Hcard Hcount Hframes].
    pose proof (count_evictable_bounds (delete v (frames_ s))) as Hb.
    pose proof (count_evictable_delete (frames_ s) v) as Hd.
    pose proof (count_evictable_bounds (frames_ s)) as Hb'.
    rewrite Hfr, He in Hd.
    constructor; rewrite ?Hfs, ?Hcs, ?Hts, ?Hk'.
    + done.
    + done.
    + rewrite map_size_delete, Hfr. lia.
    + rewrite Hcount, wrap64_small; lia.
    + by apply map_Forall_delete.
  - revert HE. unfold Evict.
    destruct (curr_size_ s =? 0); [by intros [= <-] |].
    destruct (victim_id _ =? -1); simpl; [by intros [= <-] | discriminate].
Qed.

Lemma new_replacer_ok (num_frames k : Z) :
  1 ≤ k < 2 ^ 64 → state_ok 0 (new_replacer num_frames k).
Proof.
  intros Hk. constructor; simpl; try done.
Qed.

Lemma state_ok_weaken (n n' : Z) (s : LRUKReplacer) :
  n ≤ n' → state_ok n s → state_ok n' s.
Proof. intros Hle [? ? ? ? ?]. constructor; try done. lia. Qed.

Lemma apply_op_state_ok (n : Z) (s s' : LRUKReplacer) (o : op) :
  state_ok n s → n + 1 < 2 ^ 64 → apply_op s o = Some s' → state_ok (n + 1) s'.
Proof.
  intros Hok Hn. destruct o as [f|f b|f|]; simpl.
  - destruct (RecordAccess s f) as [s1|e s1|] eqn:HR; simpl; intros [= <-].
    + by eapply RecordAccess_state_ok.
    + unfold RecordAccess in HR.
      destruct (_ <=? _); [|by destruct (CalcKDistance _ _)].
      injection HR as <- <-. eapply state_ok_weaken; [|done]. lia.
  - destruct (SetEvictable s f b) as [s1|e s1|] eqn:HR; simpl; intros [= <-].
    + eapply state_ok_weaken; [|eapply SetEvictable_state_ok; [done | lia | done]]. lia.
    + unfold SetEvictable in HR.
      destruct (_ <=? _).
      * injection HR as <- <-. eapply state_ok_weaken; [|done]. lia.
      * destruct (frames_ s !! f); [destruct (negb _)|]; discriminate.
  - destruct (Remove s f) as [s1|e s1|] eqn:HR; simpl; intros [= <-].
    + eapply state_ok_weaken; [|eapply Remove_state_ok; [done | lia | done]]. lia.
    + unfold Remove in HR.
      destruct (frames_ s !! f) as [fr|]; [|discriminate].
      destruct (negb _); [|discriminate].
      injection HR as <- <-. eapply state_ok_weaken; [|done]. lia.
  - intros [= <-]. eapply state_ok_weaken; [|apply Evict_state_ok; [done | lia]]. lia.
Qed.

Lemma run_state_ok (ops : list op) (n : Z) (s s' : LRUKReplacer) :
  state_ok n s → n + Z.of_nat (length ops) < 2 ^ 64 → run s ops = Some s' →
  state_ok (n + Z.of_nat (length ops)) s'.
Proof.
  revert n s. induction ops as [|o ops IH]; intros n s Hok Hn; simpl.
  - intros [= <-]. by rewrite Z.add_0_r.
  - destruct (apply_op s o) as [s1|] eqn:Ho; [|discriminate].
    intros Hrun. simpl length in Hn.
    replace (n + Z.of_nat (S (length ops))) with (n + 1 + Z.of_nat (length ops)) in * by lia.
    apply IH with s1; [|done | done].
    eapply apply_op_state_ok; [done | lia | done].
Qed.

(** No operation runs into undefined behaviour from a consistent
    state: every history of calls is executed to its end. *)
Lemma run_defined (ops : list op) (n : Z) (s : LRUKReplacer) :
  state_ok n s → n + Z.of_nat (length ops) < 2 ^ 64 → is_Some (run s ops).
Proof.
  revert n s. induction ops as [|o ops IH]; intros n s Hok Hn; simpl.
  - by eexists.
  - simpl length in Hn.
    assert (is_Some (apply_op s o)) as [s1 Hs1].
    { destruct o as [f|f b|f|]; simpl.
      - unfold RecordAccess. destruct (_ <=? _); [by eexists |].
        match goal with |- context [CalcKDistance s ?fr] =>
          destruct (CalcKDistance_defined s fr (ok_k _ _ Hok)) as [d ->] end.
        by eexists.
      - unfold SetEvictable. destruct (_ <=? _); [by eexists |].
        destruct (frames_ s !! f); [destruct (negb _)|]; by eexists.
      - unfold Remove. destruct (frames_ s !! f); [destruct (negb _)|]; by eexists.
      - by eexists. }
    rewrite Hs1. apply IH with (n + 1); [|lia].
    eapply apply_op_state_ok; [done | lia | done].
Qed.

Lemma reachable_state_ok (num_frames k : Z) (ops : list op) (s : LRUKReplacer) :
  1 ≤ k < 2 ^ 64 → Z.of_nat (length ops) < 2 ^ 64 →
  run (new_replacer num_frames k) ops = Some s →
  state_ok (Z.of_nat (length ops)) s.
Proof.
  intros Hk Hlen Hrun.
  apply (run_state_ok ops 0 (new_replacer num_frames k));
    [by apply new_replacer_ok | lia | done].
Qed.

(** ** Backward k-distance of a stored frame *)

(** The capped history keeps exactly the last [k] accesses, so the
    k-th most recent one is its front; the cached value only tells
    whether the frame has reached [k] accesses. *)
Lemma frame_distance (k now : Z) (fr : Frame) :
  1 ≤ k → frame_ok k now fr →
  (Z.of_nat (length (history_ fr)) < k ∧
   backward_k_distance k now (history_ fr) = Infinite ∧
   k_distance_ fr = SIZE_MAX) ∨
  (Z.of_nat (length (history_ fr)) = k ∧
   backward_k_distance k now (history_ fr) = Finite (now - front (history_ fr)) ∧
   k_distance_ fr = 0).
Proof.
  intros Hk (Hne & Hlen & _ & Hd). unfold backward_k_distance. rewrite Hd.
  destruct (Z.ltb_spec (Z.of_nat (length (history_ fr))) k) as [Hlt|Hge].
  - left. done.
  - right. split; [lia |]. split; [|done].
    replace (length (history_ fr) - Z.to_nat k)%nat with 0%nat by lia.
    destruct (history_ fr); done.
Qed.

Lemma outranks_distance (k now : Z) (fr fr' : Frame) :
  1 ≤ k → frame_ok k now fr → frame_ok k now fr' → outranks fr fr' →
  distance_le (backward_k_distance k now (history_ fr'))
              (backward_k_distance k now (history_ fr)) ∧
  (backward_k_distance k now (history_ fr') = backward_k_distance k now (history_ fr) →
   front (history_ fr) ≤ front (history_ fr')).
Proof.
  intros Hk Hfr Hfr' Hout.
  destruct (frame_distance k now fr Hk Hfr) as [(_ & -> & Hc) | (_ & -> & Hc)];
    destruct (frame_distance k now fr' Hk Hfr') as [(_ & -> & Hc') | (_ & -> & Hc')];
    unfold outranks in Hout; rewrite Hc, Hc' in Hout; unfold SIZE_MAX in Hout;
    simpl; split; try done; try lia.
Qed.

(** In every reachable state the cached distance of a stored frame is
    one of two values: [SIZE_MAX] below [k] accesses, and 0 from the
    k-th access on. *)
Lemma cached_distance_values
    (num_frames k : Z) (ops : list op) (s : LRUKReplacer) (f : Z) (fr : Frame) :
  1 ≤ k < 2 ^ 64 → Z.of_nat (length ops) < 2 ^ 64 →
  run (new_replacer num_frames k) ops = Some s →
  frames_ s !! f = Some fr →
  k_distance_ fr =
  (if Z.of_nat (length (history_ fr)) <? k_ s then SIZE_MAX else 0).
Proof.
  intros Hcfg Hlen Hrun Hf.
  pose proof (reachable_state_ok _ _ _ _ Hcfg Hlen Hrun) as Hok.
  by apply (ok_frames _ _ Hok) in Hf as (_ & _ & _ & ?).
Qed.

(** ** Specified behaviour of the replacer *)

(** C1. In every state reached from construction, a successful [Evict]
    returns a stored evictable frame whose backward k-distance at that
    moment is maximal among the evictable frames, a frame with fewer than
    [k] accesses counting as infinitely far; among the frames that tie
    with it, it has the smallest front of the history.  With [k = 2],
    accesses to 1, 2, 3, 4 and all four made evictable, four calls of
    [Evict] return 1, 2, 3, 4 in this order. *)
Theorem evict_returns_lru_k_victim
    (num_frames k : Z) (ops : list op) (s s' : LRUKReplacer) (v : Z) :
  1 ≤ k < 2 ^ 64 → Z.of_nat (length ops) < 2 ^ 64 →
  run (new_replacer num_frames k) ops = Some s →
  Evict s = (Some v, s') →
  (∃ fr, frames_ s !! v = Some fr ∧ is_evictable_ fr = true ∧
     ∀ f' fr', frames_ s !! f' = Some fr' → is_evictable_ fr' = true →
       distance_le
         (backward_k_distance (k_ s) (current_timestamp_ s) (history_ fr'))
         (backward_k_distance (k_ s) (current_timestamp_ s) (history_ fr)) ∧
       (backward_k_distance (k_ s) (current_timestamp_ s) (history_ fr') =
        backward_k_distance (k_ s) (current_timestamp_ s) (history_ fr) →
        front (history_ fr) ≤ front (history_ fr'))) ∧
  (∃ s0 s1 s2 s3 s4,
     run (new_replacer 7 2)
       [OpRecordAccess 1; OpRecordAccess 2; OpRecordAccess 3; OpRecordAccess 4;
        OpSetEvictable 1 true; OpSetEvictable 2 true;
        OpSetEvictable 3 true; OpSetEvictable 4 true] = Some s0 ∧
     Evict s0 = (Some 1, s1) ∧ Evict s1 = (Some 2, s2) ∧
     Evict s2 = (Some 3, s3) ∧ Evict s3 = (Some 4, s4)).
Proof.
  intros Hcfg Hlen Hrun HE. split.
  - pose proof (reachable_state_ok _ _ _ _ Hcfg Hlen Hrun) as Hok.
    destruct (Evict_victim _ _ _ _ Hok HE) as (fr & Hfr & He & _ & _ & _ & _ & _ & Hdom).
    exists fr. split; [done |]. split; [done |].
    intros f' fr' Hf' He'.
    apply outranks_distance.
    + apply (ok_k _ _ Hok).
    + by apply (ok_frames _ _ Hok) in Hfr.
    + by apply (ok_frames _ _ Hok) in Hf'.
    + by apply (Hdom f').
  - eexists _, _, _, _, _. do 4 (split; [evaluate |]). evaluate.
Qed.

Lemma evict_returns_lru_k_victim_witness :
  ∃ s s',
    run (new_replacer 7 2)
      [OpRecordAccess 1; OpRecordAccess 2; OpRecordAccess 3; OpRecordAccess 1;
       OpRecordAccess 2; OpSetEvictable 1 true; OpSetEvictable 2 true;
       OpSetEvictable 3 true; OpRemove 3] = Some s ∧
    Evict s = (Some 1, s') ∧
    ∃ fr, frames_ s !! 1 = Some fr ∧ is_evictable_ fr = true ∧
      ∀ f' fr', frames_ s !! f' = Some fr' → is_evictable_ fr' = true →
        distance_le
          (backward_k_distance (k_ s) (current_timestamp_ s) (history_ fr'))
          (backward_k_distance (k_ s) (current_timestamp_ s) (history_ fr)) ∧
        (backward_k_distance (k_ s) (current_timestamp_ s) (history_ fr') =
         backward_k_distance (k_ s) (current_timestamp_ s) (history_ fr) →
         front (history_ fr) ≤ front (history_ fr')).
Proof.
  eexists _, _.
  split; [vm_compute; reflexivity |].
  split; [vm_compute; reflexivity |].
  eapply (evict_returns_lru_k_victim 7 2
            [OpRecordAccess 1; OpRecordAccess 2; OpRecordAccess 3; OpRecordAccess 1;
             OpRecordAccess 2; OpSetEvictable 1 true; OpSetEvictable 2 true;
             OpSetEvictable 3 true; OpRemove 3]).
  - lia.
  - simpl. lia.
  - vm_compute. reflexivity.
  - vm_compute. reflexivity.
Defined.

(** C6. In every state reached from construction, [Size] is the number
    of stored frames whose [is_evictable_] flag is set; a call of
    [SetEvictable] changes the size only if it flips the flag of a stored
    frame, so the second of two calls [SetEvictable(f, true)] leaves the
    size as the first one left it. *)
Theorem size_counts_evictable_frames
    (num_frames k : Z) (ops : list op) (s : LRUKReplacer) :
  1 ≤ k < 2 ^ 64 → Z.of_nat (length ops) < 2 ^ 64 →
  run (new_replacer num_frames k) ops = Some s →
  Size s = count_evictable (frames_ s) ∧
  (∀ f b s1, SetEvictable s f b = Ok s1 → Size s1 ≠ Size s →
     ∃ fr, frames_ s !! f = Some fr ∧ is_evictable_ fr = negb b) ∧
  (∀ f s1 s2, SetEvictable s f true = Ok s1 → SetEvictable s1 f true = Ok s2 →
     s2 = s1 ∧ Size s2 = Size s1).
Proof.
  intros Hcfg Hlen Hrun.
  pose proof (reachable_state_ok _ _ _ _ Hcfg Hlen Hrun) as Hok.
  split; [apply (ok_count _ _ Hok) |]. split.
  - intros f b s1. unfold SetEvictable.
    destruct (_ <=? _); [discriminate |].
    destruct (frames_ s !! f) as [fr|]; [|by intros [= <-]].
    destruct (eqb (is_evictable_ fr) b) eqn:Hflag; simpl; [by intros [= <-] |].
    intros _ _. exists fr. split; [done |].
    by destruct (is_evictable_ fr), b.
  - intros f s1 s2 H1 H2.
    assert (s2 = s1) as ->; [|done].
    revert H1 H2. unfold SetEvictable.
    destruct (to_frame_id (replacer_size_ s) <=? f) eqn:Hrange; [discriminate |].
    destruct (frames_ s !! f) as [fr|] eqn:Hf.
    + destruct (is_evictable_ fr) eqn:He; simpl.
      * intros [= <-]. rewrite Hrange, Hf, He. simpl. by intros [= <-].
      * intros [= <-]. simpl. rewrite Hrange, lookup_insert_eq. simpl.
        by intros [= <-].
    + intros [= <-]. rewrite Hrange, Hf. by intros [= <-].
Qed.

Lemma size_counts_evictable_frames_witness :
  ∃ s,
    run (new_replacer 7 2)
      [OpRecordAccess 1; OpRecordAccess 2; OpRecordAccess 3;
       OpSetEvictable 1 true; OpSetEvictable 2 true; OpSetEvictable 2 true;
       OpSetEvictable 3 true; OpSetEvictable 3 false; OpEvict;
       OpRecordAccess 9; OpRemove 3] = Some s ∧
    Size s = 1 ∧
    Size s = count_evictable (frames_ s).
Proof.
  eexists. split; [vm_compute; reflexivity |]. split; [vm_compute; reflexivity |].
  eapply (size_counts_evictable_frames 7 2
            [OpRecordAccess 1; OpRecordAccess 2; OpRecordAccess 3;
             OpSetEvictable 1 true; OpSetEvictable 2 true; OpSetEvictable 2 true;
             OpSetEvictable 3 true; OpSetEvictable 3 false; OpEvict;
             OpRecordAccess 9; OpRemove 3]).
  - lia.
  - simpl. lia.
  - vm_compute. reflexivity.
Defined.

(** C8. [Evict] gives up although there is an evictable frame: the
    frame stored under id [-1] is the one the scan selects, and [-1] is
    also the value of [victim_id] that means that nothing was selected.
    After [RecordAccess(-1)] and [SetEvictable(-1, true)] the size is 1,
    [Evict] returns [false] and the frame stays stored. *)
Theorem evict_misses_frame_minus_one :
  ∃ s fr,
    run (new_replacer 7 2) [OpRecordAccess (-1); OpSetEvictable (-1) true] = Some s ∧
    Size s = 1 ∧
    frames_ s !! (-1) = Some fr ∧ is_evictable_ fr = true ∧
    victim_id (scan_frames s (map_to_list (frames_ s))) = -1 ∧
    Evict s = (None, s).
Proof.
  eexists _, _. do 5 (split; [evaluate |]). evaluate.
Qed.

(** C4. The distance cached by [RecordAccess] is not measured from the
    front of the history: with [k = 2], two accesses to frame 1 leave the
    history [0; 1], computed at clock 1, and the cached distance is
    [1 - 1 = 0], the clock minus the entry [k - 1] places after the
    front, where the k-th most recent access would give [1 - 0 = 1]. *)
Theorem cached_distance_uses_latest_access :
  ∃ s1 s2 fr,
    RecordAccess (new_replacer 7 2) 1 = Ok s1 ∧
    RecordAccess s1 1 = Ok s2 ∧
    current_timestamp_ s1 = 1 ∧
    frames_ s2 !! 1 = Some fr ∧
    history_ fr = [0; 1] ∧
    k_distance_ fr = 0 ∧
    current_timestamp_ s1 - front (history_ fr) = 1 ∧
    backward_k_distance 2 (current_timestamp_ s1) (history_ fr) = Finite 1.
Proof.
  eexists _, _, _. do 7 (split; [evaluate |]). evaluate.
Qed.

(** Apart from the frame id [-1], [Evict] fails only on size 0, and a
    successful call erases the victim and nothing else. *)
Lemma Evict_fails_iff (n : Z) (s : LRUKReplacer) :
  state_ok n s → frames_ s !! (-1) = None →
  ((Evict s).1 = None ↔ curr_size_ s = 0).
Proof.
  intros Hok Hminus. split.
  - unfold Evict. destruct (Z.eqb_spec (curr_size_ s) 0) as [|Hne]; [done |].
    destruct (scan_frames_spec (current_timestamp_ s) n s (map_to_list (frames_ s))
              Hok eq_refl (λ f fr, elem_of_map_to_list _ f fr))
      as [[_ Hnone] | (fr & Hfr & _)].
    + exfalso. apply Hne. rewrite (ok_count _ _ Hok). unfold count_evictable.
      replace (filter evictable_entry (frames_ s)) with (∅ : gmap Z Frame);
        [by rewrite map_size_empty |].
      symmetry. apply map_empty. intros f. apply map_lookup_filter_None.
      destruct (frames_ s !! f) as [fr|] eqn:Hf; [right | by left].
      intros x [= <-]. unfold evictable_entry. simpl.
      rewrite (Hnone f fr Hf). discriminate.
    + destruct (Z.eqb_spec (victim_id (scan_frames s (map_to_list (frames_ s)))) (-1))
        as [Heq|_]; [|done].
      rewrite Heq in Hfr. congruence.
  - intros Hz. unfold Evict. by rewrite Hz.
Qed.

Lemma Evict_erases_victim (n : Z) (s s' : LRUKReplacer) (v : Z) :
  state_ok n s → n < 2 ^ 64 → Evict s = (Some v, s') →
  frames_ s' = delete v (frames_ s) ∧ curr_size_ s' = curr_size_ s - 1.
Proof.
  intros Hok Hn HE.
  destruct (Evict_victim n s s' v Hok HE) as (fr & Hfr & He & Hfs & Hcs & _).
  split; [done |]. rewrite Hcs. apply wrap64_small.
  pose proof (count_evictable_pos _ _ _ Hfr He).
  pose proof (count_evictable_bounds (frames_ s)).
  destruct Hok as [? ? ? Hcount ?]. rewrite Hcount. lia.
Qed.

(** * Further properties of the replacer *)

(** ** What each operation changes *)

Lemma RecordAccess_Ok (s s' : LRUKReplacer) (f : Z) :
  RecordAccess s f = Ok s' →
  f < to_frame_id (replacer_size_ s) ∧
  ∃ fr', let fr := default default_frame (frames_ s !! f) in
         let pushed := history_ fr ++ [current_timestamp_ s] in
         history_ fr' =
           (if k_ s <? Z.of_nat (length pushed) then tail pushed else pushed) ∧
         is_evictable_ fr' = is_evictable_ fr ∧
         s' = mkReplacer (<[f := fr']> (frames_ s))
                (wrap64 (current_timestamp_ s + 1)) (curr_size_ s)
                (replacer_size_ s) (k_ s).
Proof.
  unfold RecordAccess.
  destruct (Z.leb_spec (to_frame_id (replacer_size_ s)) f) as [|Hlt]; [discriminate |].
  destruct (CalcKDistance _ _) as [d|]; [|discriminate].
  intros [= <-]. split; [done |]. eexists (mkFrame _ d _). simpl.
  split; [reflexivity |]. split; reflexivity.
Qed.

Lemma SetEvictable_Ok (s s' : LRUKReplacer) (f : Z) (b : bool) :
  SetEvictable s f b = Ok s' →
  s' = s ∨
  ∃ fr, frames_ s !! f = Some fr ∧ is_evictable_ fr = negb b ∧
        s' = mkReplacer (<[f := mkFrame (history_ fr) (k_distance_ fr) b]> (frames_ s))
               (current_timestamp_ s)
               (wrap64 (curr_size_ s + (if b then 1 else -1)))
               (replacer_size_ s) (k_ s).
Proof.
  unfold SetEvictable.
  destruct (_ <=? _); [discriminate |].
  destruct (frames_ s !! f) as [fr|]; [|intros [= <-]; by left].
  destruct (eqb (is_evictable_ fr) b) eqn:Hflag; simpl; [intros [= <-]; by left |].
  intros [= <-]. right. exists fr. split; [done |]. split; [|done].
  by destruct (is_evictable_ fr), b.
Qed.

Lemma Remove_Ok (s s' : LRUKReplacer) (f : Z) :
  Remove s f = Ok s' →
  (frames_ s !! f = None ∧ s' = s) ∨
  ∃ fr, frames_ s !! f = Some fr ∧ is_evictable_ fr = true ∧
        s' = mkReplacer (delete f (frames_ s)) (current_timestamp_ s)
               (wrap64 (curr_size_ s - 1)) (replacer_size_ s) (k_ s).
Proof.
  unfold Remove.
  destruct (frames_ s !! f) as [fr|]; [|intros [= <-]; by left].
  destruct (is_evictable_ fr) eqn:He; simpl; [|discriminate].
  intros [= <-]. right. by exists fr.
Qed.

Lemma Evict_cases (s : LRUKReplacer) :
  Evict s = (None, s) ∨
  ∃ v, v = victim_id (scan_frames s (map_to_list (frames_ s))) ∧
       Evict s =
       (Some v, mkReplacer (delete v (frames_ s)) (current_timestamp_ s)
                  (wrap64 (curr_size_ s - 1)) (replacer_size_ s) (k_ s)).
Proof.
  unfold Evict. destruct (curr_size_ s =? 0); [by left |].
  destruct (victim_id _ =? -1); simpl; [by left |]. right. by eexists.
Qed.

(** What a step of a history does to the frame table. *)
Lemma apply_op_frames (s s' : LRUKReplacer) (o : op) :
  apply_op s o = Some s' →
  replacer_size_ s' = replacer_size_ s ∧ k_ s' = k_ s ∧
  (frames_ s' = frames_ s ∨
   (∃ f, frames_ s' = delete f (frames_ s)) ∨
   (∃ f fr fr', frames_ s !! f = Some fr ∧ frames_ s' = <[f := fr']> (frames_ s) ∧
                history_ fr' = history_ fr) ∨
   (∃ f fr', o = OpRecordAccess f ∧ RecordAccess s f = Ok s' ∧
             frames_ s' = <[f := fr']> (frames_ s))).
Proof.
  destruct o as [f|f b|f|]; simpl.
  - destruct (RecordAccess s f) as [s1|e s1|] eqn:HR; simpl; intros [= <-].
    + pose proof HR as HR'. apply RecordAccess_Ok in HR as (_ & fr' & _ & _ & ->).
      simpl. split; [done |]. split; [done |]. right. right. right.
      by exists f, fr'.
    + unfold RecordAccess in HR. destruct (_ <=? _); [|by destruct (CalcKDistance _ _)].
      injection HR as <- <-. auto.
  - destruct (SetEvictable s f b) as [s1|e s1|] eqn:HR; simpl; intros [= <-].
    + apply SetEvictable_Ok in HR as [-> | (fr & Hfr & _ & ->)]; [auto |].
      simpl. split; [done |]. split; [done |]. right. right. left.
      by eexists f, fr, _.
    + unfold SetEvictable in HR. destruct (_ <=? _).
      * injection HR as <- <-. auto.
      * destruct (frames_ s !! f); [destruct (negb _)|]; discriminate.
  - destruct (Remove s f) as [s1|e s1|] eqn:HR; simpl; intros [= <-].
    + apply Remove_Ok in HR as [[_ ->] | (fr & _ & _ & ->)]; [auto |].
      simpl. split; [done |]. split; [done |]. right. left. by exists f.
    + unfold Remove in HR. destruct (frames_ s !! f) as [fr|]; [|discriminate].
      destruct (negb _); [|discriminate]. injection HR as <- <-. auto.
  - intros [= <-]. destruct (Evict_cases s) as [-> | (v & _ & ->)]; simpl; [auto |].
    split; [done |]. split; [done |]. right. left. by exists v.
Qed.

(** ** Stored frame ids *)

Lemma apply_op_ids_ok (s s' : LRUKReplacer) (o : op) :
  ids_ok s → apply_op s o = Some s' → ids_ok s'.
Proof.
  intros Hids Ho.
  destruct (apply_op_frames _ _ _ Ho)
    as (Hrs & _ & [Hfr | [[f Hfr] | [(f & fr & fr' & Hf & Hfr & _) | (f & fr' & _ & HR & Hfr)]]]);
    intros g; rewrite Hrs, Hfr.
  - apply Hids.
  - destruct (decide (g = f)) as [->|Hne].
    + rewrite lookup_delete_eq. by intros [? ?].
    + rewrite lookup_delete_ne by done. apply Hids.
  - destruct (decide (g = f)) as [->|Hne].
    + intros _. apply Hids. by eexists.
    + rewrite lookup_insert_ne by done. apply Hids.
  - destruct (decide (g = f)) as [->|Hne].
    + intros _. by apply RecordAccess_Ok in HR as [? _].
    + rewrite lookup_insert_ne by done. apply Hids.
Qed.

Lemma run_ids_ok (ops : list op) (s s' : LRUKReplacer) :
  ids_ok s → run s ops = Some s' → ids_ok s'.
Proof.
  revert s. induction ops as [|o ops IH]; intros s Hids; simpl.
  - by intros [= <-].
  - destruct (apply_op s o) as [s1|] eqn:Ho; [|discriminate].
    apply IH. by eapply apply_op_ids_ok.
Qed.

Lemma run_config (ops : list op) (s s' : LRUKReplacer) :
  run s ops = Some s' → replacer_size_ s' = replacer_size_ s ∧ k_ s' = k_ s.
Proof.
  revert s. induction ops as [|o ops IH]; intros s; simpl.
  - by intros [= <-].
  - destruct (apply_op s o) as [s1|] eqn:Ho; [|discriminate].
    intros Hrun. apply IH in Hrun as [-> ->].
    by destruct (apply_op_frames _ _ _ Ho) as (? & ? & _).
Qed.

(** X11. Every frame id stored after any history of calls is below
    [replacer_size]: the range check of [RecordAccess] is the only way
    into the frame table. *)
Theorem stored_ids_below_replacer_size
    (num_frames k : Z) (ops : list op) (s : LRUKReplacer) (f : Z) :
  0 ≤ num_frames < 2 ^ 31 →
  run (new_replacer num_frames k) ops = Some s →
  is_Some (frames_ s !! f) → f < num_frames.
Proof.
  intros Hsize Hrun Hf.
  assert (Hids : ids_ok s).
  { apply (run_ids_ok ops (new_replacer num_frames k)); [|done].
    intros g [fr Hg]. simpl in Hg. by rewrite lookup_empty in Hg. }
  apply Hids in Hf. destruct (run_config _ _ _ Hrun) as [Hrs _].
  rewrite Hrs in Hf. simpl in Hf. by rewrite to_frame_id_small in Hf.
Qed.

(** ** Histories *)

Lemma StronglySorted_tail (l : list Z) :
  StronglySorted Z.lt l → StronglySorted Z.lt (tail l).
Proof. destruct l as [|x l]; [done |]. by intros [_ ?]%StronglySorted_cons. Qed.

Lemma elem_of_tail (l : list Z) (t : Z) : t ∈ tail l → t ∈ l.
Proof. destruct l as [|x l]; [done |]. simpl. by apply list_elem_of_further. Qed.

Lemma apply_op_histories_ok (n : Z) (s s' : LRUKReplacer) (o : op) :
  state_ok n s → histories_ok s → apply_op s o = Some s' → histories_ok s'.
Proof.
  intros Hok [Hsorted Hdisj] Ho.
  destruct (apply_op_frames _ _ _ Ho)
    as (_ & _ & [Hfr | [[f Hfr] | [(f & fr & fr' & Hf & Hfr & Hh) | (f & fr' & _ & HR & Hfr)]]]);
    unfold histories_ok; rewrite Hfr.
  - done.
  - split.
    + intros g gr Hg. apply lookup_delete_Some in Hg as [_ Hg]. by eapply Hsorted.
    + intros g g' gr gr' t Hg Hg'.
      apply lookup_delete_Some in Hg as [_ Hg].
      apply lookup_delete_Some in Hg' as [_ Hg']. by eapply Hdisj.
  - assert (Hsame : ∀ g gr, <[f := fr']> (frames_ s) !! g = Some gr →
              ∃ gr0, frames_ s !! g = Some gr0 ∧ history_ gr = history_ gr0).
    { intros g gr. destruct (decide (g = f)) as [->|Hne].
      - rewrite lookup_insert_eq. intros [= <-]. eauto.
      - rewrite lookup_insert_ne by done. eauto. }
    split.
    + intros g gr (gr0 & Hg & ->)%Hsame. by eapply Hsorted.
    + intros g g' gr gr' t (gr0 & Hg & ->)%Hsame (gr0' & Hg' & ->)%Hsame.
      by eapply Hdisj.
  - apply RecordAccess_Ok in HR as (_ & fr1 & Hh & _ & Hs').
    assert (fr1 = fr') as ->.
    { rewrite Hs' in Hfr. simpl in Hfr.
      assert (Hl : <[f := fr1]> (frames_ s) !! f = <[f := fr']> (frames_ s) !! f)
        by (by rewrite Hfr).
      rewrite !lookup_insert_eq in Hl. congruence. }
    clear Hs' Hfr. simpl in Hh.
    set (fr0 := default default_frame (frames_ s !! f)) in *.
    assert (Hfr0 : StronglySorted Z.lt (history_ fr0) ∧
                   Forall (λ t, 0 ≤ t < current_timestamp_ s) (history_ fr0) ∧
                   ∀ g gr t, frames_ s !! g = Some gr → t ∈ history_ fr0 →
                             t ∈ history_ gr → g = f).
    { subst fr0. destruct (frames_ s !! f) as [fr|] eqn:Hf; simpl.
      - split; [by eapply Hsorted |]. split.
        + by apply (ok_frames _ _ Hok) in Hf as (_ & _ & ? & _).
        + intros g gr t Hg Ht Ht'. by apply (Hdisj g f gr fr t).
      - split; [constructor |]. split; [constructor |].
        intros g gr t _ Ht. by apply elem_of_nil in Ht. }
    destruct Hfr0 as (Hs0 & Hall0 & Hd0).
    assert (Hpushed : StronglySorted Z.lt (history_ fr0 ++ [current_timestamp_ s])).
    { apply StronglySorted_app_2; [| done | repeat constructor].
      intros t1 t2 Ht1 ->%list_elem_of_singleton.
      rewrite Forall_forall in Hall0. apply Hall0 in Ht1. lia. }
    assert (Hnew : StronglySorted Z.lt (history_ fr') ∧
                   ∀ t, t ∈ history_ fr' →
                        t ∈ history_ fr0 ∨ t = current_timestamp_ s).
    { rewrite Hh. destruct (_ <? _).
      - split; [by apply StronglySorted_tail |].
        intros t Ht%elem_of_tail. apply elem_of_app in Ht as [?|?%list_elem_of_singleton]; auto.
      - split; [done |].
        intros t Ht. apply elem_of_app in Ht as [?|?%list_elem_of_singleton]; auto. }
    destruct Hnew as [Hs' Hin'].
    assert (Hfresh : ∀ g gr, frames_ s !! g = Some gr →
              current_timestamp_ s ∉ history_ gr).
    { intros g gr Hg Hin. apply (ok_frames _ _ Hok) in Hg as (_ & _ & Hall & _).
      rewrite Forall_forall in Hall. apply Hall in Hin. lia. }
    split.
    + intros g gr. destruct (decide (g = f)) as [->|Hne].
      * rewrite lookup_insert_eq. by intros [= <-].
      * rewrite lookup_insert_ne by done. by apply Hsorted.
    + intros g g' gr gr' t.
      destruct (decide (g = f)) as [->|Hne]; destruct (decide (g' = f)) as [->|Hne'];
        rewrite ?lookup_insert_eq, ?lookup_insert_ne by done; try done.
      * intros [= <-] Hg' [Ht| ->]%Hin' Ht'.
        -- symmetry. by apply (Hd0 g' gr' t).
        -- by destruct (Hfresh g' gr' Hg').
      * intros Hg [= <-] Ht [Ht'| ->]%Hin'.
        -- by apply (Hd0 g gr t).
        -- by destruct (Hfresh g gr Hg).
      * apply Hdisj.
Qed.

Lemma run_histories_ok (ops : list op) (n : Z) (s s' : LRUKReplacer) :
  state_ok n s → histories_ok s → n + Z.of_nat (length ops) < 2 ^ 64 →
  run s ops = Some s' → histories_ok s'.
Proof.
  revert n s. induction ops as [|o ops IH]; intros n s Hok Hh Hn; simpl.
  - by intros [= <-].
  - destruct (apply_op s o) as [s1|] eqn:Ho; [|discriminate].
    simpl length in Hn. apply (IH (n + 1)); [| | lia].
    + eapply apply_op_state_ok; [done | lia | done].
    + by eapply apply_op_histories_ok.
Qed.

(** X12. After any history of fewer than [2^64] calls, the history of
    every stored frame is non-empty, has at most [k] entries, is strictly
    increasing and lies below the clock, and no timestamp occurs in the
    histories of two frames. *)
Theorem histories_are_increasing_and_disjoint
    (num_frames k : Z) (ops : list op) (s : LRUKReplacer) :
  1 ≤ k < 2 ^ 64 → Z.of_nat (length ops) < 2 ^ 64 →
  run (new_replacer num_frames k) ops = Some s →
  (∀ f fr, frames_ s !! f = Some fr →
     history_ fr ≠ [] ∧ Z.of_nat (length (history_ fr)) ≤ k ∧
     StronglySorted Z.lt (history_ fr) ∧
     Forall (λ t, 0 ≤ t < current_timestamp_ s) (history_ fr)) ∧
  (∀ f f' fr fr' t,
     frames_ s !! f = Some fr → frames_ s !! f' = Some fr' →
     t ∈ history_ fr → t ∈ history_ fr' → f = f').
Proof.
  intros Hk Hlen Hrun.
  pose proof (reachable_state_ok _ _ _ _ Hk Hlen Hrun) as Hok.
  destruct (run_config _ _ _ Hrun) as [_ Hk'].
  destruct (run_histories_ok ops 0 (new_replacer num_frames k) s) as [Hsorted Hdisj];
    [by apply new_replacer_ok | | lia | done |].
  { split.
    - intros f fr Hf. simpl in Hf. by rewrite lookup_empty in Hf.
    - intros f f' fr fr' t Hf. simpl in Hf. by rewrite lookup_empty in Hf. }
  split; [|done]. intros f fr Hf.
  pose proof (ok_frames _ _ Hok _ _ Hf) as (Hne & Hcap & Hall & _).
  rewrite Hk' in Hcap. simpl in Hcap. repeat split; try done. by eapply Hsorted.
Qed.

(** ** Eviction and removal *)

(** X13. In every reachable state, a successful [Evict] leaves the
    replacer in exactly the state that [Remove] of the returned frame
    would leave it in. *)
Theorem evict_is_remove_of_victim
    (num_frames k : Z) (ops : list op) (s s' : LRUKReplacer) (v : Z) :
  1 ≤ k < 2 ^ 64 → Z.of_nat (length ops) < 2 ^ 64 →
  run (new_replacer num_frames k) ops = Some s →
  Evict s = (Some v, s') → Remove s v = Ok s'.
Proof.
  intros Hk Hlen Hrun HE.
  pose proof (reachable_state_ok _ _ _ _ Hk Hlen Hrun) as Hok.
  destruct (Evict_victim _ _ _ _ Hok HE) as (fr & Hfr & He & _).
  destruct (Evict_cases s) as [HN | (v0 & _ & HS)]; rewrite HE in *.
  - discriminate.
  - injection HS as <- ->. unfold Remove. by rewrite Hfr, He.
Qed.

(** X14. In every reachable state that stores no frame under id [-1],
    [Evict] fails exactly when [Size] is 0 and then changes nothing; when
    it succeeds it erases the returned frame and no other, lowers [Size]
    by one and leaves the clock alone. *)
Theorem evict_fails_only_when_empty
    (num_frames k : Z) (ops : list op) (s : LRUKReplacer) :
  1 ≤ k < 2 ^ 64 → Z.of_nat (length ops) < 2 ^ 64 →
  run (new_replacer num_frames k) ops = Some s →
  frames_ s !! (-1) = None →
  ((Evict s).1 = None ↔ Size s = 0) ∧
  ((Evict s).1 = None → (Evict s).2 = s) ∧
  (∀ v s', Evict s = (Some v, s') →
     frames_ s' = delete v (frames_ s) ∧ Size s' = Size s - 1 ∧
     current_timestamp_ s' = current_timestamp_ s).
Proof.
  intros Hk Hlen Hrun Hminus.
  pose proof (reachable_state_ok _ _ _ _ Hk Hlen Hrun) as Hok.
  split; [by eapply Evict_fails_iff |]. split.
  - destruct (Evict_cases s) as [-> | (v & _ & ->)]; [done | discriminate].
  - intros v s' HE.
    destruct (Evict_erases_victim _ _ _ _ Hok Hlen HE) as [Hfr Hsz].
    destruct (Evict_victim _ _ _ _ Hok HE) as (_ & _ & _ & _ & _ & Hts & _).
    done.
Qed.

(** X15. In every reachable state, [Evict] leaves the record of every
    frame that is not evictable in the frame table, unchanged. *)
Theorem evict_spares_pinned_frames
    (num_frames k : Z) (ops : list op) (s : LRUKReplacer) (f : Z) (fr : Frame) :
  1 ≤ k < 2 ^ 64 → Z.of_nat (length ops) < 2 ^ 64 →
  run (new_replacer num_frames k) ops = Some s →
  frames_ s !! f = Some fr → is_evictable_ fr = false →
  frames_ (Evict s).2 !! f = Some fr.
Proof.
  intros Hk Hlen Hrun Hf Hpinned.
  pose proof (reachable_state_ok _ _ _ _ Hk Hlen Hrun) as Hok.
  destruct (Evict s) as [[v|] s'] eqn:HE; simpl.
  - destruct (Evict_victim _ _ _ _ Hok HE) as (frv & Hv & He & -> & _).
    rewrite lookup_delete_ne; [done |]. intros ->. congruence.
  - destruct (Evict_cases s) as [HN | (v & _ & HS)]; rewrite HE in *.
    + by injection HN as <-.
    + discriminate.
Qed.

(** ** Pinning and unpinning *)

(** X16. In every reachable state, flipping the flag of a stored frame
    with [SetEvictable] and flipping it back restores the state the
    replacer was in, [Size] included. *)
Theorem set_evictable_round_trip
    (num_frames k : Z) (ops : list op) (s s1 : LRUKReplacer) (f : Z) (fr : Frame) :
  1 ≤ k < 2 ^ 64 → Z.of_nat (length ops) < 2 ^ 64 →
  run (new_replacer num_frames k) ops = Some s →
  frames_ s !! f = Some fr →
  SetEvictable s f (negb (is_evictable_ fr)) = Ok s1 →
  Size s1 = Size s + (if is_evictable_ fr then -1 else 1) ∧
  SetEvictable s1 f (is_evictable_ fr) = Ok s.
Proof.
  intros Hk Hlen Hrun Hf HS.
  pose proof (reachable_state_ok _ _ _ _ Hk Hlen Hrun) as Hok.
  pose proof Hok as [_ Hclock Hcard Hcount _].
  pose proof (count_evictable_bounds (frames_ s)) as Hb.
  assert (Hpos : is_evictable_ fr = true → 1 ≤ curr_size_ s).
  { intros He. rewrite Hcount. by eapply count_evictable_pos. }
  assert (Hroom : is_evictable_ fr = false →
            curr_size_ s + 1 ≤ Z.of_nat (size (frames_ s))).
  { intros He. rewrite Hcount.
    pose proof (count_evictable_delete (frames_ s) f) as Hdel.
    pose proof (count_evictable_bounds (delete f (frames_ s))) as Hb'.
    pose proof (map_size_delete f (frames_ s)) as Hsz.
    rewrite Hf in Hdel, Hsz. rewrite He in Hdel. simpl in Hsz.
    assert (size (frames_ s) ≠ 0%nat)
      by (apply map_size_ne_0_lookup_2 with f; by eexists).
    lia. }
  revert HS. unfold SetEvictable.
  destruct (to_frame_id (replacer_size_ s) <=? f) eqn:Hrange; [discriminate |].
  rewrite Hf. destruct s as [frames ts size rs kk]. simpl in *.
  destruct fr as [h d e]. simpl in *.
  destruct e; simpl; intros [= <-]; simpl; rewrite Hrange, lookup_insert_eq; simpl.
  - split; [rewrite wrap64_small; lia |]. f_equal. unfold set_curr_size, set_frames. simpl.
    rewrite insert_insert_eq, insert_id by done. f_equal.
    rewrite (wrap64_small (size + -1)) by lia. rewrite wrap64_small; lia.
  - split; [rewrite wrap64_small; lia |]. f_equal. unfold set_curr_size, set_frames. simpl.
    rewrite insert_insert_eq, insert_id by done. f_equal.
    rewrite (wrap64_small (size + 1)) by lia. rewrite wrap64_small; lia.
Qed.

(** ** Plain LRU *)

(** X17. With [k = 1] every stored frame keeps exactly its latest
    access, and a successful [Evict] returns the evictable frame whose
    latest access is the oldest. *)
Theorem k_one_evicts_least_recently_used
    (num_frames : Z) (ops : list op) (s s' : LRUKReplacer) (v : Z) :
  Z.of_nat (length ops) < 2 ^ 64 →
  run (new_replacer num_frames 1) ops = Some s →
  Evict s = (Some v, s') →
  ∃ fr t, frames_ s !! v = Some fr ∧ is_evictable_ fr = true ∧ history_ fr = [t] ∧
    ∀ f' fr', frames_ s !! f' = Some fr' → is_evictable_ fr' = true →
              ∃ t', history_ fr' = [t'] ∧ t ≤ t'.
Proof.
  intros Hlen Hrun HE.
  assert (Hk : 1 ≤ 1 < 2 ^ 64) by lia.
  pose proof (reachable_state_ok _ _ _ _ Hk Hlen Hrun) as Hok.
  destruct (run_config _ _ _ Hrun) as [_ Hk']. simpl in Hk'.
  assert (Hone : ∀ g gr, frames_ s !! g = Some gr →
            ∃ t, history_ gr = [t] ∧ k_distance_ gr = 0).
  { intros g gr Hg. apply (ok_frames _ _ Hok) in Hg as (Hne & Hcap & _ & Hd).
    rewrite Hk' in Hcap, Hd. destruct (history_ gr) as [|t [|t' h]]; simpl in *;
      [done | by exists t | lia]. }
  destruct (Evict_victim _ _ _ _ Hok HE) as (fr & Hfr & He & _ & _ & _ & _ & _ & Hdom).
  destruct (Hone _ _ Hfr) as (t & Ht & Hd).
  exists fr, t. repeat split; try done.
  intros f' fr' Hf' He'. destruct (Hone _ _ Hf') as (t' & Ht' & Hd').
  exists t'. split; [done |].
  specialize (Hdom f' fr' Hf' He'). unfold outranks in Hdom.
  rewrite Hd, Hd', Ht, Ht' in Hdom. unfold front in Hdom. simpl in Hdom. lia.
Qed.

(** ** Removal and a later access *)

(** X18. [Remove] of a stored frame forgets it: the frame is no longer
    stored, and the next [RecordAccess] to it starts over with a history
    of that one access and the flag cleared. *)
Theorem remove_forgets_history
    (s s1 s2 : LRUKReplacer) (f : Z) (fr : Frame) :
  1 ≤ k_ s < 2 ^ 64 → frames_ s !! f = Some fr →
  Remove s f = Ok s1 → RecordAccess s1 f = Ok s2 →
  frames_ s1 !! f = None ∧
  frames_ s2 !! f =
    Some (mkFrame [current_timestamp_ s] (if 1 <? k_ s then SIZE_MAX else 0) false).
Proof.
  intros Hk Hf HR HA.
  apply Remove_Ok in HR as [[Hnone _] | (fr0 & _ & _ & ->)]; [congruence |].
  simpl. rewrite lookup_delete_eq. split; [done |].
  revert HA. unfold RecordAccess. simpl.
  destruct (_ <=? _); [discriminate |].
  rewrite lookup_delete_eq. simpl. change (Z.of_nat 1) with 1.
  destruct (Z.ltb_spec (k_ s) 1) as [|_]; [lia |].
  unfold CalcKDistance. simpl. change (Z.of_nat 1) with 1.
  destruct (Z.ltb_spec 1 (k_ s)) as [Hgt|Hle].
  - intros [= <-]. simpl. by rewrite lookup_insert_eq.
  - replace (k_ s) with 1 by lia. simpl.
    intros [= <-]. simpl. rewrite lookup_insert_eq. do 2 f_equal.
    rewrite Z.sub_diag. reflexivity.
Qed.

(** ** The clock *)

Lemma apply_op_clock (n : Z) (s s' : LRUKReplacer) (o : op) :
  state_ok n s → n + 1 < 2 ^ 64 → apply_op s o = Some s' →
  current_timestamp_ s' =
  current_timestamp_ s + accepted_accesses (to_frame_id (replacer_size_ s)) [o].
Proof.
  intros Hok Hn. destruct o as [f|f b|f|]; simpl.
  - destruct (RecordAccess s f) as [s1|e s1|] eqn:HR; simpl; intros [= <-].
    + apply RecordAccess_Ok in HR as (Hlt & fr' & _ & _ & ->). simpl.
      destruct (Z.ltb_spec f (to_frame_id (replacer_size_ s))); [|lia].
      pose proof (ok_clock _ _ Hok). rewrite wrap64_small; lia.
    + unfold RecordAccess in HR.
      destruct (Z.leb_spec (to_frame_id (replacer_size_ s)) f);
        [|by destruct (CalcKDistance _ _)].
      injection HR as <- <-.
      destruct (Z.ltb_spec f (to_frame_id (replacer_size_ s))); lia.
  - destruct (SetEvictable s f b) as [s1|e s1|] eqn:HR; simpl; intros [= <-].
    + apply SetEvictable_Ok in HR as [-> | (fr & _ & _ & ->)]; simpl; lia.
    + unfold SetEvictable in HR. destruct (_ <=? _).
      * injection HR as <- <-. lia.
      * destruct (frames_ s !! f); [destruct (negb _)|]; discriminate.
  - destruct (Remove s f) as [s1|e s1|] eqn:HR; simpl; intros [= <-].
    + apply Remove_Ok in HR as [[_ ->] | (fr & _ & _ & ->)]; simpl; lia.
    + unfold Remove in HR. destruct (frames_ s !! f) as [fr|]; [|discriminate].
      destruct (negb _); [|discriminate]. injection HR as <- <-. lia.
  - intros [= <-]. destruct (Evict_cases s) as [-> | (v & _ & ->)]; simpl; lia.
Qed.

Lemma run_clock (ops : list op) (n : Z) (s s' : LRUKReplacer) :
  state_ok n s → n + Z.of_nat (length ops) < 2 ^ 64 → run s ops = Some s' →
  current_timestamp_ s' =
  current_timestamp_ s + accepted_accesses (to_frame_id (replacer_size_ s)) ops.
Proof.
  revert n s. induction ops as [|o ops IH]; intros n s Hok Hn; simpl run.
  - intros [= <-]. simpl. lia.
  - destruct (apply_op s o) as [s1|] eqn:Ho; [|discriminate].
    simpl length in Hn. intros Hrun.
    rewrite (IH (n + 1) s1); [| eapply apply_op_state_ok; [done | lia | done] | lia | done].
    rewrite (apply_op_clock n s s1 o) by (done || lia).
    destruct (apply_op_frames _ _ _ Ho) as (-> & _).
    destruct o; simpl; lia.
Qed.

(** X19. After any history of fewer than [2^64] calls the clock equals
    the number of [RecordAccess] calls in it that passed the range check:
    each of them advances the clock by one, and nothing else moves it. *)
Theorem clock_counts_accepted_accesses
    (num_frames k : Z) (ops : list op) (s : LRUKReplacer) :
  1 ≤ k < 2 ^ 64 → Z.of_nat (length ops) < 2 ^ 64 →
  run (new_replacer num_frames k) ops = Some s →
  current_timestamp_ s = accepted_accesses (to_frame_id num_frames) ops.
Proof.
  intros Hk Hlen Hrun.
  rewrite (run_clock ops 0 (new_replacer num_frames k) s);
    [done | by apply new_replacer_ok | lia | done].
Qed.

(** ** Closed instances of the further properties of the replacer *)

Lemma stored_ids_below_replacer_size_witness :
  ∃ s,
    run (new_replacer 7 2)
      [OpRecordAccess 3; OpRecordAccess 9; OpRecordAccess (-1)] = Some s ∧
    is_Some (frames_ s !! 3) ∧ frames_ s !! 9 = None ∧ 3 < 7.
Proof.
  eexists. split; [evaluate |].
  assert (Hin : is_Some
            (frames_ (mkReplacer (<[-1 := mkFrame [1] SIZE_MAX false]>
                         (<[3 := mkFrame [0] SIZE_MAX false]> ∅)) 2 0 7 2) !! 3))
    by (eexists; evaluate).
  split; [eexists; evaluate |]. split; [evaluate |].
  apply (stored_ids_below_replacer_size 7 2
           [OpRecordAccess 3; OpRecordAccess 9; OpRecordAccess (-1)]
           (mkReplacer (<[-1 := mkFrame [1] SIZE_MAX false]>
                          (<[3 := mkFrame [0] SIZE_MAX false]> ∅)) 2 0 7 2) 3);
    [lia | evaluate | exact Hin].
Defined.

Lemma histories_are_increasing_and_disjoint_witness :
  ∃ s,
    run (new_replacer 7 2)
      [OpRecordAccess 1; OpRecordAccess 2; OpRecordAccess 1; OpRecordAccess 1;
       OpSetEvictable 2 true] = Some s ∧
    frames_ s !! 1 = Some (mkFrame [2; 3] 0 false) ∧
    (∀ f fr, frames_ s !! f = Some fr →
       history_ fr ≠ [] ∧ Z.of_nat (length (history_ fr)) ≤ 2 ∧
       StronglySorted Z.lt (history_ fr) ∧
       Forall (λ t, 0 ≤ t < current_timestamp_ s) (history_ fr)).
Proof.
  eexists. split; [evaluate |]. split; [evaluate |].
  refine (proj1 (histories_are_increasing_and_disjoint 7 2
            [OpRecordAccess 1; OpRecordAccess 2; OpRecordAccess 1; OpRecordAccess 1;
             OpSetEvictable 2 true] _ _ _ _)).
  - lia.
  - simpl. lia.
  - evaluate.
Defined.

Lemma evict_is_remove_of_victim_witness :
  ∃ s s',
    run (new_replacer 7 2)
      [OpRecordAccess 1; OpRecordAccess 2; OpRecordAccess 1;
       OpSetEvictable 1 true; OpSetEvictable 2 true] = Some s ∧
    Evict s = (Some 2, s') ∧ Remove s 2 = Ok s'.
Proof.
  eexists _, _. split; [evaluate |]. split; [evaluate |].
  eapply (evict_is_remove_of_victim 7 2
            [OpRecordAccess 1; OpRecordAccess 2; OpRecordAccess 1;
             OpSetEvictable 1 true; OpSetEvictable 2 true]).
  - lia.
  - simpl. lia.
  - evaluate.
  - evaluate.
Defined.

Lemma evict_fails_only_when_empty_witness :
  ∃ s,
    run (new_replacer 7 2)
      [OpRecordAccess 1; OpSetEvictable 1 true; OpSetEvictable 1 false] = Some s ∧
    Size s = 0 ∧
    ((Evict s).1 = None ↔ Size s = 0).
Proof.
  eexists. split; [evaluate |]. split; [evaluate |].
  refine (proj1 (evict_fails_only_when_empty 7 2
            [OpRecordAccess 1; OpSetEvictable 1 true; OpSetEvictable 1 false]
            _ _ _ _ _)).
  - lia.
  - simpl. lia.
  - evaluate.
  - evaluate.
Defined.

Lemma evict_spares_pinned_frames_witness :
  ∃ s,
    run (new_replacer 7 2)
      [OpRecordAccess 1; OpRecordAccess 2; OpSetEvictable 2 true] = Some s ∧
    (Evict s).1 = Some 2 ∧
    frames_ (Evict s).2 !! 1 = Some (mkFrame [0] SIZE_MAX false).
Proof.
  eexists. split; [evaluate |]. split; [evaluate |].
  eapply (evict_spares_pinned_frames 7 2
            [OpRecordAccess 1; OpRecordAccess 2; OpSetEvictable 2 true]).
  - lia.
  - simpl. lia.
  - evaluate.
  - evaluate.
  - reflexivity.
Defined.

Lemma set_evictable_round_trip_witness :
  ∃ s s1,
    run (new_replacer 7 2) [OpRecordAccess 1; OpRecordAccess 2] = Some s ∧
    SetEvictable s 1 true = Ok s1 ∧
    Size s = 0 ∧ Size s1 = 1 ∧
    SetEvictable s1 1 false = Ok s.
Proof.
  eexists _, _. split; [evaluate |]. split; [evaluate |].
  split; [evaluate |]. split; [evaluate |].
  refine (proj2 (set_evictable_round_trip 7 2 [OpRecordAccess 1; OpRecordAccess 2]
                   _ _ 1 (mkFrame [0] SIZE_MAX false) _ _ _ _ _)).
  - lia.
  - simpl. lia.
  - evaluate.
  - evaluate.
  - evaluate.
Defined.

Lemma k_one_evicts_least_recently_used_witness :
  ∃ s s',
    run (new_replacer 7 1)
      [OpRecordAccess 1; OpRecordAccess 2; OpRecordAccess 1;
       OpSetEvictable 1 true; OpSetEvictable 2 true] = Some s ∧
    Evict s = (Some 2, s') ∧
    ∃ fr t, frames_ s !! 2 = Some fr ∧ is_evictable_ fr = true ∧ history_ fr = [t] ∧
      ∀ f' fr', frames_ s !! f' = Some fr' → is_evictable_ fr' = true →
                ∃ t', history_ fr' = [t'] ∧ t ≤ t'.
Proof.
  eexists _, _. split; [evaluate |]. split; [evaluate |].
  eapply (k_one_evicts_least_recently_used 7
            [OpRecordAccess 1; OpRecordAccess 2; OpRecordAccess 1;
             OpSetEvictable 1 true; OpSetEvictable 2 true]).
  - simpl. lia.
  - evaluate.
  - evaluate.
Defined.

Lemma remove_forgets_history_witness :
  ∃ s s1 s2,
    run (new_replacer 7 2)
      [OpRecordAccess 1; OpRecordAccess 1; OpSetEvictable 1 true] = Some s ∧
    frames_ s !! 1 = Some (mkFrame [0; 1] 0 true) ∧
    Remove s 1 = Ok s1 ∧ RecordAccess s1 1 = Ok s2 ∧
    frames_ s2 !! 1 = Some (mkFrame [2] SIZE_MAX false).
Proof.
  eexists _, _, _. split; [evaluate |].
  lazymatch goal with
  | |- frames_ ?s !! _ = _ ∧ _ =>
      split; [evaluate |]; split; [evaluate |]; split; [evaluate |];
      refine (proj2 (remove_forgets_history s _ _ 1 (mkFrame [0; 1] 0 true) _ _ _ _));
      [simpl; lia | evaluate | evaluate | evaluate]
  end.
Defined.

Lemma clock_counts_accepted_accesses_witness :
  ∃ s,
    run (new_replacer 7 2)
      [OpRecordAccess 1; OpRecordAccess 9; OpSetEvictable 1 true; OpEvict;
       OpRecordAccess 1; OpRemove 5] = Some s ∧
    current_timestamp_ s = 2 ∧
    current_timestamp_ s =
      accepted_accesses (to_frame_id 7)
        [OpRecordAccess 1; OpRecordAccess 9; OpSetEvictable 1 true; OpEvict;
         OpRecordAccess 1; OpRemove 5].
Proof.
  eexists. split; [evaluate |]. split; [evaluate |].
  apply (clock_counts_accepted_accesses 7 2).
  - lia.
  - simpl. lia.
  - evaluate.
Defined.

(** ** Closed instances of the error behaviour *)



Lemma negative_frame_id_is_stored_witness :
  ∃ s, run (new_replacer 7 2) [OpRecordAccess 1] = Some s ∧
       0 ≤ replacer_size_ s < 2 ^ 31 ∧
       1 ≤ k_ s < 2 ^ 64 ∧ -1 < 0 ∧
       (∀ e s', RecordAccess s (-1) ≠ Throw e s') ∧
       (∀ e s', SetEvictable s (-1) true ≠ Throw e s') ∧
       (∃ s', RecordAccess s (-1) = Ok s' ∧ is_Some (frames_ s' !! (-1))) ∧
       (∃ s', run (new_replacer (replacer_size_ s) (k_ s)) [OpRecordAccess (-1)] = Some s'
              ∧ ∃ id, id < 0 ∧ is_Some (frames_ s' !! id)).
Proof.
  eexists. split; [evaluate |].
  lazymatch goal with
  | |- 0 ≤ replacer_size_ ?s < _ ∧ _ =>
      assert (Hsize : 0 ≤ replacer_size_ s < 2 ^ 31) by (simpl; lia);
      assert (Hk : 1 ≤ k_ s < 2 ^ 64) by (simpl; lia);
      assert (Hneg : -1 < 0) by lia;
      split; [exact Hsize |]; split; [exact Hk |]; split; [exact Hneg |];
      exact (negative_frame_id_is_stored s (-1) true Hsize Hk Hneg)
  end.
Defined.

(** Counterexample to C10 as the claim states it, for a
    [replacer_size] that does not fit [frame_id_t]: for a replacer of [2^31] frames the bound of the
    check is [-2^31] and [RecordAccess(-1)] throws; for one of [2^32 - 5]
    frames the bound is [-5] and [SetEvictable(-3, true)] throws. *)
Lemma negative_frame_id_rejected_by_truncated_bound :
  -1 < 0 ∧ -3 < 0 ∧
  RecordAccess (new_replacer (2 ^ 31) 2) (-1)
    = Throw InvalidFrameId (new_replacer (2 ^ 31) 2) ∧
  SetEvictable (new_replacer (2 ^ 32 - 5) 2) (-3) true
    = Throw InvalidFrameId (new_replacer (2 ^ 32 - 5) 2).
Proof. split; [done |]. split; [done |]. split; evaluate. Qed.

(** * Properties of the extendible hash table *)

Import HashTable.

(** ** Low-order bits *)

Lemma agree_low_refl (d a : Z) : agree_low d a a.
Proof. by intros n Hn. Qed.

Lemma agree_low_sym (d a b : Z) : agree_low d a b → agree_low d b a.
Proof. intros H n Hn. symmetry. by apply H. Qed.

Lemma agree_low_trans (d a b c : Z) :
  agree_low d a b → agree_low d b c → agree_low d a c.
Proof. intros H1 H2 n Hn. rewrite H1 by done. by apply H2. Qed.

Lemma agree_low_le (d d' a b : Z) : d' ≤ d → agree_low d a b → agree_low d' a b.
Proof. intros Hle H n Hn. apply H. lia. Qed.

Lemma agree_low_succ (d a b : Z) :
  0 ≤ d → agree_low d a b → Z.testbit a d = Z.testbit b d → agree_low (d + 1) a b.
Proof.
  intros Hd H Hbit n Hn. destruct (decide (n = d)) as [->|Hne]; [done |].
  apply H. lia.
Qed.

Lemma mask_is_bit (x d : Z) :
  0 ≤ d → (Z.land x (Z.shiftl 1 d) =? 0) = negb (Z.testbit x d).
Proof.
  intros Hd. rewrite Z.shiftl_1_l.
  destruct (Z.testbit x d) eqn:Hbit; simpl.
  - apply Z.eqb_neq. intros Hz.
    assert (Z.testbit (Z.land x (2 ^ d)) d = false) as Hc
      by (rewrite Hz; apply Z.bits_0).
    rewrite Z.land_spec, Hbit, Z.pow2_bits_true in Hc by done. discriminate.
  - apply Z.eqb_eq. apply Z.bits_inj'. intros n Hn.
    rewrite Z.land_spec, Z.bits_0, Z.pow2_bits_eqb by done.
    destruct (Z.eqb_spec d n) as [->|_]; [by rewrite Hbit | by rewrite andb_false_r].
Qed.

Lemma mask_bit_clear (x d : Z) :
  0 ≤ d → Z.land x (Z.shiftl 1 d) = 0 ↔ Z.testbit x d = false.
Proof.
  intros Hd. pose proof (mask_is_bit x d Hd) as H.
  destruct (Z.eqb_spec (Z.land x (Z.shiftl 1 d)) 0) as [Hz|Hnz];
    destruct (Z.testbit x d); simpl in H; try discriminate; split; done.
Qed.

Section TableFacts.
Context {K V : Type} `{EqDecision K} `{EqDecision V}.
Variable hash : K → Z.

Local Abbreviation Table := (ExtendibleHashTable (K:=K) (V:=V)).

Lemma IndexOf_mod (t : Table) (key : K) :
  0 ≤ global_depth_ t → IndexOf hash t key = hash key mod 2 ^ global_depth_ t.
Proof.
  intros Hd. unfold IndexOf. rewrite Z.shiftl_1_l.
  replace (2 ^ global_depth_ t - 1) with (Z.ones (global_depth_ t))
    by (rewrite Z.ones_equiv; lia).
  by apply Z.land_ones.
Qed.

Lemma IndexOf_range (t : Table) (key : K) :
  0 ≤ global_depth_ t → 0 ≤ IndexOf hash t key < 2 ^ global_depth_ t.
Proof.
  intros Hd. rewrite IndexOf_mod by done. apply Z.mod_pos_bound. lia.
Qed.

Lemma IndexOf_agree (t : Table) (key : K) :
  0 ≤ global_depth_ t →
  agree_low (global_depth_ t) (hash key) (IndexOf hash t key).
Proof.
  intros Hd n Hn. rewrite IndexOf_mod by done.
  symmetry. apply Z.mod_pow2_bits_low. lia.
Qed.

(** ** Insert then Find *)

Lemma split_loop_exit (fuel : nat) (t t1 : Table) (key : K) :
  split_loop hash fuel t key = Done t1 →
  ∃ p b, dir_ t1 !! Z.to_nat (IndexOf hash t1 key) = Some p ∧
         heap_ t1 !! p = Some b ∧ IsFull b = false.
Proof.
  revert t. induction fuel as [|fuel IH]; intros t; simpl;
    unfold dir_at, deref;
    destruct (dir_ t !! Z.to_nat (IndexOf hash t key)) as [p|] eqn:Hp;
    simpl; try discriminate;
    destruct (heap_ t !! p) as [b|] eqn:Hb; simpl; try discriminate;
    destruct (IsFull b) eqn:Hfull; try discriminate.
  - intros [= <-]. eauto.
  - destruct (split hash t key) as [t'| |]; simpl; try discriminate. apply IH.
  - intros [= <-]. eauto.
Qed.

Lemma assign_found (key : K) (value : V) (l l' : list (K * V)) :
  assign key value l = Some l' → snd <$> find_pair key l' = Some value.
Proof.
  revert l'. induction l as [|item l IH]; intros l'; simpl; [discriminate |].
  destruct (decide (item.1 = key)) as [Heq|Hne].
  - intros [= <-]. simpl. by rewrite decide_True.
  - destruct (assign key value l) as [l0|]; simpl; [|discriminate].
    intros [= <-]. simpl. rewrite decide_False by done. by apply IH.
Qed.

Lemma assign_missing (key : K) (value : V) (l : list (K * V)) :
  assign key value l = None →
  snd <$> find_pair key (l ++ [(key, value)]) = Some value.
Proof.
  induction l as [|item l IH]; simpl.
  - intros _. by rewrite decide_True.
  - destruct (decide (item.1 = key)) as [Heq|Hne]; [discriminate |].
    destruct (assign key value l); [discriminate |]. intros _. by apply IH.
Qed.

(** C2. Whenever [Insert(k, v)] returns, a [Find(k)] on the resulting
    table returns [true] with the value [v]. *)
Theorem find_after_insert
    (fuel : nat) (t t' : Table) (key : K) (value : V) :
  Insert hash fuel t key value = Done t' →
  Find hash t' key = Done (Some value).
Proof.
  unfold Insert.
  destruct (split_loop hash fuel t key) as [t1| |] eqn:Hloop; simpl; try discriminate.
  destruct (split_loop_exit _ _ _ _ Hloop) as (p & b & Hp & Hb & Hfull).
  unfold dir_at, deref. rewrite Hp. simpl. rewrite Hb. simpl.
  assert (Hlt : (p < length (heap_ t1))%nat) by (by eapply lookup_lt_Some).
  destruct (assign key value (list_ b)) as [l'|] eqn:Hassign; simpl;
    intros [= <-]; unfold Find, dir_at, deref, IndexOf in *; simpl;
    rewrite Hp; simpl; rewrite list_lookup_insert_eq by done; simpl;
    unfold Bucket_Find; f_equal.
  - simpl. by eapply assign_found.
  - unfold Bucket_Insert. rewrite Hfull. simpl. by apply assign_missing.
Qed.

(** ** Redistribution of a split bucket *)

Lemma set_items_same (b : Bucket (K:=K) (V:=V)) : set_items b (list_ b) = b.
Proof. by destruct b. Qed.

(** With room for them in the new buckets, the items whose hash has the
    mask bit clear go to the first bucket and the others to the second,
    in their order. *)
Lemma redistribute_filter (mask : Z) (items : list (K * V)) (nb1 nb2 : Bucket) :
  Z.of_nat (length (list_ nb1)) +
    Z.of_nat (length (filter (λ item, Z.land (hash item.1) mask = 0) items))
    ≤ size_ nb1 →
  Z.of_nat (length (list_ nb2)) +
    Z.of_nat (length (filter (λ item, Z.land (hash item.1) mask ≠ 0) items))
    ≤ size_ nb2 →
  redistribute hash mask items (nb1, nb2) =
  (set_items nb1 (list_ nb1 ++ filter (λ item, Z.land (hash item.1) mask = 0) items),
   set_items nb2 (list_ nb2 ++ filter (λ item, Z.land (hash item.1) mask ≠ 0) items)).
Proof.
  unfold redistribute. revert nb1 nb2.
  induction items as [|item items IH]; intros nb1 nb2 H1 H2.
  - simpl. by rewrite !app_nil_r, !set_items_same.
  - destruct item as [k v].
    cbn [fold_left]. unfold redistribute_step at 2. cbn [fst snd].
    destruct (Z.eqb_spec (Z.land (hash k) mask) 0) as [Hz|Hnz].
    + rewrite filter_cons_True in H1 |- * by done.
      rewrite filter_cons_False in H2 |- * by (intros ?; done).
      cbn [length] in H1. unfold Bucket_Insert, IsFull.
      destruct (Z.eqb_spec (Z.of_nat (length (list_ nb1))) (size_ nb1)); [lia |].
      cbn [snd]. rewrite IH; unfold set_items; cbn [list_ size_ depth_].
      * by rewrite <- app_assoc.
      * rewrite length_app. cbn [length]. lia.
      * done.
    + rewrite filter_cons_False in H1 |- * by done.
      rewrite filter_cons_True in H2 |- * by done.
      cbn [length] in H2. unfold Bucket_Insert, IsFull.
      destruct (Z.eqb_spec (Z.of_nat (length (list_ nb2))) (size_ nb2)); [lia |].
      cbn [snd]. rewrite IH; unfold set_items; cbn [list_ size_ depth_].
      * by rewrite <- app_assoc.
      * done.
      * rewrite length_app. cbn [length]. lia.
Qed.

(** ** The invariant holds initially and is preserved *)

Lemma new_table_ok (bucket_size : Z) :
  0 ≤ bucket_size → table_ok hash (new_table bucket_size : Table).
Proof.
  intros Hsize. constructor; simpl; [done | done |].
  intros [|i] p; simpl; [|by destruct i]. intros [= <-].
  eexists. split; [reflexivity |]. simpl. repeat split; try done.
  - intros [|j]; [intros _; apply agree_low_refl | by destruct j].
  - intros item Hin. by apply elem_of_nil in Hin.
Qed.

Lemma agree_low_shift (d gd i : Z) :
  0 ≤ d ≤ gd → agree_low d i (i + 2 ^ gd).
Proof.
  intros Hd n Hn.
  rewrite <- (Z.mod_pow2_bits_low i gd n) by lia.
  rewrite <- (Z.mod_pow2_bits_low (i + 2 ^ gd) gd n) by lia.
  f_equal. replace (i + 2 ^ gd) with (i + 1 * 2 ^ gd) by lia.
  by rewrite Z_mod_plus_full.
Qed.

(** A slot of the doubled directory holds what its image in the old
    directory held. *)
Lemma lookup_doubled (dir : list nat) (i p : nat) :
  (dir ++ dir) !! i = Some p →
  ∃ i0, dir !! i0 = Some p ∧ (i = i0 ∨ i = (i0 + length dir)%nat).
Proof.
  intros Hi. apply lookup_app_Some in Hi as [Hi | [Hge Hi]].
  - exists i. by split; [|left].
  - exists (i - length dir)%nat. split; [done | right; lia].
Qed.

Lemma grow_ok (t : Table) : table_ok hash t → table_ok hash (grow t).
Proof.
  intros [Hd Hlen Hslots].
  assert (Himg : ∀ i p, (dir_ t ++ dir_ t) !! i = Some p →
            ∃ i0, dir_ t !! i0 = Some p ∧
                  ∀ d, 0 ≤ d ≤ global_depth_ t →
                       agree_low d (Z.of_nat i0) (Z.of_nat i)).
  { intros i p Hi. apply lookup_doubled in Hi as (i0 & Hi0 & [-> | ->]).
    - exists i0. split; [done |]. intros d _. apply agree_low_refl.
    - exists i0. split; [done |]. intros d Hdd.
      rewrite Nat2Z.inj_add, Hlen. by apply agree_low_shift. }
  constructor; simpl.
  - lia.
  - rewrite length_app, Nat2Z.inj_add, Hlen, Z.pow_add_r by lia. lia.
  - intros i p Hi. destruct (Himg i p Hi) as (i0 & Hi0 & Hagree).
    destruct (Hslots i0 p Hi0) as (b & Hb & Hsz & Hdep & Hcap & Hshare & Hitems).
    exists b. simpl. repeat split; try done; try lia.
    + intros j Hj. destruct (Himg j p Hj) as (j0 & Hj0 & Hagreej).
      eapply agree_low_trans; [apply agree_low_sym, Hagree; lia |].
      eapply agree_low_trans; [by apply Hshare |]. apply Hagreej. lia.
    + intros item Hin.
      eapply agree_low_trans; [by apply Hitems |]. apply Hagree. lia.
Qed.

(** The table after a split, when the old bucket respects its capacity. *)
Lemma split_bucket_eq (t : Table) (p : nat) (b : Bucket) :
  Z.of_nat (length (list_ b)) ≤ bucket_size_ t →
  split_bucket hash t p b =
  mkTable (global_depth_ t) (bucket_size_ t) (num_buckets_ t + 1)
    (imap (rewire (Z.shiftl 1 (depth_ b)) p
             (length (heap_ t)) (S (length (heap_ t)))) (dir_ t))
    (<[p := IncrementDepth b]> (heap_ t) ++
     [mkBucket (bucket_size_ t) (depth_ b + 1)
        (filter (λ item, Z.land (hash item.1) (Z.shiftl 1 (depth_ b)) = 0) (list_ b));
      mkBucket (bucket_size_ t) (depth_ b + 1)
        (filter (λ item, Z.land (hash item.1) (Z.shiftl 1 (depth_ b)) ≠ 0) (list_ b))]).
Proof.
  intros Hcap. unfold split_bucket, GetDepth. cbn [IncrementDepth list_ depth_].
  rewrite redistribute_filter; cbn [list_ size_ length fst snd].
  - by rewrite length_insert.
  - pose proof (length_filter
      (λ item : K * V, Z.land (hash item.1) (Z.shiftl 1 (depth_ b)) = 0) (list_ b)).
    lia.
  - pose proof (length_filter
      (λ item : K * V, Z.land (hash item.1) (Z.shiftl 1 (depth_ b)) ≠ 0) (list_ b)).
    lia.
Qed.

Lemma split_bucket_ok (t : Table) (ip p : nat) (b : Bucket) :
  table_ok hash t → dir_ t !! ip = Some p → heap_ t !! p = Some b →
  depth_ b < global_depth_ t →
  table_ok hash (split_bucket hash t p b).
Proof.
  intros Hok Hip Hb Hdeep. pose proof Hok as [Hd Hlen Hslots].
  assert (Hp : (p < length (heap_ t))%nat) by (by eapply lookup_lt_Some).
  destruct (Hslots ip p Hip) as (b' & Hb' & Hsz & Hdep & Hcap & Hshare & Hitems).
  rewrite Hb in Hb'. injection Hb' as <-.
  rewrite split_bucket_eq by lia.
  set (mask := Z.shiftl 1 (depth_ b)).
  set (P0 := λ item : K * V, Z.land (hash item.1) mask = 0).
  set (P1 := λ item : K * V, Z.land (hash item.1) mask ≠ 0).
  set (heap' := <[p := IncrementDepth b]> (heap_ t) ++
                [mkBucket (bucket_size_ t) (depth_ b + 1) (filter P0 (list_ b));
                 mkBucket (bucket_size_ t) (depth_ b + 1) (filter P1 (list_ b))]).
  assert (Hlen' : length (<[p := IncrementDepth b]> (heap_ t)) = length (heap_ t))
    by apply length_insert.
  assert (Hold : ∀ q, (q < length (heap_ t))%nat → q ≠ p → heap' !! q = heap_ t !! q).
  { intros q Hq Hne. subst heap'. rewrite lookup_app_l by lia.
    by apply list_lookup_insert_ne. }
  assert (Hnew1 : heap' !! length (heap_ t) =
                  Some (mkBucket (bucket_size_ t) (depth_ b + 1) (filter P0 (list_ b)))).
  { subst heap'. rewrite lookup_app_r by lia. rewrite Hlen', Nat.sub_diag. done. }
  assert (Hnew2 : heap' !! S (length (heap_ t)) =
                  Some (mkBucket (bucket_size_ t) (depth_ b + 1) (filter P1 (list_ b)))).
  { subst heap'. rewrite lookup_app_r by lia. rewrite Hlen'.
    replace (S (length (heap_ t)) - length (heap_ t))%nat with 1%nat by lia. done. }
  (* where a slot of the new directory comes from *)
  assert (Hsrc : ∀ j q,
            imap (rewire mask p (length (heap_ t)) (S (length (heap_ t)))) (dir_ t) !! j
              = Some q →
            (dir_ t !! j = Some q ∧ q ≠ p ∧ (q < length (heap_ t))%nat) ∨
            (dir_ t !! j = Some p ∧ Z.testbit (Z.of_nat j) (depth_ b) = false ∧
             q = length (heap_ t)) ∨
            (dir_ t !! j = Some p ∧ Z.testbit (Z.of_nat j) (depth_ b) = true ∧
             q = S (length (heap_ t)))).
  { intros j q. rewrite list_lookup_imap.
    destruct (dir_ t !! j) as [q0|] eqn:Hq0; simpl; [|discriminate].
    intros [= <-]. unfold rewire.
    destruct (decide (q0 = p)) as [->|Hne].
    - subst mask. rewrite mask_is_bit by lia.
      destruct (Z.testbit (Z.of_nat j) (depth_ b)); simpl; auto.
    - left. repeat split; try done.
      destruct (Hslots j q0 Hq0) as (b0 & Hb0 & _). by eapply lookup_lt_Some. }
  constructor; cbn [global_depth_ dir_ heap_ bucket_size_].
  - done.
  - by rewrite length_imap.
  - intros i q Hq.
    destruct (Hsrc i q Hq) as [(Hi & Hne & Hlt) | [(Hi & Hbit & ->) | (Hi & Hbit & ->)]].
    + destruct (Hslots i q Hi) as (b0 & Hb0 & Hsz0 & Hdep0 & Hcap0 & Hshare0 & Hitems0).
      exists b0. cbn [global_depth_ dir_ heap_ bucket_size_].
      rewrite Hold by done. repeat split; try done; try lia.
      intros j Hj.
      destruct (Hsrc j q Hj) as [(Hj' & _) | [(_ & _ & ->) | (_ & _ & ->)]];
        [by apply Hshare0 | lia | lia].
    + destruct (Hslots i p Hi) as (bi & Hbi & _ & _ & _ & Hsharei & Hitemsi).
      rewrite Hb in Hbi. injection Hbi as <-.
      eexists. cbn [global_depth_ dir_ heap_ bucket_size_].
      split; [exact Hnew1 |]. cbn [size_ depth_ list_].
      split; [done |]. split; [lia |]. split.
      { pose proof (length_filter P0 (list_ b)). lia. }
      split.
      * intros j Hj.
        destruct (Hsrc j _ Hj) as [(_ & _ & ?) | [(Hj' & Hbitj & _) | (_ & _ & ?)]];
          [lia | | lia].
        apply agree_low_succ; [lia | by apply Hsharei | congruence].
      * intros item [HP Hin]%list_elem_of_filter.
        apply agree_low_succ; [lia | by apply Hitemsi |].
        subst P0 mask. simpl in HP. apply mask_bit_clear in HP; [|lia]. congruence.
    + destruct (Hslots i p Hi) as (bi & Hbi & _ & _ & _ & Hsharei & Hitemsi).
      rewrite Hb in Hbi. injection Hbi as <-.
      eexists. cbn [global_depth_ dir_ heap_ bucket_size_].
      split; [exact Hnew2 |]. cbn [size_ depth_ list_].
      split; [done |]. split; [lia |]. split.
      { pose proof (length_filter P1 (list_ b)). lia. }
      split.
      * intros j Hj.
        destruct (Hsrc j _ Hj) as [(_ & _ & ?) | [(_ & _ & ?) | (Hj' & Hbitj & _)]];
          [lia | lia |].
        apply agree_low_succ; [lia | by apply Hsharei | congruence].
      * intros item [HP Hin]%list_elem_of_filter.
        apply agree_low_succ; [lia | by apply Hitemsi |].
        subst P1 mask. simpl in HP. rewrite mask_bit_clear in HP by lia.
        rewrite Hbit. by destruct (Z.testbit (hash item.1) (depth_ b)).
Qed.



(** ** One iteration of the split loop *)

Lemma mod_doubled (h gd : Z) :
  0 ≤ gd →
  h mod 2 ^ (gd + 1) = h mod 2 ^ gd ∨ h mod 2 ^ (gd + 1) = h mod 2 ^ gd + 2 ^ gd.
Proof.
  intros Hgd. rewrite Z.pow_add_r, Z.pow_1_r by lia.
  rewrite Z.rem_mul_r by lia.
  assert ((h / 2 ^ gd) mod 2 = 0 ∨ (h / 2 ^ gd) mod 2 = 1) as [-> | ->]
    by (pose proof (Z.mod_pos_bound (h / 2 ^ gd) 2 ltac:(lia)); lia).
  - left. lia.
  - right. lia.
Qed.

(** The slot of the key still holds the same bucket after the doubling. *)
Lemma grow_target (t : Table) (key : K) (p : nat) :
  table_ok hash t →
  dir_ t !! Z.to_nat (IndexOf hash t key) = Some p →
  dir_ (grow t) !! Z.to_nat (IndexOf hash (grow t) key) = Some p.
Proof.
  intros [Hd Hlen _] Hp.
  rewrite IndexOf_mod in Hp |- * by (simpl; lia). simpl.
  pose proof (Z.mod_pos_bound (hash key) (2 ^ global_depth_ t)) as Hrange.
  destruct (mod_doubled (hash key) (global_depth_ t) Hd) as [-> | ->].
  - by apply lookup_app_l_Some.
  - rewrite lookup_app_r by lia. rewrite <- Hp. f_equal. lia.
Qed.

(** A split is defined on a consistent table, keeps it consistent, and
    leaves in the slot of the key a bucket one level deeper that holds
    the items of the old bucket whose hash has the key's bit at the old
    depth. *)
Lemma split_spec (t : Table) (key : K) (p : nat) (b : Bucket) :
  table_ok hash t →
  dir_ t !! Z.to_nat (IndexOf hash t key) = Some p →
  heap_ t !! p = Some b →
  ∃ t' p' b',
    split hash t key = Done t' ∧ table_ok hash t' ∧
    bucket_size_ t' = bucket_size_ t ∧
    dir_ t' !! Z.to_nat (IndexOf hash t' key) = Some p' ∧
    heap_ t' !! p' = Some b' ∧
    depth_ b' = depth_ b + 1 ∧ size_ b' = size_ b ∧
    list_ b' = filter (λ item, Z.testbit (hash item.1) (depth_ b)
                               = Z.testbit (hash key) (depth_ b)) (list_ b).
Proof.
  intros Hok Hp Hb.
  destruct (ok_slots _ _ Hok _ _ Hp) as (b0 & Hb0 & Hsz & Hdep & Hcap & _).
  rewrite Hb in Hb0. injection Hb0 as <-.
  set (t1 := if GetDepth b =? global_depth_ t then grow t else t).
  assert (Ht1 : table_ok hash t1 ∧ heap_ t1 = heap_ t ∧
                bucket_size_ t1 = bucket_size_ t ∧
                depth_ b < global_depth_ t1 ∧
                dir_ t1 !! Z.to_nat (IndexOf hash t1 key) = Some p).
  { subst t1. unfold GetDepth.
    destruct (Z.eqb_spec (depth_ b) (global_depth_ t)) as [Heq|Hne].
    - split; [by apply grow_ok |]. simpl. repeat split; try done; try lia.
      by apply grow_target.
    - split; [done |]. repeat split; try done. lia. }
  destruct Ht1 as (Hok1 & Hheap1 & Hbs1 & Hdeep & Hp1).
  assert (Hb1 : heap_ t1 !! p = Some b) by (by rewrite Hheap1).
  pose proof (split_bucket_ok t1 _ p b Hok1 Hp1 Hb1 Hdeep) as Hok'.
  assert (Hsplit : split hash t key = Done (split_bucket hash t1 p b)).
  { unfold split, dir_at, deref. rewrite Hp. simpl. by rewrite Hb. }
  assert (Hbit : Z.testbit (Z.of_nat (Z.to_nat (IndexOf hash t1 key))) (depth_ b)
                 = Z.testbit (hash key) (depth_ b)).
  { pose proof (IndexOf_range t1 key (ok_depth _ _ Hok1)).
    rewrite Z2Nat.id by lia. symmetry.
    apply (IndexOf_agree t1 key (ok_depth _ _ Hok1)). lia. }
  assert (Hp1lt : (p < length (heap_ t1))%nat) by (by eapply lookup_lt_Some).
  revert Hok' Hsplit. rewrite split_bucket_eq by lia. intros Hok' Hsplit.
  destruct (Z.testbit (hash key) (depth_ b)) eqn:Hkey;
    (eexists _, _, _; split; [exact Hsplit |]; split; [exact Hok' |];
     split; [done |];
     replace (IndexOf hash _ key) with (IndexOf hash t1 key) by done;
     cbn [dir_ heap_]; rewrite list_lookup_imap, Hp1; simpl;
     unfold rewire; rewrite decide_True by done;
     rewrite mask_is_bit, Hbit by lia; simpl;
     split; [reflexivity |];
     rewrite lookup_app_r by (rewrite length_insert; lia);
     rewrite length_insert).
  - replace (S (length (heap_ t1)) - length (heap_ t1))%nat with 1%nat by lia.
    simpl. split; [reflexivity |]. simpl. repeat split; try done; [congruence |].
    apply list_filter_iff. intros item. rewrite mask_bit_clear by lia.
    by destruct (Z.testbit (hash item.1) (depth_ b)).
  - rewrite Nat.sub_diag.
    simpl. split; [reflexivity |]. simpl. repeat split; try done; [congruence |].
    apply list_filter_iff. intros item. by rewrite mask_bit_clear by lia.
Qed.

(** ** Updating the items of one bucket *)

Lemma update_bucket_ok (t : Table) (p : nat) (b b' : Bucket) :
  table_ok hash t → heap_ t !! p = Some b →
  size_ b' = size_ b → depth_ b' = depth_ b →
  Z.of_nat (length (list_ b')) ≤ size_ b →
  (∀ item i, item ∈ list_ b' → dir_ t !! i = Some p →
             agree_low (depth_ b) (hash item.1) (Z.of_nat i)) →
  table_ok hash (set_heap t (<[p := b']> (heap_ t))).
Proof.
  intros [Hd Hlen Hslots] Hb Hsz' Hdep' Hcap' Hitems'.
  assert (Hp : (p < length (heap_ t))%nat) by (by eapply lookup_lt_Some).
  constructor; simpl; [done | done |].
  intros i q Hq.
  destruct (Hslots i q Hq) as (b0 & Hb0 & Hsz & Hdep & Hcap & Hshare & Hitems).
  destruct (decide (q = p)) as [->|Hne].
  - rewrite Hb in Hb0. injection Hb0 as <-.
    exists b'. simpl. rewrite list_lookup_insert_eq by done.
    rewrite Hsz', Hdep'. repeat split; try done; try lia.
    intros item Hin. by apply Hitems'.
  - exists b0. simpl. rewrite list_lookup_insert_ne by done.
    repeat split; try done; lia.
Qed.

Lemma assign_length (key : K) (value : V) (l l' : list (K * V)) :
  assign key value l = Some l' → length l' = length l.
Proof.
  revert l'. induction l as [|item l IH]; intros l'; simpl; [discriminate |].
  destruct (decide (item.1 = key)); [by intros [= <-] |].
  destruct (assign key value l) as [l0|]; simpl; [|discriminate].
  intros [= <-]. simpl. f_equal. by apply IH.
Qed.

Lemma assign_keys (key : K) (value : V) (l l' : list (K * V)) (item' : K * V) :
  assign key value l = Some l' → item' ∈ l' → ∃ item, item ∈ l ∧ item.1 = item'.1.
Proof.
  revert l'. induction l as [|item l IH]; intros l'; simpl; [discriminate |].
  destruct (decide (item.1 = key)) as [Heq|Hne].
  - intros [= <-] [->|Hin]%elem_of_cons.
    + exists item. split; [apply elem_of_cons; by left | done].
    + exists item'. split; [apply elem_of_cons; by right | done].
  - destruct (assign key value l) as [l0|]; simpl; [|discriminate].
    intros [= <-] [->|Hin]%elem_of_cons.
    + exists item. split; [apply elem_of_cons; by left | done].
    + destruct (IH l0 eq_refl Hin) as (item0 & Hin0 & Heq0).
      exists item0. split; [apply elem_of_cons; by right | done].
Qed.

Lemma split_loop_ok (fuel : nat) (t t' : Table) (key : K) :
  table_ok hash t → split_loop hash fuel t key = Done t' → table_ok hash t'.
Proof.
  revert t. induction fuel as [|fuel IH]; intros t Hok; simpl;
    unfold dir_at, deref;
    destruct (dir_ t !! Z.to_nat (IndexOf hash t key)) as [p|] eqn:Hp;
    simpl; try discriminate;
    destruct (heap_ t !! p) as [b|] eqn:Hb; simpl; try discriminate;
    destruct (IsFull b) eqn:Hfull; try discriminate;
    try (by intros [= <-]).
  destruct (split_spec t key p b Hok Hp Hb) as (t1 & _ & _ & -> & Hok1 & _).
  simpl. by apply IH.
Qed.

Lemma Insert_ok (fuel : nat) (t t' : Table) (key : K) (value : V) :
  table_ok hash t → Insert hash fuel t key value = Done t' → table_ok hash t'.
Proof.
  intros Hok. unfold Insert.
  destruct (split_loop hash fuel t key) as [t1| |] eqn:Hloop; simpl; try discriminate.
  pose proof (split_loop_ok _ _ _ _ Hok Hloop) as Hok1.
  destruct (split_loop_exit _ _ _ _ Hloop) as (p & b & Hp & Hb & Hfull).
  unfold dir_at, deref. rewrite Hp. simpl. rewrite Hb. simpl.
  destruct (ok_slots _ _ Hok1 _ _ Hp) as (b0 & Hb0 & Hsz & Hdep & Hcap & Hshare & Hitems).
  rewrite Hb in Hb0. injection Hb0 as <-.
  assert (Hitems_all : ∀ item i, item ∈ list_ b → dir_ t1 !! i = Some p →
            agree_low (depth_ b) (hash item.1) (Z.of_nat i)).
  { intros item i Hin Hi.
    eapply agree_low_trans; [by apply Hitems | by apply Hshare]. }
  destruct (assign key value (list_ b)) as [l'|] eqn:Hassign; intros [= <-].
  - apply update_bucket_ok with b; simpl; try done.
    + by rewrite (assign_length _ _ _ _ Hassign).
    + intros item' i Hin' Hi.
      destruct (assign_keys _ _ _ _ _ Hassign Hin') as (item & Hin & <-).
      by apply Hitems_all.
  - unfold Bucket_Insert. rewrite Hfull. simpl.
    apply update_bucket_ok with b; simpl; try done.
    + rewrite length_app. simpl. unfold IsFull in Hfull.
      apply Z.eqb_neq in Hfull. lia.
    + intros item i [Hin | ->%list_elem_of_singleton]%elem_of_app Hi;
        [by apply Hitems_all |]. simpl.
      pose proof (IndexOf_range t1 key (ok_depth _ _ Hok1)) as Hrange.
      eapply agree_low_trans; [|by apply Hshare].
      rewrite Z2Nat.id by lia.
      eapply agree_low_le; [|apply IndexOf_agree, (ok_depth _ _ Hok1)]. lia.
Qed.

Lemma Remove_ok (t t' : Table) (key : K) (r : bool) :
  table_ok hash t → Remove hash t key = Done (r, t') → table_ok hash t'.
Proof.
  intros Hok. unfold Remove, dir_at, deref.
  destruct (dir_ t !! Z.to_nat (IndexOf hash t key)) as [p|] eqn:Hp;
    simpl; [|discriminate].
  destruct (heap_ t !! p) as [b|] eqn:Hb; simpl; [|discriminate].
  destruct (ok_slots _ _ Hok _ _ Hp) as (b0 & Hb0 & Hsz & Hdep & Hcap & Hshare & Hitems).
  rewrite Hb in Hb0. injection Hb0 as <-.
  unfold Bucket_Remove.
  destruct (find_pair key (list_ b)) as [item|]; intros [= <- <-].
  - apply update_bucket_ok with b; simpl; try done.
    + pose proof (length_filter (λ q, q ≠ item) (list_ b)). lia.
    + intros item' i [_ Hin]%list_elem_of_filter Hi.
      eapply agree_low_trans; [by apply Hitems | by apply Hshare].
  - apply update_bucket_ok with b; simpl; try done.
    intros item' i Hin Hi.
    eapply agree_low_trans; [by apply Hitems | by apply Hshare].
Qed.

Lemma reachable_ok (bucket_size : Z) (t : Table) :
  0 ≤ bucket_size → reachable hash bucket_size t → table_ok hash t.
Proof.
  intros Hsize. induction 1 as [|t fuel key value t' _ IH HI|t key r t' _ IH HR|];
    [by apply new_table_ok | by eapply Insert_ok | by eapply Remove_ok | done].
Qed.

(** ** Insertion without a split *)

(** When the target bucket is not full, [Insert] returns without running
    the loop body and leaves depths, bucket count and directory alone. *)
Lemma Insert_without_split
    (fuel : nat) (t : Table) (key : K) (value : V) (p : nat) (b : Bucket) :
  dir_ t !! Z.to_nat (IndexOf hash t key) = Some p → heap_ t !! p = Some b →
  IsFull b = false →
  ∃ t', Insert hash fuel t key value = Done t' ∧
        GetNumBuckets t' = GetNumBuckets t ∧
        GetGlobalDepth t' = GetGlobalDepth t ∧
        dir_ t' = dir_ t.
Proof.
  intros Hp Hb HF.
  assert (Hloop : split_loop hash fuel t key = Done t).
  { destruct fuel; simpl; unfold dir_at, deref; rewrite Hp; simpl;
      rewrite Hb; simpl; by rewrite HF. }
  unfold Insert, dir_at, deref. rewrite Hloop. simpl. rewrite Hp. simpl.
  rewrite Hb. simpl. destruct (assign key value (list_ b)); by eexists.
Qed.

(** ** Specified behaviour of the hash table *)

(** C5. In every state reached from construction by calls of [Insert],
    [Remove] and [Find] that return, the directory has [2^global_depth]
    slots, and every slot holds a bucket whose local depth is at most the
    global depth. *)
Theorem directory_length_and_depth_bound (bucket_size : Z) (t : Table) :
  0 ≤ bucket_size → reachable hash bucket_size t →
  Z.of_nat (length (dir_ t)) = 2 ^ GetGlobalDepth t ∧
  ∀ i, 0 ≤ i < 2 ^ GetGlobalDepth t →
       ∃ d, GetLocalDepth t i = Done d ∧ d ≤ GetGlobalDepth t.
Proof.
  intros Hsize Hreach.
  pose proof (reachable_ok _ _ Hsize Hreach) as [Hd Hlen Hslots].
  split; [done |]. intros i Hi. unfold GetLocalDepth, dir_at, deref, GetGlobalDepth in *.
  destruct (lookup_lt_is_Some_2 (dir_ t) (Z.to_nat i)) as [p Hp]; [lia |].
  destruct (Hslots _ _ Hp) as (b & Hb & _ & Hdep & _).
  rewrite Hp. simpl. rewrite Hb. simpl. exists (depth_ b). split; [done | lia].
Qed.

(** ** Termination of the split loop *)

Lemma filter_keeps_all {A : Type} (P : A → Prop) `{!∀ x, Decision (P x)} (l : list A) :
  (length l ≤ length (filter P l))%nat → filter P l = l.
Proof.
  induction l as [|x l IH]; [done |].
  destruct (decide (P x)) as [HP|HP].
  - rewrite filter_cons_True by done. simpl. intros Hlen. f_equal. apply IH. lia.
  - rewrite filter_cons_False by done. simpl. intros Hlen.
    pose proof (length_filter P l). lia.
Qed.

Lemma filter_all {A : Type} (P : A → Prop) `{!∀ x, Decision (P x)} (l : list A) :
  Forall P l → filter P l = l.
Proof.
  induction 1 as [|x l HP _ IH]; [done |].
  rewrite filter_cons_True by done. by rewrite IH.
Qed.

(** If a full target bucket never has all its keys agree with the new
    key on the [n] low bits, and [n] is at most [m] levels below the
    target, the loop exits within [m] iterations. *)
Lemma split_loop_terminates (n : Z) (key : K) (m : nat) (t : Table) :
  table_ok hash t →
  (∀ p b, dir_ t !! Z.to_nat (IndexOf hash t key) = Some p → heap_ t !! p = Some b →
          IsFull b = true →
          ¬ Forall (λ item, agree_low n (hash item.1) (hash key)) (list_ b) ∧
          n - depth_ b ≤ Z.of_nat m) →
  ∃ t', split_loop hash m t key = Done t'.
Proof.
  revert t. induction m as [|m IH]; intros t Hok Hfull.
  all: pose proof (IndexOf_range t key (ok_depth _ _ Hok)) as Hrange.
  all: destruct (lookup_lt_is_Some_2 (dir_ t) (Z.to_nat (IndexOf hash t key)))
         as [p Hp]; [rewrite <- (ok_dir_len _ _ Hok) in Hrange; lia |].
  all: destruct (ok_slots _ _ Hok _ _ Hp)
         as (b & Hb & Hsz & Hdep & Hcap & Hshare & Hitems).
  all: simpl; unfold dir_at, deref; rewrite Hp; simpl; rewrite Hb; simpl.
  all: destruct (IsFull b) eqn:HF; [|by eexists].
  all: destruct (Hfull p b Hp Hb HF) as [Hnot Hm].
  all: assert (Hdeep : depth_ b < n).
  1,3: destruct (Z.lt_ge_cases (depth_ b) n) as [|Hge]; [done |];
       exfalso; apply Hnot; apply Forall_forall; intros item Hin;
       apply agree_low_le with (depth_ b); [lia |];
       eapply agree_low_trans; [by apply Hitems |];
       rewrite Z2Nat.id by lia;
       apply agree_low_sym;
       eapply agree_low_le; [|apply IndexOf_agree, (ok_depth _ _ Hok)]; lia.
  - lia.
  - destruct (split_spec t key p b Hok Hp Hb)
      as (t1 & p1 & b1 & -> & Hok1 & _ & Hp1 & Hb1 & Hdep1 & Hsz1 & Hlist1).
    simpl. apply IH; [done |].
    intros p' b' Hp' Hb' HF'.
    rewrite Hp1 in Hp'. injection Hp' as <-.
    rewrite Hb1 in Hb'. injection Hb' as <-.
    rewrite Hdep1. split; [|lia].
    unfold IsFull in HF'. apply Z.eqb_eq in HF'.
    rewrite Hlist1 in HF' |- *.
    rewrite filter_keeps_all; [done |]. lia.
Qed.

(** ** Termination within [int]

    With a global depth of at most 30 every [int] of [IndexOf] and of
    the loop body holds its exact value, except the doubled directory
    length when the depth is 30. *)

Lemma int_of_small (z : Z) : - 2 ^ 31 ≤ z ≤ INT_MAX → int_of z = Done z.
Proof.
  intros Hz. unfold int_of.
  destruct (Z.leb_spec (- 2 ^ 31) z); [|lia].
  destruct (Z.leb_spec z INT_MAX); [done | lia].
Qed.

Lemma shl1_int_small (d : Z) : 0 ≤ d ≤ 30 → shl1_int d = Done (Z.shiftl 1 d).
Proof.
  intros Hd. unfold shl1_int.
  destruct (Z.leb_spec 0 d); [|lia].
  destruct (Z.ltb_spec d 31); [done | lia].
Qed.

Lemma pow2_le_int (d e : Z) : 0 ≤ d ≤ e → e ≤ 30 → 1 ≤ 2 ^ d ≤ 2 ^ e ∧ 2 ^ e ≤ 2 ^ 30.
Proof.
  intros Hd He. split; [split |].
  - apply (Z.pow_le_mono_r 2 0 d); lia.
  - apply Z.pow_le_mono_r; lia.
  - apply Z.pow_le_mono_r; lia.
Qed.

Lemma IndexOf_int_small (t : Table) (key : K) :
  0 ≤ global_depth_ t ≤ 30 → IndexOf_int hash t key = Done (IndexOf hash t key).
Proof.
  intros Hd. unfold IndexOf_int, IndexOf.
  rewrite shl1_int_small by done. simpl.
  rewrite int_of_small; [done |].
  rewrite Z.shiftl_1_l. unfold INT_MAX.
  pose proof (pow2_le_int (global_depth_ t) (global_depth_ t)). lia.
Qed.

Lemma split_depth (t t' : Table) (key : K) (p : nat) (b : Bucket) :
  dir_ t !! Z.to_nat (IndexOf hash t key) = Some p → heap_ t !! p = Some b →
  split hash t key = Done t' →
  global_depth_ t' =
    if depth_ b =? global_depth_ t then global_depth_ t + 1 else global_depth_ t.
Proof.
  intros Hp Hb. unfold split, dir_at, deref. rewrite Hp. simpl. rewrite Hb. simpl.
  intros [= <-]. unfold GetDepth. by destruct (depth_ b =? global_depth_ t).
Qed.

(** While a split does not take the global depth beyond 30, the checked
    iteration is the iteration. *)
Lemma split_int_small (t : Table) (key : K) (p : nat) (b : Bucket) :
  table_ok hash t → global_depth_ t ≤ 30 →
  dir_ t !! Z.to_nat (IndexOf hash t key) = Some p → heap_ t !! p = Some b →
  (depth_ b = global_depth_ t → global_depth_ t ≤ 29) →
  split_int hash t key = split hash t key.
Proof.
  intros Hok Hgd Hp Hb Hroom.
  pose proof (ok_depth _ _ Hok) as H0. pose proof (ok_dir_len _ _ Hok) as Hlen.
  destruct (ok_slots _ _ Hok _ _ Hp) as (b0 & Hb0 & _ & Hdep & _).
  rewrite Hb in Hb0. injection Hb0 as <-.
  unfold split_int, split. rewrite IndexOf_int_small by lia. simpl.
  unfold dir_at, deref. rewrite Hp. simpl. rewrite Hb. simpl. unfold GetDepth.
  rewrite (shl1_int_small (depth_ b)) by lia.
  destruct (Z.eqb_spec (depth_ b) (global_depth_ t)) as [Heq|Hne]; [|done].
  specialize (Hroom Heq).
  pose proof (pow2_le_int (global_depth_ t) 29).
  assert (2 ^ 29 * 2 = 2 ^ 30) by done.
  rewrite (int_of_small (global_depth_ t + 1)) by (unfold INT_MAX; lia). simpl.
  rewrite int_of_small by (unfold INT_MAX; lia). simpl.
  rewrite int_of_small by (unfold INT_MAX; lia). done.
Qed.

(** Doubling a directory of [2^30] slots overflows [dir_num * 2]. *)
Lemma split_int_overflow (t : Table) (key : K) (p : nat) (b : Bucket) :
  table_ok hash t → global_depth_ t = 30 →
  dir_ t !! Z.to_nat (IndexOf hash t key) = Some p → heap_ t !! p = Some b →
  depth_ b = 30 →
  split_int hash t key = Undefined.
Proof.
  intros Hok Hgd Hp Hb Hdep.
  pose proof (ok_dir_len _ _ Hok) as Hlen.
  unfold split_int. rewrite IndexOf_int_small by lia. simpl.
  unfold dir_at, deref. rewrite Hp. simpl. rewrite Hb. simpl. unfold GetDepth.
  rewrite Hdep, Hgd, Hlen, Hgd. done.
Qed.

(** The loop of [split_loop_terminates], now with the [int]s checked:
    a full target bucket is split at a depth below [n], so with
    [n <= 30] no split takes the global depth beyond 30. *)
Lemma split_loop_int_terminates (n : Z) (key : K) (m : nat) (t : Table) :
  table_ok hash t → global_depth_ t ≤ 30 → n ≤ 30 →
  (∀ p b, dir_ t !! Z.to_nat (IndexOf hash t key) = Some p → heap_ t !! p = Some b →
          IsFull b = true →
          ¬ Forall (λ item, agree_low n (hash item.1) (hash key)) (list_ b) ∧
          n - depth_ b ≤ Z.of_nat m) →
  ∃ t', split_loop_int hash m t key = Done t' ∧
        split_loop hash m t key = Done t' ∧
        table_ok hash t' ∧ global_depth_ t' ≤ 30.
Proof.
  revert t. induction m as [|m IH]; intros t Hok Hgd Hn Hfull.
  all: pose proof (IndexOf_range t key (ok_depth _ _ Hok)) as Hrange.
  all: pose proof (ok_depth _ _ Hok) as H0.
  all: destruct (lookup_lt_is_Some_2 (dir_ t) (Z.to_nat (IndexOf hash t key)))
         as [p Hp]; [rewrite <- (ok_dir_len _ _ Hok) in Hrange; lia |].
  all: destruct (ok_slots _ _ Hok _ _ Hp)
         as (b & Hb & Hsz & Hdep & Hcap & Hshare & Hitems).
  all: simpl; rewrite IndexOf_int_small by lia; simpl.
  all: unfold dir_at, deref; rewrite Hp; simpl; rewrite Hb; simpl.
  all: destruct (IsFull b) eqn:HF; [|by eexists].
  all: destruct (Hfull p b Hp Hb HF) as [Hnot Hm].
  all: assert (Hdeep : depth_ b < n).
  1,3: destruct (Z.lt_ge_cases (depth_ b) n) as [|Hge]; [done |];
       exfalso; apply Hnot; apply Forall_forall; intros item Hin;
       apply agree_low_le with (depth_ b); [lia |];
       eapply agree_low_trans; [by apply Hitems |];
       rewrite Z2Nat.id by lia;
       apply agree_low_sym;
       eapply agree_low_le; [|apply IndexOf_agree, (ok_depth _ _ Hok)]; lia.
  - lia.
  - rewrite (split_int_small t key p b) by (done || lia).
    destruct (split_spec t key p b Hok Hp Hb)
      as (t1 & p1 & b1 & Hsplit & Hok1 & _ & Hp1 & Hb1 & Hdep1 & Hsz1 & Hlist1).
    pose proof (split_depth t t1 key p b Hp Hb Hsplit) as Hgd1.
    rewrite Hsplit. simpl. apply IH; [done | | done |].
    { destruct (Z.eqb_spec (depth_ b) (global_depth_ t)); lia. }
    intros p' b' Hp' Hb' HF'.
    rewrite Hp1 in Hp'. injection Hp' as <-.
    rewrite Hb1 in Hb'. injection Hb' as <-.
    rewrite Hdep1. split; [|lia].
    unfold IsFull in HF'. apply Z.eqb_eq in HF'.
    rewrite Hlist1 in HF' |- *.
    rewrite filter_keeps_all; [done |]. lia.
Qed.

(** A full target bucket whose keys all have the 30 low-order hash bits
    of the new key is handed on by every split until its depth is 30;
    the next iteration doubles a directory of [2^30] slots. *)
Lemma split_loop_int_overflows (key : K) (fuel : nat) (t : Table) (p : nat) (b : Bucket) :
  table_ok hash t → global_depth_ t ≤ 30 →
  dir_ t !! Z.to_nat (IndexOf hash t key) = Some p → heap_ t !! p = Some b →
  IsFull b = true →
  Forall (λ item, agree_low 30 (hash item.1) (hash key)) (list_ b) →
  split_loop_int hash fuel t key =
    if 31 - depth_ b <=? Z.of_nat fuel then Undefined else OutOfFuel.
Proof.
  revert t p b. induction fuel as [|fuel IH]; intros t p b Hok Hgd Hp Hb HF Hsame.
  all: pose proof (ok_depth _ _ Hok) as H0.
  all: destruct (ok_slots _ _ Hok _ _ Hp) as (b0 & Hb0 & _ & Hdep & _).
  all: rewrite Hb in Hb0; injection Hb0 as <-.
  all: simpl split_loop_int; rewrite IndexOf_int_small by lia; simpl.
  all: unfold dir_at, deref; rewrite Hp; simpl; rewrite Hb; simpl; rewrite HF.
  - by destruct (Z.leb_spec (31 - depth_ b) (Z.of_nat 0)); [lia |].
  - destruct (decide (depth_ b = 30)) as [H30|Hlt].
    + rewrite (split_int_overflow t key p b) by (done || lia). simpl.
      by destruct (Z.leb_spec (31 - depth_ b) (Z.of_nat (S fuel))); [|lia].
    + rewrite (split_int_small t key p b) by (done || lia).
      destruct (split_spec t key p b Hok Hp Hb)
        as (t1 & p1 & b1 & Hsplit & Hok1 & _ & Hp1 & Hb1 & Hdep1 & Hsz1 & Hlist1).
      pose proof (split_depth t t1 key p b Hp Hb Hsplit) as Hgd1.
      assert (Hall : list_ b1 = list_ b).
      { rewrite Hlist1. apply filter_all.
        eapply Forall_impl; [exact Hsame |]. intros item Hitem. simpl.
        apply Hitem. lia. }
      rewrite Hsplit. simpl. rewrite (IH t1 p1 b1); try done.
      * rewrite Hdep1.
        destruct (Z.leb_spec (31 - (depth_ b + 1)) (Z.of_nat fuel));
          destruct (Z.leb_spec (31 - depth_ b) (Z.of_nat (S fuel))); done || lia.
      * destruct (Z.eqb_spec (depth_ b) (global_depth_ t)); lia.
      * unfold IsFull in *. by rewrite Hsz1, Hall.
      * by rewrite Hall.
Qed.

(** C9. With a bucket capacity of at least one, in a state of global
    depth at most 30, [Insert] returns whenever the keys of the target
    bucket and the new key do not all have the same [n] low-order hash
    bits, for some [n] of at most 30: the split loop runs at most [n]
    times, no [int] of the run overflows, and the global depth stays at
    most 30. *)
Theorem insert_terminates
    (bucket_size : Z) (t : Table) (key : K) (value : V) (n : Z) :
  1 ≤ bucket_size → reachable hash bucket_size t → GetGlobalDepth t ≤ 30 →
  0 ≤ n ≤ 30 → ¬ all_agree hash n t key →
  ∃ t', Insert_int hash (Z.to_nat n) t key value = Done t' ∧
        Insert hash (Z.to_nat n) t key value = Done t' ∧
        GetGlobalDepth t' ≤ 30.
Proof.
  intros Hsize Hreach Hgd Hn Hnot. unfold GetGlobalDepth in *.
  assert (Hok : table_ok hash t) by (apply (reachable_ok bucket_size); [lia | done]).
  destruct (split_loop_int_terminates n key (Z.to_nat n) t Hok Hgd)
    as (t1 & Hloop_int & Hloop & Hok1 & Hgd1); [lia | |].
  { intros p b Hp Hb _. unfold all_agree, target_items in Hnot.
    rewrite Hp, Hb in Hnot. split; [done |].
    destruct (ok_slots _ _ Hok _ _ Hp) as (b0 & Hb0 & _ & Hdep & _).
    rewrite Hb in Hb0. injection Hb0 as <-. lia. }
  destruct (split_loop_exit _ _ _ _ Hloop) as (p & b & Hp & Hb & _).
  pose proof (ok_depth _ _ Hok1) as H0.
  unfold Insert_int, Insert. rewrite Hloop_int, Hloop. simpl.
  rewrite IndexOf_int_small by lia. simpl.
  unfold dir_at, deref. rewrite Hp. simpl. rewrite Hb. simpl.
  destruct (assign key value (list_ b)); by eexists.
Qed.

(** ** A full collision keeps the loop running *)

(** When the target bucket is full of keys with the hash value of the
    new key, every split hands the whole bucket on, and the loop never
    exits. *)
Lemma split_loop_diverges (key : K) (fuel : nat) (t : Table) (p : nat) (b : Bucket) :
  table_ok hash t →
  dir_ t !! Z.to_nat (IndexOf hash t key) = Some p → heap_ t !! p = Some b →
  IsFull b = true →
  Forall (λ item, hash item.1 = hash key) (list_ b) →
  split_loop hash fuel t key = OutOfFuel.
Proof.
  revert t p b. induction fuel as [|fuel IH]; intros t p b Hok Hp Hb HF Hsame;
    simpl; unfold dir_at, deref; rewrite Hp; simpl; rewrite Hb; simpl; rewrite HF;
    [done |].
  destruct (split_spec t key p b Hok Hp Hb)
    as (t1 & p1 & b1 & -> & Hok1 & _ & Hp1 & Hb1 & Hdep1 & Hsz1 & Hlist1).
  simpl. apply (IH t1 p1 b1); try done.
  - unfold IsFull in *. rewrite Hsz1, Hlist1, filter_all; [done |].
    eapply Forall_impl; [exact Hsame |]. intros item Hitem. simpl. by rewrite Hitem.
  - rewrite Hlist1, filter_all; [done |].
    eapply Forall_impl; [exact Hsame |]. intros item Hitem. simpl. by rewrite Hitem.
Qed.

Lemma insert_all_reachable
    (bucket_size : Z) (fuel : nat) (t t' : Table) (items : list (K * V)) :
  reachable hash bucket_size t → insert_all hash fuel t items = Done t' →
  reachable hash bucket_size t'.
Proof.
  revert t. induction items as [|item items IH]; intros t Hreach; simpl.
  - by intros [= <-].
  - destruct (Insert hash fuel t item.1 item.2) as [t1| |] eqn:HI; simpl;
      try discriminate.
    apply IH. by eapply reach_Insert.
Qed.

(** * Further properties of the hash table *)

(** ** The table after a split, slot by slot *)

Lemma bit_of_small (r d : Z) : 0 ≤ d → 0 ≤ r < 2 ^ d → Z.testbit r d = false.
Proof.
  intros Hd Hr. apply Z.testbit_false; [done |].
  rewrite Z.div_small by done. done.
Qed.

Lemma bit_of_shifted (r d : Z) : 0 ≤ d → 0 ≤ r < 2 ^ d → Z.testbit (r + 2 ^ d) d = true.
Proof.
  intros Hd Hr. apply Z.testbit_true; [done |].
  replace (r + 2 ^ d) with (r + 1 * 2 ^ d) by lia.
  rewrite Z.div_add by lia. rewrite Z.div_small by done. done.
Qed.

Lemma split_bucket_shape (t : Table) (ip p : nat) (b : Bucket) :
  table_ok hash t → dir_ t !! ip = Some p → heap_ t !! p = Some b →
  let t' := split_bucket hash t p b in
  let n := length (heap_ t) in
  global_depth_ t' = global_depth_ t ∧
  bucket_size_ t' = bucket_size_ t ∧
  num_buckets_ t' = num_buckets_ t + 1 ∧
  (∀ j, dir_ t' !! j =
        (λ q, if decide (q = p)
              then if Z.testbit (Z.of_nat j) (depth_ b) then S n else n
              else q) <$> dir_ t !! j) ∧
  (∀ q, (q < n)%nat → q ≠ p → heap_ t' !! q = heap_ t !! q) ∧
  heap_ t' !! n =
    Some (mkBucket (bucket_size_ t) (depth_ b + 1)
            (filter (λ item, Z.testbit (hash item.1) (depth_ b) = false) (list_ b))) ∧
  heap_ t' !! S n =
    Some (mkBucket (bucket_size_ t) (depth_ b + 1)
            (filter (λ item, Z.testbit (hash item.1) (depth_ b) = true) (list_ b))).
Proof.
  intros Hok Hip Hb t' n. subst t'.
  destruct (ok_slots _ _ Hok _ _ Hip) as (b0 & Hb0 & Hsz & Hdep & Hcap & _).
  rewrite Hb in Hb0. injection Hb0 as <-.
  rewrite split_bucket_eq by lia. cbn [global_depth_ bucket_size_ num_buckets_ dir_ heap_].
  assert (Hlen' : length (<[p := IncrementDepth b]> (heap_ t)) = n)
    by apply length_insert.
  split; [done |]. split; [done |]. split; [done |]. split; [|split; [|split]].
  - intros j. rewrite list_lookup_imap.
    destruct (dir_ t !! j) as [q|]; simpl; [|done]. f_equal.
    unfold rewire. destruct (decide (q = p)); [|done].
    rewrite mask_is_bit by lia. by destruct (Z.testbit (Z.of_nat j) (depth_ b)).
  - intros q Hq Hne. rewrite lookup_app_l by lia. by apply list_lookup_insert_ne.
  - rewrite lookup_app_r by lia. rewrite Hlen', Nat.sub_diag. simpl. do 2 f_equal.
    apply list_filter_iff. intros item. by apply mask_bit_clear; lia.
  - rewrite lookup_app_r by lia. rewrite Hlen'.
    replace (S n - n)%nat with 1%nat by lia. simpl. do 2 f_equal.
    apply list_filter_iff. intros item. rewrite mask_bit_clear by lia.
    by destruct (Z.testbit (hash item.1) (depth_ b)).
Qed.

(** ** The further invariants hold initially and are preserved *)

Lemma new_table_wf (bucket_size : Z) :
  0 ≤ bucket_size → table_wf hash (new_table bucket_size : Table).
Proof.
  intros Hsize. constructor.
  - by apply new_table_ok.
  - intros [|i] p b; simpl; [|by destruct i]. intros [= <-] [= <-]. constructor.
  - intros i [|j] p b; simpl; [|lia]. by destruct i as [|[|i]].
  - reflexivity.
Qed.

Lemma lookup_doubled_image (dir : list nat) (j : nat) :
  (j < length (dir ++ dir))%nat →
  ∃ j0, (j0 < length dir)%nat ∧ (j = j0 ∨ j = (j0 + length dir)%nat) ∧
        (dir ++ dir) !! j = dir !! j0.
Proof.
  rewrite length_app. intros Hj.
  destruct (decide (j < length dir)%nat) as [Hlt|Hge].
  - exists j. split; [done |]. split; [by left |]. by apply lookup_app_l.
  - exists (j - length dir)%nat. split; [lia |]. split; [right; lia |].
    apply lookup_app_r. lia.
Qed.

Lemma grow_wf (t : Table) : table_wf hash t → table_wf hash (grow t).
Proof.
  intros [Hok Hkeys Hshare Hcount]. pose proof Hok as [Hd Hlen Hslots].
  assert (Himg : ∀ j, (j < length (dir_ t ++ dir_ t))%nat →
            ∃ j0, (j0 < length (dir_ t))%nat ∧
                  (dir_ t ++ dir_ t) !! j = dir_ t !! j0 ∧
                  ∀ d, 0 ≤ d ≤ global_depth_ t →
                       agree_low d (Z.of_nat j0) (Z.of_nat j)).
  { intros j Hj. destruct (lookup_doubled_image _ _ Hj) as (j0 & Hj0 & [-> | ->] & Heq).
    - exists j0. split; [done |]. split; [done |]. intros d _. apply agree_low_refl.
    - exists j0. split; [done |]. split; [done |]. intros d Hdd.
      rewrite Nat2Z.inj_add, Hlen. by apply agree_low_shift. }
  constructor.
  - by apply grow_ok.
  - intros i p b Hi Hb. simpl in *.
    destruct (Himg i) as (i0 & _ & Heq & _); [by eapply lookup_lt_Some |].
    rewrite Heq in Hi. by eapply Hkeys.
  - intros i j p b Hi Hb Hj Hagree. simpl in *.
    destruct (Himg i) as (i0 & _ & Heqi & Hai); [by eapply lookup_lt_Some |].
    destruct (Himg j Hj) as (j0 & Hj0 & Heqj & Haj).
    rewrite Heqi in Hi. rewrite Heqj.
    destruct (Hslots _ _ Hi) as (b0 & Hb0 & _ & Hdep & _).
    rewrite Hb in Hb0. injection Hb0 as <-.
    apply (Hshare i0 j0 p b); try done.
    eapply agree_low_trans; [apply Hai; lia |].
    eapply agree_low_trans; [exact Hagree |]. apply agree_low_sym, Haj. lia.
  - unfold live_buckets in *. simpl. rewrite list_to_set_app_L.
    by rewrite (idemp_L (∪)).
Qed.

Lemma update_bucket_wf (t : Table) (p : nat) (b b' : Bucket) :
  table_wf hash t → heap_ t !! p = Some b →
  size_ b' = size_ b → depth_ b' = depth_ b →
  Z.of_nat (length (list_ b')) ≤ size_ b →
  (∀ item i, item ∈ list_ b' → dir_ t !! i = Some p →
             agree_low (depth_ b) (hash item.1) (Z.of_nat i)) →
  NoDup (list_ b').*1 →
  table_wf hash (set_heap t (<[p := b']> (heap_ t))).
Proof.
  intros [Hok Hkeys Hshare Hcount] Hb Hsz Hdep Hcap Hitems Hnodup.
  assert (Hp : (p < length (heap_ t))%nat) by (by eapply lookup_lt_Some).
  constructor.
  - by apply update_bucket_ok with b.
  - intros i q bq Hi. simpl in *.
    destruct (decide (q = p)) as [->|Hne].
    + rewrite list_lookup_insert_eq by done. by intros [= <-].
    + rewrite list_lookup_insert_ne by done. by apply Hkeys with i.
  - intros i j q bq Hi. simpl in *.
    destruct (decide (q = p)) as [->|Hne].
    + rewrite list_lookup_insert_eq by done. intros [= <-] Hj Hagree.
      rewrite Hdep in Hagree. by apply (Hshare i j p b).
    + rewrite list_lookup_insert_ne by done. by apply Hshare.
  - done.
Qed.

Lemma split_bucket_wf (t : Table) (ip p : nat) (b : Bucket) :
  table_wf hash t → dir_ t !! ip = Some p → heap_ t !! p = Some b →
  depth_ b < global_depth_ t →
  table_wf hash (split_bucket hash t p b).
Proof.
  intros [Hok Hkeys Hshare Hcount] Hip Hb Hdeep.
  pose proof Hok as [Hd Hlen Hslots].
  destruct (split_bucket_shape t ip p b Hok Hip Hb)
    as (Hgd' & Hbs' & Hnb' & Hdir' & Hold & Hnew1 & Hnew2).
  destruct (Hslots ip p Hip) as (b0 & Hb0 & Hsz & Hdep & Hcap & _).
  rewrite Hb in Hb0. injection Hb0 as <-.
  assert (Hlive : ∀ j q, dir_ t !! j = Some q → (q < length (heap_ t))%nat).
  { intros j q Hj. destruct (Hslots j q Hj) as (bq & Hbq & _).
    by eapply lookup_lt_Some. }
  set (t' := split_bucket hash t p b) in *.
  set (n := length (heap_ t)) in *.
  constructor.
  - by apply split_bucket_ok with ip.
  - (* keys stay unique: the new buckets hold sublists of the old one *)
    intros i q bq Hi Hbq. rewrite Hdir' in Hi.
    destruct (dir_ t !! i) as [q0|] eqn:Hq0; simpl in Hi; [|discriminate].
    injection Hi as <-. pose proof (Hlive _ _ Hq0) as Hq0lt.
    destruct (decide (q0 = p)) as [->|Hne].
    + pose proof (Hkeys _ _ _ Hip Hb) as Hnodup.
      destruct (Z.testbit (Z.of_nat i) (depth_ b)).
      * rewrite Hnew2 in Hbq. injection Hbq as <-. simpl.
        eapply sublist_NoDup; [exact Hnodup |]. apply fmap_sublist, sublist_filter.
      * rewrite Hnew1 in Hbq. injection Hbq as <-. simpl.
        eapply sublist_NoDup; [exact Hnodup |]. apply fmap_sublist, sublist_filter.
    + rewrite Hold in Hbq by done. by apply (Hkeys i q0).
  - (* sharing stays complete *)
    intros i j q bq Hi Hbq Hj Hagree. rewrite Hdir' in Hi |- *.
    assert (Hj' : (j < length (dir_ t))%nat).
    { revert Hj. subst t'. rewrite split_bucket_eq by lia. simpl.
      by rewrite length_imap. }
    destruct (dir_ t !! i) as [q0|] eqn:Hq0; simpl in Hi; [|discriminate].
    injection Hi as <-. pose proof (Hlive _ _ Hq0) as Hq0lt.
    destruct (decide (q0 = p)) as [->|Hne].
    + assert (Hbq' : depth_ bq = depth_ b + 1).
      { destruct (Z.testbit (Z.of_nat i) (depth_ b)).
        - rewrite Hnew2 in Hbq. by injection Hbq as <-.
        - rewrite Hnew1 in Hbq. by injection Hbq as <-. }
      rewrite Hbq' in Hagree.
      rewrite (Hshare i j p b Hq0 Hb Hj'); [|eapply agree_low_le; [|exact Hagree]; lia].
      simpl. rewrite decide_True by done.
      by rewrite (Hagree (depth_ b)) by lia.
    + rewrite Hold in Hbq by done.
      rewrite (Hshare i j q0 bq Hq0 Hbq Hj' Hagree). simpl.
      by rewrite decide_False.
  - (* one bucket leaves the directory and two enter it *)
    rewrite Hnb', <- Hcount.
    assert (Hp_live : p ∈ live_buckets t).
    { apply elem_of_list_to_set, list_elem_of_lookup. eauto. }
    assert (Hbound : ∀ q, q ∈ live_buckets t → (q < n)%nat).
    { intros q [j Hj]%elem_of_list_to_set%list_elem_of_lookup. by eapply Hlive. }
    assert (Hset : live_buckets t' = {[n]} ∪ ({[S n]} ∪ live_buckets t ∖ {[p]})).
    { apply set_eq. intros q.
      rewrite !elem_of_union, elem_of_difference, !elem_of_singleton.
      unfold live_buckets. rewrite !elem_of_list_to_set, !list_elem_of_lookup.
      split.
      - intros [j Hj]. rewrite Hdir' in Hj.
        destruct (dir_ t !! j) as [q0|] eqn:Hq0; simpl in Hj; [|discriminate].
        injection Hj as <-. destruct (decide (q0 = p)) as [->|Hne].
        + destruct (Z.testbit (Z.of_nat j) (depth_ b)); auto.
        + right. right. eauto.
      - pose proof (Z.mod_pos_bound (Z.of_nat ip) (2 ^ depth_ b) ltac:(lia)) as Hr.
        assert (Hpow : 2 ^ (depth_ b + 1) ≤ 2 ^ global_depth_ t)
          by (apply Z.pow_le_mono_r; lia).
        rewrite Z.pow_add_r, Z.pow_1_r in Hpow by lia.
        assert (Hlow : agree_low (depth_ b) (Z.of_nat ip)
                         (Z.of_nat ip mod 2 ^ depth_ b)).
        { intros m Hm. symmetry. apply Z.mod_pow2_bits_low. lia. }
        intros [-> | [-> | [[j Hj] Hne]]].
        + exists (Z.to_nat (Z.of_nat ip mod 2 ^ depth_ b)). rewrite Hdir'.
          rewrite (Hshare ip _ p b Hip Hb); [| lia | by rewrite Z2Nat.id by lia].
          simpl. rewrite decide_True by done.
          rewrite Z2Nat.id by lia. by rewrite bit_of_small by lia.
        + exists (Z.to_nat (Z.of_nat ip mod 2 ^ depth_ b + 2 ^ depth_ b)).
          rewrite Hdir'.
          rewrite (Hshare ip _ p b Hip Hb); [| lia |].
          * simpl. rewrite decide_True by done.
            rewrite Z2Nat.id by lia. by rewrite bit_of_shifted by lia.
          * rewrite Z2Nat.id by lia.
            eapply agree_low_trans; [exact Hlow |]. apply agree_low_shift. lia.
        + exists j. rewrite Hdir', Hj. simpl. by rewrite decide_False. }
    rewrite Hset.
    assert (D2 : ({[S n]} : gset nat) ## live_buckets t ∖ {[p]}).
    { intros q Hq1 Hq2. apply elem_of_singleton in Hq1 as ->.
      apply elem_of_difference in Hq2 as [Hq2 _]. apply Hbound in Hq2. lia. }
    assert (D1 : ({[n]} : gset nat) ## {[S n]} ∪ live_buckets t ∖ {[p]}).
    { intros q Hq1 Hq2. apply elem_of_singleton in Hq1 as ->.
      apply elem_of_union in Hq2 as [Hq2|Hq2].
      - apply elem_of_singleton in Hq2. lia.
      - apply elem_of_difference in Hq2 as [Hq2 _]. apply Hbound in Hq2. lia. }
    rewrite (size_union _ _ D1), (size_union _ _ D2), !size_singleton.
    rewrite size_difference by (by apply singleton_subseteq_l).
    rewrite size_singleton.
    assert (size (live_buckets t) ≠ 0%nat).
    { intros Hz. apply size_empty_inv in Hz. rewrite Hz in Hp_live.
      by apply elem_of_empty in Hp_live. }
    lia.
Qed.

Lemma split_wf (t t' : Table) (key : K) :
  table_wf hash t → split hash t key = Done t' → table_wf hash t'.
Proof.
  intros Hwf. unfold split, dir_at, deref.
  destruct (dir_ t !! Z.to_nat (IndexOf hash t key)) as [p|] eqn:Hp;
    simpl; [|discriminate].
  destruct (heap_ t !! p) as [b|] eqn:Hb; simpl; [|discriminate].
  intros [= <-].
  destruct (ok_slots _ _ (wf_ok _ _ Hwf) _ _ Hp) as (b0 & Hb0 & _ & Hdep & _).
  rewrite Hb in Hb0. injection Hb0 as <-. unfold GetDepth.
  destruct (Z.eqb_spec (depth_ b) (global_depth_ t)) as [Heq|Hne].
  - apply split_bucket_wf with (Z.to_nat (IndexOf hash (grow t) key)).
    + by apply grow_wf.
    + apply grow_target; [apply (wf_ok _ _ Hwf) | done].
    + done.
    + simpl. lia.
  - apply split_bucket_wf with (Z.to_nat (IndexOf hash t key)); try done. lia.
Qed.

Lemma split_loop_wf (fuel : nat) (t t' : Table) (key : K) :
  table_wf hash t → split_loop hash fuel t key = Done t' → table_wf hash t'.
Proof.
  revert t. induction fuel as [|fuel IH]; intros t Hwf; simpl;
    unfold dir_at, deref;
    destruct (dir_ t !! Z.to_nat (IndexOf hash t key)) as [p|] eqn:Hp;
    simpl; try discriminate;
    destruct (heap_ t !! p) as [b|] eqn:Hb; simpl; try discriminate;
    destruct (IsFull b) eqn:Hfull; try discriminate;
    try (by intros [= <-]).
  destruct (split hash t key) as [t1| |] eqn:Hsplit; simpl; try discriminate.
  apply IH. by eapply split_wf.
Qed.

Lemma assign_fst (key : K) (value : V) (l l' : list (K * V)) :
  assign key value l = Some l' → l'.*1 = l.*1.
Proof.
  revert l'. induction l as [|item l IH]; intros l'; simpl; [discriminate |].
  destruct (decide (item.1 = key)); [by intros [= <-] |].
  destruct (assign key value l) as [l0|]; simpl; [|discriminate].
  intros [= <-]. simpl. f_equal. by apply IH.
Qed.

Lemma assign_not_stored (key : K) (value : V) (l : list (K * V)) :
  assign key value l = None → key ∉ l.*1.
Proof.
  induction l as [|item l IH]; simpl.
  - intros _ Hin. by apply elem_of_nil in Hin.
  - destruct (decide (item.1 = key)) as [Heq|Hne]; [discriminate |].
    destruct (assign key value l); [discriminate |]. intros _.
    intros [Hk|Hin]%elem_of_cons; [congruence | by apply IH].
Qed.

Lemma Insert_wf (fuel : nat) (t t' : Table) (key : K) (value : V) :
  table_wf hash t → Insert hash fuel t key value = Done t' → table_wf hash t'.
Proof.
  intros Hwf. unfold Insert.
  destruct (split_loop hash fuel t key) as [t1| |] eqn:Hloop; simpl; try discriminate.
  pose proof (split_loop_wf _ _ _ _ Hwf Hloop) as Hwf1.
  pose proof (wf_ok _ _ Hwf1) as Hok1.
  destruct (split_loop_exit _ _ _ _ Hloop) as (p & b & Hp & Hb & Hfull).
  unfold dir_at, deref. rewrite Hp. simpl. rewrite Hb. simpl.
  destruct (ok_slots _ _ Hok1 _ _ Hp) as (b0 & Hb0 & Hsz & Hdep & Hcap & Hshare & Hitems).
  rewrite Hb in Hb0. injection Hb0 as <-.
  pose proof (wf_keys _ _ Hwf1 _ _ _ Hp Hb) as Hnodup.
  assert (Hitems_all : ∀ item i, item ∈ list_ b → dir_ t1 !! i = Some p →
            agree_low (depth_ b) (hash item.1) (Z.of_nat i)).
  { intros item i Hin Hi.
    eapply agree_low_trans; [by apply Hitems | by apply Hshare]. }
  destruct (assign key value (list_ b)) as [l'|] eqn:Hassign; intros [= <-].
  - apply update_bucket_wf with b; simpl; try done.
    + by rewrite (assign_length _ _ _ _ Hassign).
    + intros item' i Hin' Hi.
      destruct (assign_keys _ _ _ _ _ Hassign Hin') as (item & Hin & <-).
      by apply Hitems_all.
    + by rewrite (assign_fst _ _ _ _ Hassign).
  - unfold Bucket_Insert. rewrite Hfull. simpl.
    apply update_bucket_wf with b; simpl; try done.
    + rewrite length_app. simpl. unfold IsFull in Hfull.
      apply Z.eqb_neq in Hfull. lia.
    + intros item i [Hin | ->%list_elem_of_singleton]%elem_of_app Hi;
        [by apply Hitems_all |]. simpl.
      pose proof (IndexOf_range t1 key (ok_depth _ _ Hok1)) as Hrange.
      eapply agree_low_trans; [|by apply Hshare].
      rewrite Z2Nat.id by lia.
      eapply agree_low_le; [|apply IndexOf_agree, (ok_depth _ _ Hok1)]. lia.
    + rewrite fmap_app. simpl. apply NoDup_app. split; [done |]. split.
      * intros k Hk ->%list_elem_of_singleton.
        by apply (assign_not_stored _ _ _ Hassign).
      * apply NoDup_singleton.
Qed.

Lemma Remove_wf (t t' : Table) (key : K) (r : bool) :
  table_wf hash t → Remove hash t key = Done (r, t') → table_wf hash t'.
Proof.
  intros Hwf. pose proof (wf_ok _ _ Hwf) as Hok. unfold Remove, dir_at, deref.
  destruct (dir_ t !! Z.to_nat (IndexOf hash t key)) as [p|] eqn:Hp;
    simpl; [|discriminate].
  destruct (heap_ t !! p) as [b|] eqn:Hb; simpl; [|discriminate].
  destruct (ok_slots _ _ Hok _ _ Hp) as (b0 & Hb0 & Hsz & Hdep & Hcap & Hshare & Hitems).
  rewrite Hb in Hb0. injection Hb0 as <-.
  pose proof (wf_keys _ _ Hwf _ _ _ Hp Hb) as Hnodup.
  unfold Bucket_Remove.
  destruct (find_pair key (list_ b)) as [item|]; intros [= <- <-].
  - apply update_bucket_wf with b; simpl; try done.
    + pose proof (length_filter (λ q, q ≠ item) (list_ b)). lia.
    + intros item' i [_ Hin]%list_elem_of_filter Hi.
      eapply agree_low_trans; [by apply Hitems | by apply Hshare].
    + eapply sublist_NoDup; [exact Hnodup |]. apply fmap_sublist, sublist_filter.
  - apply update_bucket_wf with b; simpl; try done.
    intros item' i Hin Hi.
    eapply agree_low_trans; [by apply Hitems | by apply Hshare].
Qed.

Lemma reachable_wf (bucket_size : Z) (t : Table) :
  0 ≤ bucket_size → reachable hash bucket_size t → table_wf hash t.
Proof.
  intros Hsize. induction 1 as [|t fuel key value t' _ IH HI|t key r t' _ IH HR|];
    [by apply new_table_wf | by eapply Insert_wf | by eapply Remove_wf | done].
Qed.

(** ** Searching a bucket *)

Lemma find_pair_Some (key : K) (l : list (K * V)) (item : K * V) :
  find_pair key l = Some item → item ∈ l ∧ item.1 = key.
Proof.
  induction l as [|x l IH]; simpl; [discriminate |].
  destruct (decide (x.1 = key)) as [Heq|Hne].
  - intros [= <-]. split; [apply list_elem_of_here | done].
  - intros [Hin Hk]%IH. split; [by apply list_elem_of_further | done].
Qed.

Lemma find_pair_None (key : K) (l : list (K * V)) :
  find_pair key l = None ↔ key ∉ l.*1.
Proof.
  induction l as [|x l IH]; simpl.
  - split; [|done]. intros _ Hin. by apply elem_of_nil in Hin.
  - rewrite not_elem_of_cons. destruct (decide (x.1 = key)) as [Heq|Hne].
    + split; [discriminate | intros [Hne _]; congruence].
    + rewrite IH. split; [intros ?; split; [congruence | done] | by intros [_ ?]].
Qed.

Lemma find_pair_unique (key : K) (value : V) (l : list (K * V)) :
  NoDup l.*1 → (key, value) ∈ l → find_pair key l = Some (key, value).
Proof.
  induction l as [|x l IH]; simpl.
  - intros _ Hin. by apply elem_of_nil in Hin.
  - intros [Hx Hnodup]%NoDup_cons [<-|Hin]%elem_of_cons.
    + simpl. by rewrite decide_True.
    + destruct (decide (x.1 = key)) as [Heq|Hne]; [|by apply IH].
      exfalso. apply Hx. rewrite Heq.
      apply list_elem_of_fmap. by exists (key, value).
Qed.

Lemma find_pair_filter (key : K) (P : K * V → Prop) `{!∀ x, Decision (P x)}
    (l : list (K * V)) :
  (∀ item, item ∈ l → item.1 = key → P item) →
  find_pair key (filter P l) = find_pair key l.
Proof.
  induction l as [|x l IH]; [done |]. intros HP.
  assert (IH' : find_pair key (filter P l) = find_pair key l).
  { apply IH. intros item Hin. apply HP. by apply list_elem_of_further. }
  destruct (decide (P x)) as [Hx|Hx].
  - rewrite filter_cons_True by done. simpl. by rewrite IH'.
  - rewrite filter_cons_False by done. simpl.
    destruct (decide (x.1 = key)) as [Heq|Hne]; [|done].
    exfalso. apply Hx, HP; [apply list_elem_of_here | done].
Qed.

Lemma find_pair_assign_other (key key' : K) (value : V) (l l' : list (K * V)) :
  key' ≠ key → assign key value l = Some l' → find_pair key' l' = find_pair key' l.
Proof.
  intros Hne. revert l'. induction l as [|x l IH]; intros l'; simpl; [discriminate |].
  destruct (decide (x.1 = key)) as [Heq|Hneq].
  - intros [= <-]. simpl. rewrite Heq.
    by rewrite !decide_False by (intros ?; by apply Hne).
  - destruct (assign key value l) as [l0|]; simpl; [|discriminate].
    intros [= <-]. simpl. destruct (decide (x.1 = key')); [done | by apply IH].
Qed.

Lemma find_pair_snoc_other (key key' : K) (value : V) (l : list (K * V)) :
  key' ≠ key → find_pair key' (l ++ [(key, value)]) = find_pair key' l.
Proof.
  intros Hne. induction l as [|x l IH]; simpl.
  - by rewrite decide_False by (intros ?; by apply Hne).
  - by destruct (decide (x.1 = key')).
Qed.

(** ** Lookups across a change of the table *)

Lemma IndexOf_same_depth (t t' : Table) (key : K) :
  global_depth_ t' = global_depth_ t → IndexOf hash t' key = IndexOf hash t key.
Proof. intros Hgd. unfold IndexOf. by rewrite Hgd. Qed.

(** [Find] after the items of one bucket were replaced. *)
Lemma Find_update_bucket (t : Table) (p : nat) (b b' : Bucket) (key : K) :
  heap_ t !! p = Some b →
  find_pair key (list_ b') = find_pair key (list_ b) →
  Find hash (set_heap t (<[p := b']> (heap_ t))) key = Find hash t key.
Proof.
  intros Hb Hfind.
  assert (Hp : (p < length (heap_ t))%nat) by (by eapply lookup_lt_Some).
  unfold Find, dir_at, deref, IndexOf. simpl.
  destruct (dir_ t !! _) as [q|]; simpl; [|done].
  destruct (decide (q = p)) as [->|Hne].
  - rewrite list_lookup_insert_eq by done. rewrite Hb. simpl.
    unfold Bucket_Find. by rewrite Hfind.
  - by rewrite list_lookup_insert_ne by done.
Qed.

(** Two keys directed to the same bucket cause the same split. *)
Lemma split_same_target (t : Table) (key key' : K) :
  dir_ t !! Z.to_nat (IndexOf hash t key') = dir_ t !! Z.to_nat (IndexOf hash t key) →
  split hash t key' = split hash t key.
Proof. intros Heq. unfold split, dir_at. by rewrite Heq. Qed.

(** A split moves no key out of the reach of [Find]. *)
Lemma split_find (t t' : Table) (key key' : K) :
  table_ok hash t → split hash t key = Done t' →
  Find hash t' key' = Find hash t key'.
Proof.
  intros Hok Hsplit. pose proof Hok as [Hd Hlen Hslots].
  pose proof (IndexOf_range t key' Hd) as Hrange'.
  destruct (lookup_lt_is_Some_2 (dir_ t) (Z.to_nat (IndexOf hash t key')))
    as [q Hq]; [lia |].
  destruct (Hslots _ _ Hq) as (bq & Hbq & _).
  assert (HF : Find hash t key' = Done (Bucket_Find bq key')).
  { unfold Find, dir_at, deref. rewrite Hq. simpl. by rewrite Hbq. }
  rewrite HF.
  pose proof (IndexOf_range t key Hd) as Hrange.
  destruct (lookup_lt_is_Some_2 (dir_ t) (Z.to_nat (IndexOf hash t key)))
    as [p Hp]; [lia |].
  destruct (Hslots _ _ Hp) as (b & Hb & _ & Hdep & _).
  destruct (decide (q = p)) as [->|Hne].
  - (* the key lives in the bucket that is split *)
    rewrite Hb in Hbq. injection Hbq as <-.
    rewrite <- (split_same_target t key key') in Hsplit by congruence.
    destruct (split_spec t key' p b Hok Hq Hb)
      as (t1 & p1 & b1 & Hsplit1 & _ & _ & Hp1 & Hb1 & _ & _ & Hlist1).
    rewrite Hsplit in Hsplit1. injection Hsplit1 as <-.
    unfold Find, dir_at, deref. rewrite Hp1. simpl. rewrite Hb1. simpl.
    unfold Bucket_Find. rewrite Hlist1, find_pair_filter; [done |].
    intros item _ Hitem. by rewrite Hitem.
  - (* the key lives elsewhere *)
    revert Hsplit. unfold split, dir_at, deref. rewrite Hp. simpl.
    rewrite Hb. simpl. intros [= <-].
    set (t1 := if GetDepth b =? global_depth_ t then grow t else t).
    assert (Ht1 : table_ok hash t1 ∧ heap_ t1 = heap_ t ∧
                  dir_ t1 !! Z.to_nat (IndexOf hash t1 key) = Some p ∧
                  dir_ t1 !! Z.to_nat (IndexOf hash t1 key') = Some q).
    { subst t1. destruct (GetDepth b =? global_depth_ t).
      - split; [by apply grow_ok |]. split; [done |].
        split; by apply grow_target.
      - done. }
    destruct Ht1 as (Hok1 & Hheap1 & Hp1 & Hq1).
    rewrite <- Hheap1 in Hb, Hbq.
    destruct (split_bucket_shape t1 _ p b Hok1 Hp1 Hb)
      as (Hgd' & _ & _ & Hdir' & Hold & _).
    unfold Find, dir_at, deref.
    rewrite (IndexOf_same_depth _ _ _ Hgd'), Hdir', Hq1. simpl.
    rewrite decide_False by done. simpl.
    rewrite Hold; [by rewrite Hbq | by eapply lookup_lt_Some | done].
Qed.

Lemma split_loop_find (fuel : nat) (t t' : Table) (key key' : K) :
  table_ok hash t → split_loop hash fuel t key = Done t' →
  Find hash t' key' = Find hash t key'.
Proof.
  revert t. induction fuel as [|fuel IH]; intros t Hok; simpl;
    unfold dir_at, deref;
    destruct (dir_ t !! Z.to_nat (IndexOf hash t key)) as [p|] eqn:Hp;
    simpl; try discriminate;
    destruct (heap_ t !! p) as [b|] eqn:Hb; simpl; try discriminate;
    destruct (IsFull b) eqn:Hfull; try discriminate;
    try (by intros [= <-]).
  destruct (split_spec t key p b Hok Hp Hb) as (t1 & _ & _ & Hsplit & Hok1 & _).
  rewrite Hsplit. simpl. intros Hloop.
  rewrite (IH t1 Hok1 Hloop). by eapply split_find.
Qed.

Lemma NoDup_fst_inj (l : list (K * V)) (x y : K * V) :
  NoDup l.*1 → x ∈ l → y ∈ l → x.1 = y.1 → x = y.
Proof.
  induction l as [|z l IH]; simpl.
  - intros _ Hx. by apply elem_of_nil in Hx.
  - intros [Hz Hnodup]%NoDup_cons [->|Hx]%elem_of_cons [->|Hy]%elem_of_cons Heq.
    + done.
    + exfalso. apply Hz. rewrite Heq. by apply list_elem_of_fmap_2.
    + exfalso. apply Hz. rewrite <- Heq. by apply list_elem_of_fmap_2.
    + by apply IH.
Qed.

Lemma split_loop_defined (fuel : nat) (t : Table) (key : K) :
  table_ok hash t → split_loop hash fuel t key ≠ Undefined.
Proof.
  revert t. induction fuel as [|fuel IH]; intros t Hok.
  all: pose proof (IndexOf_range t key (ok_depth _ _ Hok)) as Hrange.
  all: destruct (lookup_lt_is_Some_2 (dir_ t) (Z.to_nat (IndexOf hash t key)))
         as [p Hp]; [rewrite <- (ok_dir_len _ _ Hok) in Hrange; lia |].
  all: destruct (ok_slots _ _ Hok _ _ Hp) as (b & Hb & _).
  all: simpl; unfold dir_at, deref; rewrite Hp; simpl; rewrite Hb; simpl.
  all: destruct (IsFull b); try done.
  destruct (split_spec t key p b Hok Hp Hb) as (t1 & _ & _ & -> & Hok1 & _).
  simpl. by apply IH.
Qed.

Lemma split_grows (t t' : Table) (key : K) :
  split hash t key = Done t' →
  global_depth_ t ≤ global_depth_ t' ≤ global_depth_ t + 1 ∧
  num_buckets_ t' = num_buckets_ t + 1 ∧
  (length (dir_ t) ≤ length (dir_ t'))%nat.
Proof.
  unfold split, dir_at, deref.
  destruct (dir_ t !! _) as [p|]; simpl; [|discriminate].
  destruct (heap_ t !! p) as [b|]; simpl; [|discriminate].
  intros [= <-]. unfold split_bucket. cbn [global_depth_ num_buckets_ dir_].
  rewrite length_imap.
  destruct (GetDepth b =? global_depth_ t); simpl; [rewrite length_app |]; lia.
Qed.

Lemma split_loop_grows (fuel : nat) (t t' : Table) (key : K) :
  split_loop hash fuel t key = Done t' →
  global_depth_ t ≤ global_depth_ t' ∧
  num_buckets_ t ≤ num_buckets_ t' ∧
  (length (dir_ t) ≤ length (dir_ t'))%nat ∧
  global_depth_ t' - global_depth_ t ≤ num_buckets_ t' - num_buckets_ t.
Proof.
  revert t. induction fuel as [|fuel IH]; intros t; simpl;
    unfold dir_at, deref;
    destruct (dir_ t !! Z.to_nat (IndexOf hash t key)) as [p|] eqn:Hp;
    simpl; try discriminate;
    destruct (heap_ t !! p) as [b|] eqn:Hb; simpl; try discriminate;
    destruct (IsFull b) eqn:Hfull; try discriminate;
    try (intros [= <-]; lia).
  destruct (split hash t key) as [t1| |] eqn:Hsplit; simpl; try discriminate.
  intros Hloop. apply IH in Hloop. apply split_grows in Hsplit. lia.
Qed.

(** ** The checked run and the run in [Z]

    The checked [Insert] returns exactly on the runs of [Insert] that
    end at a global depth of at most 30, and with the same table. *)

Lemma IndexOf_int_Done (t : Table) (key : K) (i : Z) :
  IndexOf_int hash t key = Done i →
  i = IndexOf hash t key ∧ global_depth_ t ≤ 30.
Proof.
  unfold IndexOf_int, IndexOf, shl1_int.
  destruct (Z.leb_spec 0 (global_depth_ t)); simpl; [|discriminate].
  destruct (Z.ltb_spec (global_depth_ t) 31); simpl; [|discriminate].
  unfold int_of. destruct (_ && _); simpl; [|discriminate].
  intros [= <-]. split; [done | lia].
Qed.

Lemma split_int_Done (t t1 : Table) (key : K) :
  split_int hash t key = Done t1 → split hash t key = Done t1.
Proof.
  unfold split_int, split.
  destruct (IndexOf_int hash t key) as [i| |] eqn:Hi; simpl; try discriminate.
  apply IndexOf_int_Done in Hi as [-> _].
  destruct (dir_at t (IndexOf hash t key)) as [p| |]; simpl; try discriminate.
  destruct (deref t p) as [b| |]; simpl; try discriminate.
  destruct (GetDepth b =? global_depth_ t).
  - destruct (int_of (global_depth_ t + 1)); simpl; try discriminate.
    destruct (int_of (Z.of_nat (length (dir_ t)))) as [dir_num| |];
      simpl; try discriminate.
    destruct (int_of (dir_num * 2)); simpl; try discriminate.
    destruct (shl1_int (GetDepth b)); simpl; try discriminate. done.
  - simpl. destruct (shl1_int (GetDepth b)); simpl; try discriminate. done.
Qed.

Lemma split_loop_int_Done (fuel : nat) (t t' : Table) (key : K) :
  split_loop_int hash fuel t key = Done t' →
  split_loop hash fuel t key = Done t' ∧ global_depth_ t' ≤ 30.
Proof.
  revert t. induction fuel as [|fuel IH]; intros t; simpl.
  all: destruct (IndexOf_int hash t key) as [i| |] eqn:Hi; simpl; try discriminate.
  all: apply IndexOf_int_Done in Hi as [-> Hgd].
  all: destruct (dir_at t (IndexOf hash t key)) as [p| |]; simpl; try discriminate.
  all: destruct (deref t p) as [b| |]; simpl; try discriminate.
  all: destruct (IsFull b); try discriminate; try (by intros [= <-]).
  destruct (split_int hash t key) as [t1| |] eqn:Hsplit; simpl; try discriminate.
  apply split_int_Done in Hsplit. rewrite Hsplit. simpl. apply IH.
Qed.

Lemma split_loop_int_agrees (fuel : nat) (t t' : Table) (key : K) :
  table_ok hash t → split_loop hash fuel t key = Done t' → global_depth_ t' ≤ 30 →
  split_loop_int hash fuel t key = Done t'.
Proof.
  revert t. induction fuel as [|fuel IH]; intros t Hok Hloop Hgd'.
  all: pose proof (split_loop_grows _ _ _ _ Hloop) as (Hmono & _).
  all: pose proof (ok_depth _ _ Hok) as H0.
  all: simpl in Hloop |- *; rewrite IndexOf_int_small by lia; simpl.
  all: unfold dir_at, deref in *.
  all: destruct (dir_ t !! Z.to_nat (IndexOf hash t key)) as [p|] eqn:Hp;
         simpl in *; try discriminate.
  all: destruct (heap_ t !! p) as [b|] eqn:Hb; simpl in *; try discriminate.
  all: destruct (IsFull b); try done.
  destruct (split_spec t key p b Hok Hp Hb) as (t1 & _ & _ & Hsplit & Hok1 & _).
  rewrite Hsplit in Hloop. simpl in Hloop.
  pose proof (split_loop_grows _ _ _ _ Hloop) as (Hmono1 & _).
  pose proof (split_depth t t1 key p b Hp Hb Hsplit) as Hgd1.
  rewrite (split_int_small t key p b); try done; try lia.
  - rewrite Hsplit. simpl. by apply IH.
  - intros Heq. rewrite Heq, Z.eqb_refl in Hgd1. lia.
Qed.

(** On a consistent table the checked [Insert] returns a table exactly
    when [Insert] returns it at a global depth of at most 30. *)
Lemma Insert_int_iff (fuel : nat) (t t' : Table) (key : K) (value : V) :
  table_ok hash t →
  Insert_int hash fuel t key value = Done t' ↔
  Insert hash fuel t key value = Done t' ∧ global_depth_ t' ≤ 30.
Proof.
  intros Hok. unfold Insert_int, Insert. split.
  - destruct (split_loop_int hash fuel t key) as [t1| |] eqn:Hloop;
      simpl; try discriminate.
    apply split_loop_int_Done in Hloop as [-> Hgd1]. simpl.
    destruct (IndexOf_int hash t1 key) as [i| |] eqn:Hi; simpl; try discriminate.
    apply IndexOf_int_Done in Hi as [-> _].
    destruct (dir_at t1 (IndexOf hash t1 key)) as [p| |]; simpl; try discriminate.
    destruct (deref t1 p) as [b| |]; simpl; try discriminate.
    destruct (assign key value (list_ b)); intros [= <-]; done.
  - intros [Hins Hgd'].
    destruct (split_loop hash fuel t key) as [t1| |] eqn:Hloop;
      simpl in Hins; try discriminate.
    assert (Hgd1 : global_depth_ t1 = global_depth_ t').
    { destruct (dir_at t1 (IndexOf hash t1 key)) as [p| |];
        simpl in Hins; try discriminate.
      destruct (deref t1 p) as [b| |]; simpl in Hins; try discriminate.
      by destruct (assign key value (list_ b)); injection Hins as <-. }
    pose proof (split_loop_ok _ _ _ _ Hok Hloop) as Hok1.
    rewrite (split_loop_int_agrees fuel t t1 key Hok Hloop) by lia. simpl.
    rewrite IndexOf_int_small by (pose proof (ok_depth _ _ Hok1); lia).
    exact Hins.
Qed.

Lemma split_loop_bucket_size (fuel : nat) (t t' : Table) (key : K) :
  split_loop hash fuel t key = Done t' → bucket_size_ t' = bucket_size_ t.
Proof.
  revert t. induction fuel as [|fuel IH]; intros t; simpl;
    unfold dir_at, deref;
    destruct (dir_ t !! Z.to_nat (IndexOf hash t key)) as [p|] eqn:Hp;
    simpl; try discriminate;
    destruct (heap_ t !! p) as [b|] eqn:Hb; simpl; try discriminate;
    destruct (IsFull b); try discriminate; try (by intros [= <-]).
  unfold split, dir_at, deref. rewrite Hp. simpl. rewrite Hb. simpl.
  intros Hloop. apply IH in Hloop. rewrite Hloop. unfold split_bucket. simpl.
  by destruct (GetDepth b =? global_depth_ t).
Qed.

(** The capacity given to the constructor is never changed. *)
Lemma reachable_bucket_size (bucket_size : Z) (t : Table) :
  reachable hash bucket_size t → bucket_size_ t = bucket_size.
Proof.
  induction 1 as [|t fuel key value t' _ IH HI|t key r t' _ IH HR|]; [done | | | done].
  - revert HI. unfold Insert.
    destruct (split_loop hash fuel t key) as [t1| |] eqn:Hloop; simpl;
      try discriminate.
    apply split_loop_bucket_size in Hloop. unfold dir_at, deref.
    destruct (dir_ t1 !! _) as [p|]; simpl; [|discriminate].
    destruct (heap_ t1 !! p) as [b|]; simpl; [|discriminate].
    destruct (assign key value (list_ b)); intros [= <-]; simpl; congruence.
  - revert HR. unfold Remove, dir_at, deref.
    destruct (dir_ t !! _) as [p|]; simpl; [|discriminate].
    destruct (heap_ t !! p) as [b|]; simpl; [|discriminate].
    destruct (Bucket_Remove b key). by intros [= _ <-].
Qed.

(** ** What a user of the table can rely on *)

(** X1. In a reachable table, an [Insert] that returns changes the
    answer of [Find] for no key other than the inserted one, however
    many buckets it splits on the way. *)
Theorem insert_keeps_other_keys
    (bucket_size : Z) (fuel : nat) (t t' : Table) (key key' : K) (value : V) :
  0 ≤ bucket_size → reachable hash bucket_size t →
  Insert hash fuel t key value = Done t' → key' ≠ key →
  Find hash t' key' = Find hash t key'.
Proof.
  intros Hsize Hreach HI Hne.
  pose proof (reachable_ok _ _ Hsize Hreach) as Hok.
  revert HI. unfold Insert.
  destruct (split_loop hash fuel t key) as [t1| |] eqn:Hloop; simpl; try discriminate.
  rewrite <- (split_loop_find _ _ _ _ key' Hok Hloop).
  destruct (split_loop_exit _ _ _ _ Hloop) as (p & b & Hp & Hb & Hfull).
  unfold dir_at, deref. rewrite Hp. simpl. rewrite Hb. simpl.
  destruct (assign key value (list_ b)) as [l'|] eqn:Hassign; intros [= <-].
  - apply Find_update_bucket with b; [done |]. simpl.
    by eapply find_pair_assign_other.
  - apply Find_update_bucket with b; [done |].
    unfold Bucket_Insert. rewrite Hfull. simpl.
    by apply find_pair_snoc_other.
Qed.

(** X2. In a reachable table, [Remove] returns [true] exactly when
    [Find] found the key; afterwards [Find] does not find it, every other
    key is found as before, and global depth, bucket count and directory
    are as they were: nothing is merged or shrunk. *)
Theorem remove_erases_key
    (bucket_size : Z) (t t' : Table) (key : K) (r : bool) :
  0 ≤ bucket_size → reachable hash bucket_size t →
  Remove hash t key = Done (r, t') →
  (r = true ↔ ∃ v, Find hash t key = Done (Some v)) ∧
  Find hash t' key = Done None ∧
  (∀ key', key' ≠ key → Find hash t' key' = Find hash t key') ∧
  GetGlobalDepth t' = GetGlobalDepth t ∧
  GetNumBuckets t' = GetNumBuckets t ∧
  dir_ t' = dir_ t.
Proof.
  intros Hsize Hreach.
  pose proof (reachable_wf _ _ Hsize Hreach) as Hwf.
  unfold Remove, dir_at, deref.
  destruct (dir_ t !! Z.to_nat (IndexOf hash t key)) as [p|] eqn:Hp;
    simpl; [|discriminate].
  destruct (heap_ t !! p) as [b|] eqn:Hb; simpl; [|discriminate].
  pose proof (wf_keys _ _ Hwf _ _ _ Hp Hb) as Hnodup.
  assert (Hplt : (p < length (heap_ t))%nat) by (by eapply lookup_lt_Some).
  assert (HF : Find hash t key = Done (Bucket_Find b key)).
  { unfold Find, dir_at, deref. rewrite Hp. simpl. by rewrite Hb. }
  unfold Bucket_Remove.
  destruct (find_pair key (list_ b)) as [item|] eqn:Hfind; intros [= <- <-].
  - destruct (find_pair_Some _ _ _ Hfind) as [Hin Hkey].
    split; [|split; [|split; [|done]]].
    + split; [|done]. intros _. exists item.2. rewrite HF.
      unfold Bucket_Find. by rewrite Hfind.
    + unfold Find, dir_at, deref, IndexOf in *. simpl. rewrite Hp. simpl.
      rewrite list_lookup_insert_eq by done. simpl. unfold Bucket_Find. simpl.
      replace (find_pair key (filter (λ q, q ≠ item) (list_ b))) with (@None (K * V));
        [done |].
      symmetry. apply find_pair_None.
      intros [item' [Hk [Hne Hin']%list_elem_of_filter]]%list_elem_of_fmap.
      apply Hne. apply (NoDup_fst_inj (list_ b)); [done | done | done | congruence].
    + intros key' Hne. apply Find_update_bucket with b; [done |]. simpl.
      apply find_pair_filter. intros item' _ Hk ->. congruence.
  - split; [|split; [|split; [|done]]].
    + split; [discriminate |]. intros [v Hv]. rewrite HF in Hv.
      unfold Bucket_Find in Hv. by rewrite Hfind in Hv.
    + rewrite (Find_update_bucket t p b b key Hb eq_refl), HF.
      unfold Bucket_Find. by rewrite Hfind.
    + intros key' _. by apply Find_update_bucket with b.
Qed.

(** X3. In a reachable table, a pair stored in the bucket of any
    directory slot is the pair [Find] returns for its key, and the bucket
    is the one the key is directed to: no stored key is out of reach, and
    no key is stored in two buckets. *)
Theorem stored_pair_is_found
    (bucket_size : Z) (t : Table) (i p : nat) (b : Bucket) (key : K) (value : V) :
  0 ≤ bucket_size → reachable hash bucket_size t →
  dir_ t !! i = Some p → heap_ t !! p = Some b → (key, value) ∈ list_ b →
  dir_ t !! Z.to_nat (IndexOf hash t key) = Some p ∧
  Find hash t key = Done (Some value).
Proof.
  intros Hsize Hreach Hi Hb Hin.
  pose proof (reachable_wf _ _ Hsize Hreach) as [Hok Hkeys Hshare _].
  pose proof Hok as [Hd Hlen Hslots].
  destruct (Hslots _ _ Hi) as (b0 & Hb0 & _ & Hdep & _ & _ & Hitems).
  rewrite Hb in Hb0. injection Hb0 as <-.
  pose proof (IndexOf_range t key Hd) as Hrange.
  assert (Hp : dir_ t !! Z.to_nat (IndexOf hash t key) = Some p).
  { apply (Hshare i _ p b); [done | done | lia |].
    rewrite Z2Nat.id by lia.
    eapply agree_low_trans; [apply agree_low_sym, (Hitems (key, value) Hin) |].
    simpl. eapply agree_low_le; [|by apply IndexOf_agree]. lia. }
  split; [done |].
  unfold Find, dir_at, deref. rewrite Hp. simpl. rewrite Hb. simpl.
  unfold Bucket_Find. rewrite (find_pair_unique key value); [done | | done].
  by apply (Hkeys i p).
Qed.

(** X4. In a reachable table, every bucket a directory slot refers to
    was built with the table's capacity, holds at most that many pairs,
    and holds no key twice. *)
Theorem buckets_within_capacity_with_distinct_keys
    (bucket_size : Z) (t : Table) (i p : nat) (b : Bucket) :
  0 ≤ bucket_size → reachable hash bucket_size t →
  dir_ t !! i = Some p → heap_ t !! p = Some b →
  size_ b = bucket_size_ t ∧ bucket_size_ t = bucket_size ∧
  Z.of_nat (length (list_ b)) ≤ bucket_size ∧
  NoDup (list_ b).*1.
Proof.
  intros Hsize Hreach Hi Hb.
  pose proof (reachable_wf _ _ Hsize Hreach) as [Hok Hkeys _ _].
  destruct (ok_slots _ _ Hok _ _ Hi) as (b0 & Hb0 & Hsz & _ & Hcap & _).
  rewrite Hb in Hb0. injection Hb0 as <-.
  pose proof (reachable_bucket_size _ _ Hreach) as Hbs.
  split; [done |]. split; [done |]. split; [lia |]. by apply (Hkeys i p).
Qed.

(** X5. In a reachable table, two directory slots hold the same bucket
    exactly when their indices agree on the low [local depth] bits of
    that bucket. *)
Theorem slots_share_iff_low_bits_agree
    (bucket_size : Z) (t : Table) (i j p : nat) (b : Bucket) :
  0 ≤ bucket_size → reachable hash bucket_size t →
  dir_ t !! i = Some p → heap_ t !! p = Some b → (j < length (dir_ t))%nat →
  dir_ t !! j = Some p ↔ agree_low (depth_ b) (Z.of_nat i) (Z.of_nat j).
Proof.
  intros Hsize Hreach Hi Hb Hj.
  pose proof (reachable_wf _ _ Hsize Hreach) as [Hok _ Hshare _].
  destruct (ok_slots _ _ Hok _ _ Hi) as (b0 & Hb0 & _ & _ & _ & Hsharers & _).
  rewrite Hb in Hb0. injection Hb0 as <-.
  split; [by apply Hsharers | by apply (Hshare i j p b)].
Qed.

(** X6. In a reachable table, the hash of every key stored in the
    bucket of slot [i] has the low [local depth] bits of [i]. *)
Theorem keys_hash_to_their_slot
    (bucket_size : Z) (t : Table) (i p : nat) (b : Bucket) (item : K * V) :
  0 ≤ bucket_size → reachable hash bucket_size t →
  dir_ t !! i = Some p → heap_ t !! p = Some b → item ∈ list_ b →
  hash item.1 mod 2 ^ depth_ b = Z.of_nat i mod 2 ^ depth_ b.
Proof.
  intros Hsize Hreach Hi Hb Hin.
  pose proof (reachable_ok _ _ Hsize Hreach) as Hok.
  destruct (ok_slots _ _ Hok _ _ Hi) as (b0 & Hb0 & _ & Hdep & _ & _ & Hitems).
  rewrite Hb in Hb0. injection Hb0 as <-.
  apply Z.bits_inj'. intros n Hn.
  destruct (Z.lt_ge_cases n (depth_ b)) as [Hlt|Hge].
  - rewrite !Z.mod_pow2_bits_low by lia. by apply Hitems.
  - by rewrite !Z.mod_pow2_bits_high by lia.
Qed.

(** X7. In a reachable table, [GetNumBuckets] is the number of distinct
    buckets the directory refers to. *)
Theorem num_buckets_counts_directory_buckets (bucket_size : Z) (t : Table) :
  0 ≤ bucket_size → reachable hash bucket_size t →
  GetNumBuckets t = Z.of_nat (size (live_buckets t)).
Proof.
  intros Hsize Hreach. unfold GetNumBuckets. symmetry.
  apply (wf_count _ _ (reachable_wf _ _ Hsize Hreach)).
Qed.

(** X8. On a reachable table no operation reads outside the directory
    or through a dangling bucket pointer: [Find] and [Remove] return for
    every key, and [Insert] either returns or is still splitting. *)
Theorem table_operations_stay_in_bounds
    (bucket_size : Z) (fuel : nat) (t : Table) (key : K) (value : V) :
  0 ≤ bucket_size → reachable hash bucket_size t →
  (∃ r, Find hash t key = Done r) ∧
  (∃ r t', Remove hash t key = Done (r, t')) ∧
  Insert hash fuel t key value ≠ Undefined.
Proof.
  intros Hsize Hreach.
  pose proof (reachable_ok _ _ Hsize Hreach) as Hok.
  pose proof (IndexOf_range t key (ok_depth _ _ Hok)) as Hrange.
  destruct (lookup_lt_is_Some_2 (dir_ t) (Z.to_nat (IndexOf hash t key)))
    as [p Hp]; [rewrite <- (ok_dir_len _ _ Hok) in Hrange; lia |].
  destruct (ok_slots _ _ Hok _ _ Hp) as (b & Hb & _).
  split; [|split].
  - unfold Find, dir_at, deref. rewrite Hp. simpl. rewrite Hb. by eexists.
  - unfold Remove, dir_at, deref. rewrite Hp. simpl. rewrite Hb. simpl.
    destruct (Bucket_Remove b key). by eexists _, _.
  - unfold Insert.
    destruct (split_loop hash fuel t key) as [t1| |] eqn:Hloop; simpl; try done.
    + destruct (split_loop_exit _ _ _ _ Hloop) as (p1 & b1 & Hp1 & Hb1 & _).
      unfold dir_at, deref. rewrite Hp1. simpl. rewrite Hb1. simpl.
      by destruct (assign key value (list_ b1)).
    + by apply split_loop_defined in Hloop.
Qed.

(** X9. An [Insert] that returns never lowers the global depth, the
    bucket count or the directory length, and it adds at least one bucket
    per doubling of the directory; when the target bucket is not full it
    leaves all three as they are. *)
Theorem insert_only_grows
    (fuel : nat) (t t' : Table) (key : K) (value : V) :
  Insert hash fuel t key value = Done t' →
  GetGlobalDepth t ≤ GetGlobalDepth t' ∧
  GetNumBuckets t ≤ GetNumBuckets t' ∧
  (length (dir_ t) ≤ length (dir_ t'))%nat ∧
  GetGlobalDepth t' - GetGlobalDepth t ≤ GetNumBuckets t' - GetNumBuckets t ∧
  (∀ p b, dir_ t !! Z.to_nat (IndexOf hash t key) = Some p → heap_ t !! p = Some b →
          IsFull b = false →
          GetGlobalDepth t' = GetGlobalDepth t ∧ GetNumBuckets t' = GetNumBuckets t ∧
          dir_ t' = dir_ t).
Proof.
  unfold Insert, GetGlobalDepth, GetNumBuckets.
  destruct (split_loop hash fuel t key) as [t1| |] eqn:Hloop; simpl; try discriminate.
  destruct (split_loop_exit _ _ _ _ Hloop) as (p1 & b1 & Hp1 & Hb1 & _).
  unfold dir_at, deref. rewrite Hp1. simpl. rewrite Hb1. simpl.
  pose proof (split_loop_grows _ _ _ _ Hloop) as (Hgd & Hnb & Hlen & Hrel).
  assert (Hroom : ∀ p b, dir_ t !! Z.to_nat (IndexOf hash t key) = Some p →
            heap_ t !! p = Some b → IsFull b = false → t1 = t).
  { intros p b Hp Hb HF. revert Hloop.
    destruct fuel; simpl; unfold dir_at, deref; rewrite Hp; simpl; rewrite Hb;
      simpl; rewrite HF; by intros [= <-]. }
  destruct (assign key value (list_ b1)); intros [= <-]; simpl;
    (split; [lia |]; split; [lia |]; split; [lia |]; split; [lia |];
     intros p b Hp Hb HF; by rewrite (Hroom p b Hp Hb HF)).
Qed.


End TableFacts.

(** ** Closed instances: integer keys with the identity hash *)

(** C3. Inserting a key that is already stored splits its bucket when
    the bucket is full: with capacity 2 and keys 0 and 2 stored in the
    only bucket, [Insert(0, 30)] leaves three buckets, global depth 2 and
    a directory of four slots; with capacity 1 and key 0 stored, a second
    [Insert] of key 0 never leaves the split loop. *)
Theorem reinsert_into_full_bucket_splits :
  (∃ t1 t2 t3 : ExtendibleHashTable (K:=Z) (V:=Z),
     Insert id 4 (new_table 2) 0 10 = Done t1 ∧
     Insert id 4 t1 2 20 = Done t2 ∧
     Find id t2 0 = Done (Some 10) ∧
     GetNumBuckets t2 = 1 ∧ GetGlobalDepth t2 = 0 ∧ length (dir_ t2) = 1%nat ∧
     Insert id 4 t2 0 30 = Done t3 ∧
     GetNumBuckets t3 = 3 ∧ GetGlobalDepth t3 = 2 ∧ length (dir_ t3) = 4%nat) ∧
  (∃ t1 : ExtendibleHashTable (K:=Z) (V:=Z),
     Insert id 0 (new_table 1) 0 10 = Done t1 ∧
     Find id t1 0 = Done (Some 10) ∧
     ∀ fuel, Insert id fuel t1 0 20 = OutOfFuel).
Proof.
  split.
  - eexists _, _, _. do 9 (split; [evaluate |]). evaluate.
  - eexists. split; [evaluate |]. split; [evaluate |].
    intros fuel. unfold Insert.
    rewrite (split_loop_diverges id 0 fuel _ 0%nat (mkBucket 1 0 [(0, 10)])).
    + done.
    + apply (reachable_ok id 1); [lia |].
      apply (reach_Insert id 1 (new_table 1) 0%nat 0 10); [apply reach_new | evaluate].
    + evaluate.
    + evaluate.
    + evaluate.
    + by repeat constructor.
Qed.

Lemma find_after_insert_witness :
  ∃ t1 t2 : ExtendibleHashTable (K:=Z) (V:=Z),
    insert_all id 4 (new_table 2) [(0, 10); (1, 11); (2, 12)] = Done t1 ∧
    Insert id 4 t1 1 21 = Done t2 ∧
    Find id t2 1 = Done (Some 21).
Proof.
  eexists _, _. split; [evaluate |].
  lazymatch goal with
  | |- Insert _ _ ?t1 _ _ = _ ∧ _ =>
      split; [evaluate | apply (find_after_insert id 4 t1 _ 1 21); evaluate]
  end.
Defined.

Lemma directory_length_and_depth_bound_witness :
  ∃ t : ExtendibleHashTable (K:=Z) (V:=Z),
    insert_all id 4 (new_table 2) [(1, 10); (2, 20); (3, 30)] = Done t ∧
    GetGlobalDepth t = 1 ∧ GetNumBuckets t = 2 ∧
    Z.of_nat (length (dir_ t)) = 2 ^ GetGlobalDepth t ∧
    ∀ i, 0 ≤ i < 2 ^ GetGlobalDepth t →
         ∃ d, GetLocalDepth t i = Done d ∧ d ≤ GetGlobalDepth t.
Proof.
  eexists. split; [evaluate |]. split; [evaluate |]. split; [evaluate |].
  apply (directory_length_and_depth_bound id 2); [lia |].
  apply (insert_all_reachable id 2 4 (new_table 2) _ [(1, 10); (2, 20); (3, 30)]);
    [apply reach_new | evaluate].
Defined.

Lemma insert_terminates_witness :
  ∃ t t' : ExtendibleHashTable (K:=Z) (V:=Z),
    insert_all id 4 (new_table 2) [(0, 10); (2, 20)] = Done t ∧
    GetNumBuckets t = 1 ∧ GetGlobalDepth t ≤ 30 ∧
    ¬ all_agree id 2 t 4 ∧
    Insert_int id (Z.to_nat 2) t 4 40 = Done t' ∧
    Insert id (Z.to_nat 2) t 4 40 = Done t' ∧
    GetGlobalDepth t' ≤ 30.
Proof.
  eexists.
  assert (Hnot : ¬ all_agree (V:=Z) id 2
            (mkTable 0 2 1 [0%nat] [mkBucket 2 0 [(0, 10); (2, 20)]]) 4).
  { unfold all_agree. intros Hall. rewrite Forall_forall in Hall.
    assert (Hbit : agree_low 2 (id 2) (id 4)).
    { apply (Hall (2, 20)). vm_compute.
      apply list_elem_of_further, list_elem_of_here. }
    specialize (Hbit 1 ltac:(lia)). vm_compute in Hbit. discriminate. }
  destruct (insert_terminates id 2
              (mkTable 0 2 1 [0%nat] [mkBucket 2 0 [(0, 10); (2, 20)]]) 4 40 2)
    as (t' & Hint & Hins & Hdepth).
  - lia.
  - apply (insert_all_reachable id 2 4 (new_table 2) _ [(0, 10); (2, 20)]);
      [apply reach_new | evaluate].
  - simpl. lia.
  - lia.
  - exact Hnot.
  - exists t'. split; [evaluate |]. split; [evaluate |].
    split; [simpl; lia |]. split; [exact Hnot |]. done.
Defined.

(** Counterexample to C9 as the claim states it, on keys that differ
    in a high-order hash bit only: with capacity 1 and key 0 stored, the keys
    0 and [2^30] do not agree on their 31 low-order hash bits, but
    [Insert(2^30, 20)] splits the bucket of key 0 thirty times and then
    has to double a directory of [2^30] slots, where [dir_num * 2]
    overflows [int]; the call returns for no bound on the loop. *)
Lemma insert_overflows_on_high_bit_difference :
  ∃ t : ExtendibleHashTable (K:=Z) (V:=Z),
    Insert_int id 0 (new_table 1) 0 10 = Done t ∧
    ¬ all_agree id 31 t (2 ^ 30) ∧
    Insert_int id 31 t (2 ^ 30) 20 = Undefined ∧
    ∀ fuel t', Insert_int id fuel t (2 ^ 30) 20 ≠ Done t'.
Proof.
  exists (mkTable 0 1 1 [0%nat] [mkBucket 1 0 [(0, 10)]]).
  assert (Hloop : ∀ fuel,
            split_loop_int (V:=Z) id fuel
              (mkTable 0 1 1 [0%nat] [mkBucket 1 0 [(0, 10)]]) (2 ^ 30)
            = if 31 - 0 <=? Z.of_nat fuel then Undefined else OutOfFuel).
  { intros fuel.
    apply (split_loop_int_overflows id (2 ^ 30) fuel _ 0%nat (mkBucket 1 0 [(0, 10)])).
    - apply (reachable_ok id 1); [lia |].
      apply (reach_Insert id 1 (new_table 1) 0%nat 0 10); [apply reach_new | evaluate].
    - simpl. lia.
    - evaluate.
    - evaluate.
    - evaluate.
    - constructor; [|constructor]. intros n Hn. unfold id. simpl fst.
      rewrite Z.bits_0. symmetry. apply Z.pow2_bits_false. lia. }
  split; [evaluate |]. split; [|split].
  - unfold all_agree. intros Hall. rewrite Forall_forall in Hall.
    assert (Hbit : agree_low 31 (id 0) (id (2 ^ 30))).
    { apply (Hall (0, 10)). vm_compute. apply list_elem_of_here. }
    specialize (Hbit 30 ltac:(lia)). vm_compute in Hbit. discriminate.
  - unfold Insert_int. rewrite Hloop. done.
  - intros fuel t'. unfold Insert_int. rewrite Hloop.
    by destruct (31 - 0 <=? Z.of_nat fuel).
Qed.

(** ** Closed instances of the further properties of the hash table *)

(** Shows that the table built by inserting [items] one after the other
    into a new table of capacity [bs] is reachable. *)
Ltac reach_by bs items :=
  apply (insert_all_reachable id bs 4 (new_table bs) _ items);
  [apply reach_new | evaluate].

Lemma insert_keeps_other_keys_witness :
  ∃ t t' : ExtendibleHashTable (K:=Z) (V:=Z),
    insert_all id 4 (new_table 2) [(1, 10); (2, 20); (3, 30)] = Done t ∧
    Insert id 4 t 5 50 = Done t' ∧
    GetNumBuckets t = 2 ∧ GetNumBuckets t' = 3 ∧
    Find id t' 3 = Find id t 3.
Proof.
  eexists _, _. split; [evaluate |].
  lazymatch goal with
  | |- Insert _ _ ?t _ _ = _ ∧ _ =>
      split; [evaluate |]; split; [evaluate |]; split; [evaluate |];
      apply (insert_keeps_other_keys id 2 4 t _ 5 3 50);
      [lia | reach_by 2 [(1, 10); (2, 20); (3, 30)] | evaluate | lia]
  end.
Defined.

Lemma remove_erases_key_witness :
  ∃ t t' : ExtendibleHashTable (K:=Z) (V:=Z),
    insert_all id 4 (new_table 2) [(1, 10); (2, 20); (3, 30)] = Done t ∧
    Remove id t 3 = Done (true, t') ∧
    Find id t' 3 = Done None.
Proof.
  eexists _, _. split; [evaluate |].
  lazymatch goal with
  | |- Remove _ ?t _ = _ ∧ _ =>
      split; [evaluate |];
      refine (proj1 (proj2 (remove_erases_key id 2 t _ 3 true _ _ _)));
      [lia | reach_by 2 [(1, 10); (2, 20); (3, 30)] | evaluate]
  end.
Defined.

Lemma stored_pair_is_found_witness :
  ∃ t : ExtendibleHashTable (K:=Z) (V:=Z),
    insert_all id 4 (new_table 2) [(1, 10); (2, 20); (3, 30)] = Done t ∧
    Find id t 3 = Done (Some 30).
Proof.
  eexists. split; [evaluate |].
  refine (proj2 (stored_pair_is_found id 2 _ 1%nat 2%nat
                   (mkBucket 2 1 [(1, 10); (3, 30)]) 3 30 _ _ _ _ _)).
  - lia.
  - reach_by 2 [(1, 10); (2, 20); (3, 30)].
  - evaluate.
  - evaluate.
  - apply list_elem_of_further, list_elem_of_here.
Defined.

Lemma buckets_within_capacity_with_distinct_keys_witness :
  ∃ t : ExtendibleHashTable (K:=Z) (V:=Z),
    insert_all id 4 (new_table 2) [(1, 10); (2, 20); (3, 30)] = Done t ∧
    dir_ t !! 1%nat = Some 2%nat ∧
    heap_ t !! 2%nat = Some (mkBucket 2 1 [(1, 10); (3, 30)]) ∧
    NoDup [1; 3].
Proof.
  eexists. split; [evaluate |]. split; [evaluate |]. split; [evaluate |].
  refine (proj2 (proj2 (proj2
    (buckets_within_capacity_with_distinct_keys id 2 _ 1%nat 2%nat
       (mkBucket 2 1 [(1, 10); (3, 30)]) _ _ _ _)))).
  - lia.
  - reach_by 2 [(1, 10); (2, 20); (3, 30)].
  - evaluate.
  - evaluate.
Defined.

Lemma slots_share_iff_low_bits_agree_witness :
  ∃ t : ExtendibleHashTable (K:=Z) (V:=Z),
    insert_all id 4 (new_table 2) [(0, 10); (2, 20); (0, 30)] = Done t ∧
    dir_ t = [3; 2; 4; 2]%nat ∧
    (dir_ t !! 3%nat = Some 2%nat ↔ agree_low 1 (Z.of_nat 1) (Z.of_nat 3)).
Proof.
  eexists. split; [evaluate |]. split; [evaluate |].
  refine (slots_share_iff_low_bits_agree id 2 _ 1%nat 3%nat 2%nat
            (mkBucket 2 1 []) _ _ _ _ _).
  - lia.
  - reach_by 2 [(0, 10); (2, 20); (0, 30)].
  - evaluate.
  - evaluate.
  - simpl. lia.
Defined.

Lemma keys_hash_to_their_slot_witness :
  ∃ t : ExtendibleHashTable (K:=Z) (V:=Z),
    insert_all id 4 (new_table 2) [(1, 10); (2, 20); (3, 30)] = Done t ∧
    id 3 mod 2 ^ 1 = Z.of_nat 1 mod 2 ^ 1.
Proof.
  eexists. split; [evaluate |].
  refine (keys_hash_to_their_slot id 2 _ 1%nat 2%nat
            (mkBucket 2 1 [(1, 10); (3, 30)]) (3, 30) _ _ _ _ _).
  - lia.
  - reach_by 2 [(1, 10); (2, 20); (3, 30)].
  - evaluate.
  - evaluate.
  - apply list_elem_of_further, list_elem_of_here.
Defined.

Lemma num_buckets_counts_directory_buckets_witness :
  ∃ t : ExtendibleHashTable (K:=Z) (V:=Z),
    insert_all id 4 (new_table 2) [(0, 10); (2, 20); (0, 30)] = Done t ∧
    dir_ t = [3; 2; 4; 2]%nat ∧
    GetNumBuckets t = 3 ∧
    GetNumBuckets t = Z.of_nat (size (live_buckets t)).
Proof.
  eexists. split; [evaluate |]. split; [evaluate |]. split; [evaluate |].
  apply (num_buckets_counts_directory_buckets id 2); [lia |].
  reach_by 2 [(0, 10); (2, 20); (0, 30)].
Defined.

Lemma table_operations_stay_in_bounds_witness :
  ∃ t : ExtendibleHashTable (K:=Z) (V:=Z),
    insert_all id 4 (new_table 2) [(1, 10); (2, 20); (3, 30)] = Done t ∧
    ∃ r, Find id t 7 = Done r.
Proof.
  eexists. split; [evaluate |].
  refine (proj1 (table_operations_stay_in_bounds id 2 0 _ 7 70 _ _)).
  - lia.
  - reach_by 2 [(1, 10); (2, 20); (3, 30)].
Defined.

Lemma insert_only_grows_witness :
  ∃ t t' : ExtendibleHashTable (K:=Z) (V:=Z),
    insert_all id 4 (new_table 2) [(1, 10); (2, 20); (3, 30)] = Done t ∧
    Insert id 4 t 5 50 = Done t' ∧
    GetGlobalDepth t = 1 ∧ GetGlobalDepth t' = 2 ∧
    GetGlobalDepth t ≤ GetGlobalDepth t'.
Proof.
  eexists _, _. split; [evaluate |].
  lazymatch goal with
  | |- Insert _ _ ?t _ _ = _ ∧ _ =>
      split; [evaluate |]; split; [evaluate |]; split; [evaluate |];
      refine (proj1 (insert_only_grows id 4 t _ 5 50 _)); evaluate
  end.
Defined.

